(** * Microservices quality-score model: the five per-file metrics

    A shallow embedding of the scripts under [Metrics Calculation/]
    ([cyclic_independence.py], [code_modularity.py],
    [service_coupling_factor.py], [smad.py], [dccmd.py]) and the properties
    of them that the specification states; then the rows their [main]
    functions write, the aggregation of [aggregate_values.py], and further
    properties the code shows.

    Conventions of the embedding.
    - A parsed JSON document is a value of type [json]; a Python [dict] is an
      association list in insertion order, a Python [set] a duplicate-free
      list.
    - Python exceptions are the constructors of [exn]; a computation that can
      raise has type [result A].
    - Python [float] and [int] values are exact rationals ([Q]); rounding of
      binary floating point, [nan] and [inf] are outside the model.  The one
      irrational operation, [math.sqrt], is taken in [R].  [float] raises
      [OverflowError] on an [int] beyond the range of binary64, as in
      Python.
    - The interpreter bounds the depth of recursion.  The functions of
      [dccmd.py] take [limit], the number of calls of [dfs] it lets nest;
      a search that needs more ends in [RecursionError].
    - Python [str] values are [string]s of 8-bit characters; [str.upper] is
      modelled on the ASCII letters.
    - Every per-file function takes [loaded], the outcome of
      [json.loads(jpath.read_text())]: the parsed document, or the exception
      raised by reading or parsing.
    - A Python [set] is iterated in an order the language leaves open; the
      loops over sets below compute maxima and memberships, which do not
      depend on it.
    - [aggregate_values.py] is given the CSV files as [csv.DictReader]
      presents them, in the order of their sorted paths; paths are POSIX
      paths.  [Path.stem] and the formatting of a number read from text
      belong to the interpreter and are parameters. *)

From Stdlib Require Import List String Ascii Bool Arith PeanoNat ZArith.
From Stdlib Require Import QArith Qabs Lia Lra Lqa Permutation Sorted.
From Stdlib Require Import Reals DecimalString.
Import ListNotations.

Set Implicit Arguments.
Set Warnings "-register-all".

Local Open Scope string_scope.
Local Open Scope list_scope.

(* ================================================================== *)
(** * A fragment of Python *)
(* ================================================================== *)

Module Py.

(** The exception classes the scripts can meet. *)
Inductive exn : Set :=
| JSONDecodeError
| KeyError
| TypeError
| AttributeError
| ValueError
| OSError
| UnicodeDecodeError
| StatisticsError
| OverflowError
| RecursionError.

Definition exn_eqb (a b : exn) : bool :=
  match a, b with
  | JSONDecodeError, JSONDecodeError | KeyError, KeyError
  | TypeError, TypeError | AttributeError, AttributeError
  | ValueError, ValueError | OSError, OSError
  | UnicodeDecodeError, UnicodeDecodeError
  | StatisticsError, StatisticsError
  | OverflowError, OverflowError | RecursionError, RecursionError => true
  | _, _ => false
  end.

(** A computation either returns or raises. *)
Inductive result (A : Type) : Type :=
| Ok (a : A)
| Raise (e : exn).

Arguments Ok {A} a.
Arguments Raise {A} e.

Definition bind {A B : Type} (c : result A) (k : A -> result B) : result B :=
  match c with
  | Ok a => k a
  | Raise e => Raise e
  end.

Notation "x <- c ;; k" := (bind c (fun x => k))
  (at level 61, c at next level, right associativity).

(** [try: c  except (handled): return fallback], continuing with [k] when
    [c] returns. *)
Definition try_except {A B : Type} (c : result A) (handled : list exn)
    (fallback : B) (k : A -> result B) : result B :=
  match c with
  | Ok a => k a
  | Raise e => if existsb (exn_eqb e) handled then Ok fallback else Raise e
  end.

(** [for x in xs: acc = body(acc, x)], stopping at the first exception. *)
Fixpoint for_each {A B : Type} (body : A -> B -> result A) (xs : list B)
    (acc : A) : result A :=
  match xs with
  | [] => Ok acc
  | x :: xs' => acc' <- body acc x ;; for_each body xs' acc'
  end.

(** ** Values produced by [json.loads] *)

Inductive json : Type :=
| JNull
| JBool (b : bool)
| JNum (q : Q)
| JStr (s : string)
| JArr (items : list json)
| JObj (fields : list (string * json)).

(** ** Dictionaries: association lists in insertion order *)

Section Dict.
Variables K V : Type.
Variable eqb : K -> K -> bool.

Fixpoint dict_get (m : list (K * V)) (k : K) : option V :=
  match m with
  | [] => None
  | (k', v) :: m' => if eqb k' k then Some v else dict_get m' k
  end.

(** [m[k] = v]: an existing key keeps its place. *)
Fixpoint dict_set (m : list (K * V)) (k : K) (v : V) : list (K * V) :=
  match m with
  | [] => [(k, v)]
  | (k', v') :: m' =>
      if eqb k' k then (k', v) :: m' else (k', v') :: dict_set m' k v
  end.

Definition dict_keys (m : list (K * V)) : list K := map fst m.
Definition dict_values (m : list (K * V)) : list V := map snd m.

End Dict.

Definition sget {V : Type} (m : list (string * V)) (k : string) : option V :=
  dict_get String.eqb m k.
Definition sset {V : Type} (m : list (string * V)) (k : string) (v : V) :=
  dict_set String.eqb m k v.

(** ** Sets of strings: duplicate-free lists *)

Definition mem (x : string) (s : list string) : bool :=
  existsb (String.eqb x) s.

Definition set_add (x : string) (s : list string) : list string :=
  if mem x s then s else s ++ [x].

(** [q in m[p]] for a dict of sets, false where [p] is no key. *)
Definition outs (m : list (string * list string)) (p q : string) : bool :=
  match sget m p with
  | Some s => mem q s
  | None => false
  end.

(** ** Hashable values, used as dictionary keys

    [True == 1] and [False == 0] as keys, as in Python; a list or a dict is
    unhashable. *)

Inductive hkey : Type :=
| KNone
| KNum (q : Q)
| KStr (s : string).

Definition hkey_eqb (a b : hkey) : bool :=
  match a, b with
  | KNone, KNone => true
  | KNum p, KNum q => Qeq_bool p q
  | KStr s, KStr t => String.eqb s t
  | _, _ => false
  end.

Definition hash (v : json) : result hkey :=
  match v with
  | JNull => Ok KNone
  | JBool b => Ok (KNum (if b then 1 else 0))
  | JNum q => Ok (KNum q)
  | JStr s => Ok (KStr s)
  | JArr _ | JObj _ => Raise TypeError
  end.

(** ** Dynamically typed operations *)

(** [v[k]] for a string [k]. *)
Definition subscript (v : json) (k : string) : result json :=
  match v with
  | JObj m => match sget m k with Some x => Ok x | None => Raise KeyError end
  | _ => Raise TypeError
  end.

(** [v.get(k, default)]: only a dict has the method. *)
Definition dot_get (v : json) (k : string) (default : json) : result json :=
  match v with
  | JObj m => Ok (match sget m k with Some x => x | None => default end)
  | _ => Raise AttributeError
  end.

(** [v.items()], [v.keys()], [v.values()]. *)
Definition dot_items (v : json) : result (list (string * json)) :=
  match v with
  | JObj m => Ok m
  | _ => Raise AttributeError
  end.

Definition dot_keys (v : json) : result (list string) :=
  m <- dot_items v ;; Ok (dict_keys m).

Definition dot_values (v : json) : result (list json) :=
  m <- dot_items v ;; Ok (dict_values m).

Definition chars (s : string) : list json :=
  map (fun c => JStr (String c EmptyString)) (list_ascii_of_string s).

(** [for x in v]: a list yields its items, a dict its keys, a string its
    characters; nothing else is iterable. *)
Definition iterate (v : json) : result (list json) :=
  match v with
  | JArr l => Ok l
  | JObj m => Ok (map JStr (dict_keys m))
  | JStr s => Ok (chars s)
  | JNull | JBool _ | JNum _ => Raise TypeError
  end.

(** [len(v)]. *)
Definition len (v : json) : result nat :=
  match v with
  | JArr l => Ok (List.length l)
  | JObj m => Ok (List.length m)
  | JStr s => Ok (String.length s)
  | JNull | JBool _ | JNum _ => Raise TypeError
  end.

(** ** Strings *)

Definition upper_ascii (c : ascii) : ascii :=
  let n := nat_of_ascii c in
  if (97 <=? n)%nat && (n <=? 122)%nat then ascii_of_nat (n - 32) else c.

Fixpoint upper (s : string) : string :=
  match s with
  | EmptyString => EmptyString
  | String c s' => String (upper_ascii c) (upper s')
  end.

(** [needle in s]. *)
Fixpoint contains (needle s : string) : bool :=
  prefix needle s ||
  match s with
  | EmptyString => false
  | String _ s' => contains needle s'
  end.

(** ** [sorted] on strings *)

Fixpoint insert_sorted (x : string) (l : list string) : list string :=
  match l with
  | [] => [x]
  | y :: l' => if String.leb x y then x :: l else y :: insert_sorted x l'
  end.

Definition sorted (l : list string) : list string :=
  fold_right insert_sorted [] l.

(** ** [statistics.median] *)

Fixpoint insert_sorted_Q (x : Q) (l : list Q) : list Q :=
  match l with
  | [] => [x]
  | y :: l' => if Qle_bool x y then x :: l else y :: insert_sorted_Q x l'
  end.

Definition sorted_Q (l : list Q) : list Q :=
  fold_right insert_sorted_Q [] l.

Definition median (data : list Q) : result Q :=
  let data := sorted_Q data in
  let n := List.length data in
  if (n =? 0)%nat then Raise StatisticsError
  else if (n mod 2 =? 1)%nat then Ok (nth (n / 2) data 0%Q)
  else
    let i := (n / 2)%nat in
    Ok ((nth (i - 1) data 0%Q + nth i data 0%Q) / 2)%Q.

Definition Qnat (n : nat) : Q := inject_Z (Z.of_nat n).

(** [[f(x) for x in xs]], stopping at the first exception. *)
Fixpoint map_each {A B : Type} (f : A -> result B) (xs : list A)
    : result (list B) :=
  match xs with
  | [] => Ok []
  | x :: xs' => y <- f x ;; ys <- map_each f xs' ;; Ok (y :: ys)
  end.

(** [itertools.combinations(l, 2)]. *)
Fixpoint combinations2 {A : Type} (l : list A) : list (A * A) :=
  match l with
  | [] => []
  | x :: l' => map (pair x) l' ++ combinations2 l'
  end.

(** Truth value of the result of [dict.get] on a dict with string values:
    [None] and the empty string are false. *)
Definition truthy (o : option string) : bool :=
  match o with
  | Some s => negb (s =? EmptyString)
  | None => false
  end.

(** The least magnitude [float] cannot convert: the binary64 value nearest
    to an [int] [n] is out of range from [abs(n) = 2**1024 - 2**970] on.  A
    parsed number that large is an [int], every finite [float] being
    smaller. *)
Definition FLOAT_OVERFLOW : Q := inject_Z (2 ^ 1024 - 2 ^ 970).

Definition overflows (q : Q) : bool := Qle_bool FLOAT_OVERFLOW (Qabs q).

(** [float(v)]: [OverflowError] for an [int] too large.  The grammar
    [float] accepts for a [str] belongs to the interpreter and is taken as
    a parameter: [float_of_str s] is the number read, [None] when
    [float(s)] raises [ValueError]. *)
Definition float_ (float_of_str : string -> option Q) (v : json) : result Q :=
  match v with
  | JNum q => if overflows q then Raise OverflowError else Ok q
  | JBool b => Ok (if b then 1 else 0)%Q
  | JStr s =>
      match float_of_str s with Some q => Ok q | None => Raise ValueError end
  | JNull | JArr _ | JObj _ => Raise TypeError
  end.

(** The comprehension
    [{n["id"]: p for p, lst in decomp.items() for n in lst}], which four of
    the scripts spell out in the same words ([node2part], [svc_of],
    [cls2svc]). *)
Definition node2part (items : list (string * json))
    : result (list (hkey * string)) :=
  for_each
    (fun acc (item : string * json) =>
       let (p, lst) := item in
       ns <- iterate lst ;;
       for_each
         (fun acc n =>
            id <- subscript n "id" ;;
            k <- hash id ;;
            Ok (dict_set hkey_eqb acc k p))
         ns acc)
    items [].

(** [m.get(v)] on such a map: the key is hashed first. *)
Definition lookup (m : list (hkey * string)) (v : json)
    : result (option string) :=
  k <- hash v ;; Ok (dict_get hkey_eqb m k).

(** How many members of [l] pass the test [f]. *)
Definition count (f : Q -> bool) (l : list Q) : nat :=
  List.length (filter f l).

(** [1 - mad / (mad + c)], the score both dispersion metrics apply to their
    median absolute deviation. *)
Definition mad_score (c mad : Q) : Q := (1 - mad / (mad + c))%Q.

(** [median(abs(x - med) for x in xs)]. *)
Definition median_abs_dev (xs : list Q) (med : Q) : result Q :=
  median (map (fun x => Qabs (x - med)) xs).

End Py.

(* ================================================================== *)
(** * cyclic_independence.py *)
(* ================================================================== *)

Module Cid.
Import Py.

Definition LAYER_KEY : string := "1_structural_static".

Record row : Type := {
  partitions : nat;
  cyclic_pairs : nat;
  total_pairs : nat;
  CiD : Q
}.

(** What the body of the loop over [links] does with one edge descriptor. *)
Inductive edge_class : Type :=
| Skip
| Cross (p_src p_dst : string).

Definition classify (node2part : list (hkey * string)) (e : json)
    : result edge_class :=
  src <- dot_get e "source" JNull ;;
  dst <- dot_get e "target" JNull ;;
  p_src <- lookup node2part src ;;
  p_dst <- lookup node2part dst ;;
  match p_src, p_dst with
  | Some ps, Some pd => if ps =? pd then Ok Skip else Ok (Cross ps pd)
  | _, _ => Ok Skip
  end.

(** The cross-partition edge an edge descriptor is taken for, if any. *)
Definition cross_of (c : edge_class) : option (string * string) :=
  match c with
  | Skip => None
  | Cross ps pd => Some (ps, pd)
  end.

(** [dep_out[p_src].add(p_dst)]. *)
Definition add_dep (dep_out : list (string * list string)) (ps pd : string)
    : result (list (string * list string)) :=
  match sget dep_out ps with
  | Some s => Ok (sset dep_out ps (set_add pd s))
  | None => Raise KeyError
  end.

Definition step (node2part : list (hkey * string))
    (dep_out : list (string * list string)) (e : json)
    : result (list (string * list string)) :=
  c <- classify node2part e ;;
  match c with
  | Skip => Ok dep_out
  | Cross ps pd => add_dep dep_out ps pd
  end.

(** [q in dep_out[p] and p in dep_out[q]]. *)
Definition is_cyclic (dep_out : list (string * list string))
    (pq : string * string) : result bool :=
  let (p, q) := pq in
  match sget dep_out p with
  | None => Raise KeyError
  | Some out_p =>
      if mem q out_p then
        match sget dep_out q with
        | None => Raise KeyError
        | Some out_q => Ok (mem p out_q)
        end
      else Ok false
  end.

Definition count_true (bs : list bool) : nat :=
  List.length (filter (fun b => b) bs).

Definition cid_for_file (loaded : result json) : result (option row) :=
  try_except (data <- loaded ;; subscript data LAYER_KEY)
    [JSONDecodeError; KeyError] None
    (fun layer =>
       decomp <- dot_get layer "decomposition" (JObj []) ;;
       links <- dot_get layer "links" (JArr []) ;;
       keys <- dot_keys decomp ;;
       let parts := sorted keys in
       let n := List.length parts in
       let total := (n * (n - 1) / 2)%nat in
       if (n <=? 1)%nat then
         Ok (Some {| partitions := n; cyclic_pairs := 0;
                     total_pairs := total; CiD := 1 |})
       else
         items <- dot_items decomp ;;
         n2p <- node2part items ;;
         let dep_out := map (fun p => (p, @nil string)) parts in
         es <- iterate links ;;
         dep_out <- for_each (step n2p) es dep_out ;;
         flags <- map_each (is_cyclic dep_out) (combinations2 parts) ;;
         let cyclic := count_true flags in
         let cid := if (0 <? total)%nat
                    then (1 - Qnat cyclic / Qnat total)%Q else 1%Q in
         Ok (Some {| partitions := n; cyclic_pairs := cyclic;
                     total_pairs := total; CiD := cid |})).

End Cid.

(* ================================================================== *)
(** * code_modularity.py *)
(* ================================================================== *)

Module Cmod.
Import Py.

Definition LAYER_KEY : string := "1_structural_static".

Section WithFloat.

Variable float_of_str : string -> option Q.

(** The three [defaultdict]s of the loop. *)
Record tallies : Type := {
  internal : list (string * nat);
  outgoing : list (string * Q);
  incoming : list (string * Q)
}.

Definition no_tallies : tallies :=
  {| internal := []; outgoing := []; incoming := [] |}.

Definition get_nat (m : list (string * nat)) (p : string) : nat :=
  match sget m p with Some x => x | None => 0%nat end.

Definition get_Q (m : list (string * Q)) (p : string) : Q :=
  match sget m p with Some x => x | None => 0%Q end.

(** What the body of the loop does with one edge descriptor; the weight is
    read only once both endpoints are known. *)
Inductive edge_class : Type :=
| Skip
| Internal (p : string)
| Cross (p_src p_dst : string) (w : Q).

(** [float(e.get("weight", 1.0))]. *)
Definition weight_used (e : json) : result Q :=
  wt <- dot_get e "weight" (JNum 1) ;;
  float_ float_of_str wt.

Definition is_None (v : json) : bool :=
  match v with
  | JNull => true
  | _ => false
  end.

Definition classify (node2part : list (hkey * string)) (e : json)
    : result edge_class :=
  src <- dot_get e "source" JNull ;;
  dst <- dot_get e "target" JNull ;;
  if is_None src || is_None dst then Ok Skip
  else
    p_src <- lookup node2part src ;;
    p_dst <- lookup node2part dst ;;
    match p_src, p_dst with
    | Some ps, Some pd =>
        w <- weight_used e ;;
        if ps =? pd then Ok (Internal ps) else Ok (Cross ps pd w)
    | _, _ => Ok Skip
    end.

(** The cross-partition edge an edge descriptor is taken for, if any. *)
Definition cross_of (c : edge_class) : option (string * string) :=
  match c with
  | Cross ps pd _ => Some (ps, pd)
  | _ => None
  end.

Definition step (node2part : list (hkey * string)) (t : tallies) (e : json)
    : result tallies :=
  c <- classify node2part e ;;
  match c with
  | Skip => Ok t
  | Internal p =>
      Ok {| internal := sset (internal t) p (get_nat (internal t) p + 1)%nat;
            outgoing := outgoing t;
            incoming := incoming t |}
  | Cross ps pd w =>
      Ok {| internal := internal t;
            outgoing := sset (outgoing t) ps (get_Q (outgoing t) ps + w)%Q;
            incoming := sset (incoming t) pd (get_Q (incoming t) pd + w)%Q |}
  end.

(** The cluster factor of one partition, [None] for an ignored one. *)
Definition cf_of (t : tallies) (p : string) : option Q :=
  let intra := get_nat (internal t) p in
  let ext_w := (get_Q (outgoing t) p + get_Q (incoming t) p)%Q in
  if Qeq_bool ext_w 0 && (intra =? 0)%nat then None
  else if Qeq_bool ext_w 0 then Some 1%Q
  else Some ((2 * Qnat intra) / (2 * Qnat intra + ext_w))%Q.

Fixpoint keep_some {A : Type} (l : list (option A)) : list A :=
  match l with
  | [] => []
  | Some x :: l' => x :: keep_some l'
  | None :: l' => keep_some l'
  end.

Definition Qsum (l : list Q) : Q := fold_left Qplus l 0%Q.

Definition mean (cf_vals : list Q) : option Q :=
  match cf_vals with
  | [] => None
  | _ => Some (Qsum cf_vals / Qnat (List.length cf_vals))%Q
  end.

Definition cmod_for_file (loaded : result json) : result (option Q) :=
  try_except (data <- loaded ;; subscript data LAYER_KEY)
    [JSONDecodeError; KeyError; TypeError] None
    (fun layer =>
       decomp <- dot_get layer "decomposition" (JObj []) ;;
       links <- dot_get layer "links" (JArr []) ;;
       items <- dot_items decomp ;;
       n2p <- node2part items ;;
       es <- iterate links ;;
       t <- for_each (step n2p) es no_tallies ;;
       keys <- dot_keys decomp ;;
       Ok (mean (keep_some (map (cf_of t) keys)))).

End WithFloat.

End Cmod.

(* ================================================================== *)
(** * service_coupling_factor.py *)
(* ================================================================== *)

Module Scf.
Import Py.

Definition LAYER_KEY : string := "1_structural_static".

(** The returned dict; [SCF] is the number [scf] before it is formatted to
    four decimals. *)
Record row : Type := {
  services : nat;
  external_edges : nat;
  SCF : R
}.

Inductive edge_class : Type :=
| Skip
| Cross (s_src s_dst : string).

(** [if s_src and s_dst and s_src != s_dst]. *)
Definition classify (svc_of : list (hkey * string)) (e : json)
    : result edge_class :=
  src <- dot_get e "source" JNull ;;
  dst <- dot_get e "target" JNull ;;
  s_src <- lookup svc_of src ;;
  s_dst <- lookup svc_of dst ;;
  if truthy s_src && truthy s_dst then
    match s_src, s_dst with
    | Some ss, Some sd => if ss =? sd then Ok Skip else Ok (Cross ss sd)
    | _, _ => Ok Skip
    end
  else Ok Skip.

(** The cross-partition edge an edge descriptor is taken for, if any. *)
Definition cross_of (c : edge_class) : option (string * string) :=
  match c with
  | Skip => None
  | Cross ss sd => Some (ss, sd)
  end.

Definition step (svc_of : list (hkey * string)) (ext_edges : nat) (e : json)
    : result nat :=
  c <- classify svc_of e ;;
  match c with
  | Skip => Ok ext_edges
  | Cross _ _ => Ok (ext_edges + 1)%nat
  end.

(** [0.0 if denom == 0 else math.sqrt(svc_count / denom)]. *)
Definition scf_value (svc_count ext_edges : nat) : R :=
  let denom := (ext_edges + svc_count)%nat in
  if (denom =? 0)%nat then 0%R
  else sqrt (INR svc_count / INR denom).

(** The two counters of the script: [(svc_count, ext_edges)]. *)
Definition counts (layer : json) : result (nat * nat) :=
  decomp <- dot_get layer "decomposition" (JObj []) ;;
  links <- dot_get layer "links" (JArr []) ;;
  keys <- dot_keys decomp ;;
  let services := sorted keys in
  items <- dot_items decomp ;;
  svc_of <- node2part items ;;
  es <- iterate links ;;
  ext_edges <- for_each (step svc_of) es 0%nat ;;
  Ok (List.length services, ext_edges).

Definition scf_for_file (loaded : result json) : result (option row) :=
  try_except (data <- loaded ;; subscript data LAYER_KEY)
    [JSONDecodeError; KeyError; TypeError] None
    (fun block =>
       c <- counts block ;;
       let (svc_count, ext_edges) := c in
       Ok (Some {| services := svc_count; external_edges := ext_edges;
                   SCF := scf_value svc_count ext_edges |})).

End Scf.

(* ================================================================== *)
(** * smad.py *)
(* ================================================================== *)

Module Smad.
Import Py.

Definition LAYER_KEY : string := "1_structural_static".

Record row : Type := {
  services : nat;
  MAD_raw : Q;
  medSize : Q;
  min : nat;
  max : nat;
  SMAD : Q
}.

(** The body of the [try] block: [Some sizes], or [None] where the block
    returns [None] itself. *)
Definition sizes_of (loaded : result json) : result (option (list nat)) :=
  data <- loaded ;;
  layer <- subscript data LAYER_KEY ;;
  decomp <- dot_get layer "decomposition" (JObj []) ;;
  match decomp with
  | JObj m =>
      sizes <- map_each len (dict_values m) ;;
      match sizes with
      | [] => Ok None
      | _ => Ok (Some sizes)
      end
  | _ => Ok None
  end.

Definition analyze_file (loaded : result json) : result (option row) :=
  try_except (sizes_of loaded)
    [JSONDecodeError; KeyError; TypeError] None
    (fun r =>
       match r with
       | None => Ok None
       | Some sizes =>
           let qs := map Qnat sizes in
           med_size <- median qs ;;
           mad_raw <- median_abs_dev qs med_size ;;
           let smad := mad_score 7 mad_raw in
           Ok (Some {| services := List.length sizes;
                       MAD_raw := mad_raw;
                       medSize := med_size;
                       min := fold_right Nat.min (hd 0%nat sizes) sizes;
                       max := fold_right Nat.max 0%nat sizes;
                       SMAD := smad |})
       end).

End Smad.

(* ================================================================== *)
(** * dccmd.py *)
(* ================================================================== *)

Module Dccmd.
Import Py.

Definition L1 : string := "1_structural_static".
Definition L3 : string := "3_business_use_cases".

Definition graph : Type := list (string * list string).

(** ** [longest_path]

    [dfs] is wrapped by [functools.lru_cache(maxsize=None)]: a call first
    looks its arguments up in the cache, and a call that returns stores its
    result there.  The arguments are a service and a [frozenset], so two
    calls hit the same entry when the services are equal and the sets have
    the same members.  The cache belongs to one call of [longest_path].

    The interpreter bounds the depth of recursion.  [room] is the number of
    calls of [dfs] that may still nest: a call made when none is left
    raises [RecursionError], which nothing in the script catches. *)

Definition set_eqb (s t : list string) : bool :=
  forallb (fun x => mem x t) s && forallb (fun x => mem x s) t.

Definition args_eqb (a b : string * list string) : bool :=
  (fst a =? fst b) && set_eqb (snd a) (snd b).

Definition cache : Type := list ((string * list string) * nat).

Definition cache_get (c : cache) (node : string) (seen : list string)
    : option nat :=
  dict_get args_eqb c (node, seen).

Definition cache_put (c : cache) (node : string) (seen : list string)
    (d : nat) : cache :=
  dict_set args_eqb c (node, seen) d.

(** One turn of the loop of [dfs] over the successors of a node:
    [if nxt not in seen: best = max(best, 1 + dfs(nxt, seen | {nxt}))],
    with [rec] the recursive call.  An exception ends the loop. *)
Definition visit
    (rec : string -> list string -> cache -> result nat * cache)
    (seen : list string) (acc : result nat * cache) (nxt : string)
    : result nat * cache :=
  match acc with
  | (Ok best, c) =>
      if mem nxt seen then acc
      else
        match rec nxt (set_add nxt seen) c with
        | (Ok d, c') => (Ok (Nat.max best (1 + d)), c')
        | other => other
        end
  | _ => acc
  end.

(** The cached [dfs], with the cache before and after the call. *)
Fixpoint dfs (room : nat) (adj : graph) (node : string) (seen : list string)
    (c : cache) : result nat * cache :=
  match room with
  | O => (Raise RecursionError, c)
  | S room' =>
      match cache_get c node seen with
      | Some d => (Ok d, c)
      | None =>
          match sget adj node with
          | None => (Raise KeyError, c)
          | Some succs =>
              match fold_left (visit (dfs room' adj) seen) succs
                      (Ok 0%nat, c) with
              | (Ok best, c') => (Ok best, cache_put c' node seen best)
              | other => other
              end
          end
      end
  end.

(** [longest_path(start, adj)], with a fresh cache, where the interpreter
    lets [limit] calls of [dfs] nest. *)
Definition longest_path (limit : nat) (start : string) (adj : graph)
    : result nat :=
  fst (dfs limit adj start [start] []).

(** The function under the decorator, calling itself directly. *)
Definition visit_uncached (rec : string -> list string -> result nat)
    (seen : list string) (acc : result nat) (nxt : string) : result nat :=
  match acc with
  | Ok best =>
      if mem nxt seen then acc
      else
        match rec nxt (set_add nxt seen) with
        | Ok d => Ok (Nat.max best (1 + d))
        | other => other
        end
  | _ => acc
  end.

Fixpoint dfs_uncached (room : nat) (adj : graph) (node : string)
    (seen : list string) : result nat :=
  match room with
  | O => Raise RecursionError
  | S room' =>
      match sget adj node with
      | None => Raise KeyError
      | Some succs =>
          fold_left (visit_uncached (dfs_uncached room' adj) seen) succs
            (Ok 0%nat)
      end
  end.

(** Every entry of the cache is what the function returns on the arguments
    of the entry, at the depth these arguments are met: a call with [seen]
    is nested [length seen] deep, and [total] is one more than the number
    of calls that may nest. *)
Definition cache_fits (total : nat) (adj : graph) (c : cache) : Prop :=
  forall node seen d,
    NoDup seen -> cache_get c node seen = Some d ->
    dfs_uncached (total - List.length seen) adj node seen = Ok d.

Inductive edge_class : Type :=
| Skip
| Cross (s_src s_dst : string).

(** [if s_src and s_dst and s_src != s_dst]. *)
Definition classify (cls2svc : list (hkey * string)) (e : json)
    : result edge_class :=
  src <- dot_get e "source" JNull ;;
  s_src <- lookup cls2svc src ;;
  dst <- dot_get e "target" JNull ;;
  s_dst <- lookup cls2svc dst ;;
  if truthy s_src && truthy s_dst then
    match s_src, s_dst with
    | Some ss, Some sd => if ss =? sd then Ok Skip else Ok (Cross ss sd)
    | _, _ => Ok Skip
    end
  else Ok Skip.

Definition add_adj (adj : graph) (ss sd : string) : result graph :=
  match sget adj ss with
  | Some s => Ok (sset adj ss (set_add sd s))
  | None => Raise KeyError
  end.

Definition step (cls2svc : list (hkey * string)) (adj : graph) (e : json)
    : result graph :=
  c <- classify cls2svc e ;;
  match c with
  | Skip => Ok adj
  | Cross ss sd => add_adj adj ss sd
  end.

(** The body of the loop over the business links:
    [story2svcs[story].add(svc)] under the "USE CASE" filter. *)
Definition story_step (cls2svc : list (hkey * string))
    (story2svcs : list (string * list string)) (e : json)
    : result (list (string * list string)) :=
  story <- dot_get e "source" (JStr EmptyString) ;;
  match story with
  | JStr st =>
      if contains "USE CASE" (upper st) then
        tgt <- dot_get e "target" JNull ;;
        svc <- lookup cls2svc tgt ;;
        match svc with
        | Some s =>
            if truthy svc then
              let old := match sget story2svcs st with
                         | Some x => x
                         | None => []
                         end in
              Ok (sset story2svcs st (set_add s old))
            else Ok story2svcs
        | None => Ok story2svcs
        end
      else Ok story2svcs
  | _ => Ok story2svcs
  end.

Section WithLimit.

(** The number of calls of [dfs] the interpreter lets nest. *)
Variable limit : nat.

(** [best = 0; for s in svcs: best = max(best, longest_path(s, adj))]. *)
Definition story_depth (adj : graph) (svcs : list string) : result nat :=
  for_each (fun best s => d <- longest_path limit s adj ;;
                          Ok (Nat.max best d))
    svcs 0%nat.

Definition depths_for_file (loaded : result json)
    : result (option (list nat) * option nat) :=
  try_except
    (data <- loaded ;;
     struct <- subscript data L1 ;;
     bus <- subscript data L3 ;;
     Ok (struct, bus))
    [JSONDecodeError; KeyError] (None, None)
    (fun sb =>
       let (struct, bus) := sb in
       decomp <- subscript struct "decomposition" ;;
       items <- dot_items decomp ;;
       cls2svc <- node2part items ;;
       decomp' <- subscript struct "decomposition" ;;
       keys <- dot_keys decomp' ;;
       let services := sorted keys in
       let adj := map (fun s => (s, @nil string)) services in
       links <- dot_get struct "links" (JArr []) ;;
       es <- iterate links ;;
       adj <- for_each (step cls2svc) es adj ;;
       blinks <- dot_get bus "links" (JArr []) ;;
       bes <- iterate blinks ;;
       story2svcs <- for_each (story_step cls2svc) bes [] ;;
       match story2svcs with
       | [] => Ok (None, Some (List.length services))
       | _ =>
           depths <- map_each (story_depth adj) (dict_values story2svcs) ;;
           Ok (Some depths, Some (List.length services))
       end).

(** The body of the loop of [main] for one file: the value written to the
    DCCMD column, [None] for "NA". *)
Definition main_row (loaded : result json) : result (option Q) :=
  r <- depths_for_file loaded ;;
  match fst r with
  | None | Some [] => Ok None
  | Some depths =>
      let ds := map Qnat depths in
      med <- median ds ;;
      mad_raw <- median_abs_dev ds med ;;
      Ok (Some (mad_score 2 mad_raw))
  end.

End WithLimit.

End Dccmd.

(* ================================================================== *)
(** * Simple paths *)
(* ================================================================== *)

Module Graph.
Import Py.

Section Paths.

Variable R : string -> string -> Prop.

(** [chain u p]: the nodes of [p] follow [u] along edges, one hop each. *)
Inductive chain : string -> list string -> Prop :=
| chain_nil (u : string) : chain u []
| chain_cons (u v : string) (p : list string) :
    R u v -> chain v p -> chain u (v :: p).

(** A simple path from [u]: no node is visited twice. *)
Definition simple_path (u : string) (p : list string) : Prop :=
  chain u p /\ NoDup (u :: p).

(** [d] is the length, in hops, of a longest simple path from [u]. *)
Definition longest_from (u : string) (d : nat) : Prop :=
  (exists p, simple_path u p /\ List.length p = d) /\
  (forall p, simple_path u p -> (List.length p <= d)%nat).

(** The state of the search: a path from the current node that stays
    outside the nodes already seen. *)
Definition fresh_path (seen : list string) (u : string) (p : list string)
    : Prop :=
  chain u p /\ NoDup p /\ (forall x, In x p -> ~ In x seen).

Definition longest_fresh (seen : list string) (u : string) (d : nat)
    : Prop :=
  (exists p, fresh_path seen u p /\ List.length p = d) /\
  (forall p, fresh_path seen u p -> (List.length p <= d)%nat).

End Paths.

(** The edges of an adjacency dict. *)
Definition edge (adj : list (string * list string)) (u v : string) : Prop :=
  exists succs, sget adj u = Some succs /\ In v succs.

(** Every target is itself a key. *)
Definition closed (adj : list (string * list string)) : Prop :=
  forall u v, edge adj u v -> In v (dict_keys adj).

(** The keys not yet seen: what bounds the depth of the search. *)
Definition remaining (adj : list (string * list string))
    (seen : list string) : nat :=
  List.length (filter (fun k => negb (mem k seen)) (dict_keys adj)).

(** [closed], as a test. *)
Definition closedb (adj : list (string * list string)) : bool :=
  forallb (fun kv => forallb (fun v => mem v (dict_keys adj)) (snd kv)) adj.

End Graph.

(* ================================================================== *)
(** * Well-formed documents *)
(* ================================================================== *)

Module Doc.
Import Py.

(** The content of a document of the expected shape: partitions with the
    identifiers of their nodes, structural links, business links. *)
Record link : Type := {
  source : string;
  target : string;
  weight : option Q
}.

Record use_case : Type := {
  story : string;
  uc_target : string
}.

Record document : Type := {
  decomposition : list (string * list string);
  links : list link;
  use_cases : list use_case
}.

(** ** When a JSON value is such a document

    Fields beyond the ones named are allowed anywhere, in any order. *)

Inductive repr_node : json -> string -> Prop :=
| repr_node_intro (m : list (string * json)) (id : string) :
    sget m "id" = Some (JStr id) ->
    repr_node (JObj m) id.

Inductive repr_part : string * json -> string * list string -> Prop :=
| repr_part_intro (p : string) (ns : list json) (ids : list string) :
    Forall2 repr_node ns ids ->
    repr_part (p, JArr ns) (p, ids).

Inductive repr_weight : option json -> option Q -> Prop :=
| repr_weight_absent : repr_weight None None
| repr_weight_num (w : Q) : repr_weight (Some (JNum w)) (Some w).

Inductive repr_link : json -> link -> Prop :=
| repr_link_intro (m : list (string * json)) (l : link) :
    sget m "source" = Some (JStr (source l)) ->
    sget m "target" = Some (JStr (target l)) ->
    repr_weight (sget m "weight") (weight l) ->
    repr_link (JObj m) l.

Inductive repr_use_case : json -> use_case -> Prop :=
| repr_use_case_intro (m : list (string * json)) (u : use_case) :
    sget m "source" = Some (JStr (story u)) ->
    sget m "target" = Some (JStr (uc_target u)) ->
    repr_use_case (JObj m) u.

Inductive represents : json -> document -> Prop :=
| represents_intro (top struct bus : list (string * json))
    (dec : list (string * json)) (ls bls : list json) (d : document) :
    sget top "1_structural_static" = Some (JObj struct) ->
    sget top "3_business_use_cases" = Some (JObj bus) ->
    sget struct "decomposition" = Some (JObj dec) ->
    Forall2 repr_part dec (decomposition d) ->
    sget struct "links" = Some (JArr ls) ->
    Forall2 repr_link ls (links d) ->
    sget bus "links" = Some (JArr bls) ->
    Forall2 repr_use_case bls (use_cases d) ->
    represents (JObj top) d.

(** ** Notions of the specification *)

Definition partitions (d : document) : list string :=
  map fst (decomposition d).

Definition node_ids (d : document) : list string :=
  List.concat (map snd (decomposition d)).

(** The partition a node is declared under. *)
Definition partition_of (d : document) (x : string) : option string :=
  match find (fun pn => mem x (snd pn)) (decomposition d) with
  | Some (p, _) => Some p
  | None => None
  end.

Definition weight_of (l : link) : Q :=
  match weight l with
  | Some w => w
  | None => 1%Q
  end.

Fixpoint nodupb (l : list string) : bool :=
  match l with
  | [] => true
  | x :: l' => negb (mem x l') && nodupb l'
  end.

(** Well-formed: partition identifiers are pairwise distinct (they are the
    keys of one JSON object), every node is declared once, weights are
    non-negative. *)
Definition wf (d : document) : bool :=
  nodupb (partitions d) && nodupb (node_ids d) &&
  forallb (fun l => Qle_bool 0 (weight_of l)) (links d).

(** The node-to-partition map the scripts build, on identifiers. *)
Definition add_nodes (p : string) (ids : list string)
    (acc : list (hkey * string)) : list (hkey * string) :=
  fold_left (fun acc id => dict_set hkey_eqb acc (KStr id) p) ids acc.

Definition node_map (dec : list (string * list string))
    (acc : list (hkey * string)) : list (hkey * string) :=
  fold_left (fun acc pn => add_nodes (fst pn) (snd pn) acc) dec acc.

(** Where an edge lies. *)
Inductive placement : Type :=
| Discarded
| Inside (p : string)
| Between (p q : string).

Definition place (d : document) (l : link) : placement :=
  match partition_of d (source l), partition_of d (target l) with
  | Some p, Some q => if p =? q then Inside p else Between p q
  | _, _ => Discarded
  end.

Definition between (pl : placement) : option (string * string) :=
  match pl with
  | Between p q => Some (p, q)
  | _ => None
  end.

(** [float] can convert the weight of the edge. *)
Definition convertible (l : link) : bool := negb (overflows (weight_of l)).

(** [float] can convert every weight the modularity script reads: it reads
    the weight of an edge once both ends are known nodes. *)
Definition weight_read_ok (d : document) (l : link) : bool :=
  match place d l with
  | Discarded => true
  | _ => convertible l
  end.

Definition converts (d : document) : bool :=
  forallb (weight_read_ok d) (links d).

(** Some cross-partition edge among [ls] goes from [p] to [q]. *)
Definition cross_in (d : document) (ls : list link) (p q : string) : bool :=
  existsb (fun l => match place d l with
                    | Between p' q' => (p' =? p) && (q' =? q)
                    | _ => false
                    end) ls.

(** Some cross-partition edge of the document goes from [p] to [q]. *)
Definition cross (d : document) (p q : string) : bool :=
  cross_in d (links d) p q.

(** The same in words: an edge whose ends are declared under [p] and [q],
    two different partitions. *)
Definition crossing (d : document) (p q : string) : Prop :=
  exists l, In l (links d) /\
            partition_of d (source l) = Some p /\
            partition_of d (target l) = Some q /\ p <> q.

(** A pair of partitions is cyclic when cross-partition edges go both
    ways. *)
Definition cyclic_pair (d : document) (pq : string * string) : bool :=
  cross d (fst pq) (snd pq) && cross d (snd pq) (fst pq).

(** The number of cyclic pairs, each unordered pair of partitions taken
    once. *)
Definition cyclic_count (d : document) : nat :=
  List.length (filter (cyclic_pair d) (combinations2 (partitions d))).

(** ** Cluster factors *)

Definition is_inside (d : document) (p : string) (l : link) : bool :=
  match place d l with
  | Inside p' => p' =? p
  | _ => false
  end.

Definition leaves (d : document) (p : string) (l : link) : bool :=
  match place d l with
  | Between p' _ => p' =? p
  | _ => false
  end.

Definition enters (d : document) (p : string) (l : link) : bool :=
  match place d l with
  | Between _ q' => q' =? p
  | _ => false
  end.

Definition weight_sum (ls : list link) : Q :=
  fold_left Qplus (map weight_of ls) 0%Q.

(** [internal(P)] is a count, [outgoing(P)] and [incoming(P)] are sums of
    weights. *)
Definition internal_count (d : document) (p : string) : nat :=
  List.length (filter (is_inside d p) (links d)).

Definition outgoing_weight (d : document) (p : string) : Q :=
  weight_sum (filter (leaves d p) (links d)).

Definition incoming_weight (d : document) (p : string) : Q :=
  weight_sum (filter (enters d p) (links d)).

Definition external_weight (d : document) (p : string) : Q :=
  (outgoing_weight d p + incoming_weight d p)%Q.

Definition positive (x : Q) : bool := negb (Qle_bool x 0).

(** [CF(P)]: the quotient when the external weight is positive, 1
    otherwise. *)
Definition cluster_factor (d : document) (p : string) : Q :=
  if positive (external_weight d p)
  then (2 * Qnat (internal_count d p) /
        (2 * Qnat (internal_count d p) + external_weight d p))%Q
  else 1%Q.

Definition average (l : list Q) : option Q :=
  match l with
  | [] => None
  | _ => Some (fold_left Qplus l 0 / Qnat (List.length l))%Q
  end.

(** The partitions the code averages over: an internal edge or a positive
    external weight. *)
Definition weighs_in (d : document) (p : string) : bool :=
  (0 <? internal_count d p)%nat || positive (external_weight d p).

Definition cmod (d : document) : option Q :=
  average (map (cluster_factor d) (filter (weighs_in d) (partitions d))).

(** The partitions the claim averages over: at least one internal or
    external edge. *)
Definition has_edge (d : document) (p : string) : bool :=
  existsb (fun l => is_inside d p l || leaves d p l || enters d p l)
    (links d).

Definition cmod_claimed (d : document) : option Q :=
  average (map (cluster_factor d) (filter (has_edge d) (partitions d))).

(** ** Coupling *)

Definition is_between (d : document) (l : link) : bool :=
  match place d l with
  | Between _ _ => true
  | _ => false
  end.

(** [E]: the cross-partition edges, each descriptor counted once. *)
Definition cross_edges (d : document) : nat :=
  List.length (filter (is_between d) (links d)).

(** Every partition identifier is a non-empty string. *)
Definition named (d : document) : bool :=
  forallb (fun p => negb (p =? EmptyString)) (partitions d).

(** The cross-partition edges neither end of which lies in a partition
    whose identifier is the empty string. *)
Definition is_between_named (d : document) (l : link) : bool :=
  match place d l with
  | Between p q => negb (p =? EmptyString) && negb (q =? EmptyString)
  | _ => false
  end.

(** ** Use-case stories *)

(** The story label carries the marker, whatever the case of its
    letters. *)
Definition marked (u : use_case) : bool :=
  contains "USE CASE" (upper (story u)).

(** The partition a use-case edge touches, if any. *)
Definition lands (d : document) (u : use_case) : option string :=
  if marked u then partition_of d (uc_target u) else None.

Definition touches_in (d : document) (us : list use_case) (s p : string)
    : bool :=
  existsb (fun u => match lands d u with
                    | Some p' => (story u =? s) && (p' =? p)
                    | None => false
                    end) us.

(** Story [s] touches partition [p]. *)
Definition touches (d : document) (s p : string) : bool :=
  touches_in d (use_cases d) s p.

(** The members of [l] outside [seen], each once, in order of first
    appearance. *)
Fixpoint distinct (l seen : list string) : list string :=
  match l with
  | [] => []
  | x :: l' =>
      if mem x seen then distinct l' seen
      else x :: distinct l' (seen ++ [x])
  end.

Definition landing (d : document) (us : list use_case) : list string :=
  map story (filter (fun u => match lands d u with
                              | Some _ => true
                              | None => false
                              end) us).

(** The stories that touch a partition. *)
Definition stories (d : document) : list string :=
  distinct (landing d (use_cases d)) [].

(** An edge of the service-level graph. *)
Definition hop (d : document) (p q : string) : Prop :=
  cross d p q = true.

(** [n] is the depth of story [s]: the greatest, over the partitions the
    story touches, of the lengths of the longest simple paths from them. *)
Definition story_depth (d : document) (s : string) (n : nat) : Prop :=
  (exists p, touches d s p = true /\ Graph.longest_from (hop d) p n) /\
  (forall p m, touches d s p = true -> Graph.longest_from (hop d) p m ->
               (m <= n)%nat).

(** Every search from a partition story [s] touches has the room it needs
    when [limit] calls of [dfs] may nest. *)
Definition within (limit : nat) (d : document) (s : string) : Prop :=
  forall p m,
    touches d s p = true -> Graph.longest_from (hop d) p m -> (m < limit)%nat.

(** ** Sizes *)

Definition sizes (d : document) : list nat :=
  map (fun pn => List.length (snd pn)) (decomposition d).

End Doc.

(* ================================================================== *)
(** * The documents of the specification's scenarios *)
(* ================================================================== *)

Module Scenario.
Import Py Doc.

Definition jnode (id : string) : json := JObj [("id", JStr id)].

Definition jlink (s t : string) : json :=
  JObj [("source", JStr s); ("target", JStr t)].

Definition jlinkw (s t : string) (w : Q) : json :=
  JObj [("source", JStr s); ("target", JStr t); ("weight", JNum w)].

Definition jpart (pn : string * list string) : string * json :=
  (fst pn, JArr (map jnode (snd pn))).

Definition jdoc (dec : list (string * json)) (ls bls : list json) : json :=
  JObj [("1_structural_static",
         JObj [("decomposition", JObj dec); ("links", JArr ls)]);
        ("3_business_use_cases", JObj [("links", JArr bls)])].

Definition lnk (s t : string) : link :=
  {| source := s; target := t; weight := None |}.

(** Scenario 1: partitions A, B, C; cross edges A->B and B->A only. *)
Definition dec1 : list (string * list string) :=
  [("A", ["a"]); ("B", ["b"]); ("C", ["c"])].

Definition json1 : json :=
  jdoc (map jpart dec1) [jlink "a" "b"; jlink "b" "a"] [].

Definition doc1 : document :=
  {| decomposition := dec1;
     links := [lnk "a" "b"; lnk "b" "a"];
     use_cases := [] |}.

(** Scenario 2: partition P with two internal edges, one edge out and one
    edge in; Q has no internal edge. *)
Definition dec2 : list (string * list string) :=
  [("P", ["p1"; "p2"; "p3"]); ("Q", ["q"])].

Definition json2 : json :=
  jdoc (map jpart dec2)
    [jlink "p1" "p2"; jlink "p2" "p3"; jlink "p1" "q"; jlinkw "q" "p3" 1] [].

Definition doc2 : document :=
  {| decomposition := dec2;
     links := [lnk "p1" "p2"; lnk "p2" "p3"; lnk "p1" "q";
               {| source := "q"; target := "p3"; weight := Some 1%Q |}];
     use_cases := [] |}.

(** Scenario 3: four partitions, two cross-partition edges. *)
Definition dec3 : list (string * list string) :=
  [("A", ["a"]); ("B", ["b"]); ("C", ["c"]); ("D", ["d"])].

Definition json3 : json :=
  jdoc (map jpart dec3) [jlink "a" "b"; jlink "c" "d"] [].

Definition doc3 : document :=
  {| decomposition := dec3;
     links := [lnk "a" "b"; lnk "c" "d"];
     use_cases := [] |}.

(** Scenario 4: partition sizes 2, 4, 4, 10. *)
Definition dec4 : list (string * list string) :=
  [("A", ["a1"; "a2"]);
   ("B", ["b1"; "b2"; "b3"; "b4"]);
   ("C", ["c1"; "c2"; "c3"; "c4"]);
   ("D", ["d1"; "d2"; "d3"; "d4"; "d5"; "d6"; "d7"; "d8"; "d9"; "d10"])].

Definition json4 : json := jdoc (map jpart dec4) [] [].


(** Scenario 5: the chain A->B->C; one story touches only A, another only
    C. *)
Definition json5 : json :=
  jdoc (map jpart dec1) [jlink "a" "b"; jlink "b" "c"]
    [jlink "USE CASE 1" "a"; jlink "Use case 2" "c"].

Definition doc5 : document :=
  {| decomposition := dec1;
     links := [lnk "a" "b"; lnk "b" "c"];
     use_cases := [{| story := "USE CASE 1"; uc_target := "a" |};
                   {| story := "Use case 2"; uc_target := "c" |}] |}.

Definition adj5 : list (string * list string) :=
  [("A", ["B"]); ("B", ["C"]); ("C", [])].

(** Two partitions joined by one edge of weight 0. *)
Definition dec_zero : list (string * list string) :=
  [("A", ["a"]); ("B", ["b"])].

Definition json_zero : json :=
  jdoc (map jpart dec_zero) [jlinkw "a" "b" 0] [].

Definition doc_zero : document :=
  {| decomposition := dec_zero;
     links := [{| source := "a"; target := "b"; weight := Some 0%Q |}];
     use_cases := [] |}.

(** A partition whose identifier is the empty string, with edges to and
    from partition B and a use-case story on its node. *)
Definition dec_anon : list (string * list string) :=
  [(EmptyString, ["a"]); ("B", ["b"])].

Definition json_anon : json :=
  jdoc (map jpart dec_anon) [jlink "a" "b"; jlink "b" "a"]
    [jlink "USE CASE 1" "a"].

Definition doc_anon : document :=
  {| decomposition := dec_anon;
     links := [lnk "a" "b"; lnk "b" "a"];
     use_cases := [{| story := "USE CASE 1"; uc_target := "a" |}] |}.


(** An edge between known nodes whose weight is [null]. *)
Definition json_null_weight : json :=
  jdoc (map jpart dec_zero)
    [JObj [("source", JStr "a"); ("target", JStr "b"); ("weight", JNull)]] [].

(** A reading of strings for the documents above, none of which gives a
    weight as a string. *)
Definition no_str : string -> option Q := fun _ => None.

End Scenario.

(* ================================================================== *)
(** * Documents derived from a document *)
(* ================================================================== *)

Module Edits.
Import Py Doc.

(** The same edge, the other way round. *)
Definition reverse_link (l : link) : link :=
  {| source := target l; target := source l; weight := weight l |}.

(** The document with every structural edge turned round. *)
Definition reversed (d : document) : document :=
  {| decomposition := decomposition d;
     links := map reverse_link (links d);
     use_cases := use_cases d |}.

(** Two lists of edges join the same ordered pairs of nodes, whatever the
    order of the edges, their number and their weights. *)
Definition same_ends (ls ls' : list link) : Prop :=
  forall s t,
    (exists l, In l ls /\ source l = s /\ target l = t) <->
    (exists l, In l ls' /\ source l = s /\ target l = t).

(** The partition a node ends up in when it is declared more than once:
    the last one, in the order of the document, that lists it. *)
Definition last_partition (dec : list (string * list string)) (x : string)
    : option string :=
  match find (fun pn => mem x (snd pn)) (rev dec) with
  | Some (p, _) => Some p
  | None => None
  end.

(** Two lists of edges that differ at most in the weights of edges lying
    inside a partition of [d]. *)
Definition same_but_inside (d : document) (ls ls' : list link) : Prop :=
  Forall2 (fun l l' =>
             source l = source l' /\ target l = target l' /\
             (weight l = weight l' \/ exists p, place d l = Inside p))
    ls ls'.

End Edits.

(* ================================================================== *)
(** * What the loops of dccmd.py keep *)
(* ================================================================== *)

Module Invariants.
Import Py Graph.

(** Every value of the node map is one of [K]. *)
Definition values_in (K : list string) (m : list (hkey * string)) : Prop :=
  Forall (fun kv => In (snd kv) K) m.

(** The keys of the adjacency are [K], and every successor is one of
    them. *)
Definition targets_in (K : list string) (adj : Dccmd.graph) : Prop :=
  (forall x, In x (dict_keys adj) <-> In x K) /\
  forall u v, edge adj u v -> In v K.

(** Every story starts from at least one service, all of them in [K]. *)
Definition starts_in (K : list string) (s2s : list (string * list string))
    : Prop :=
  Forall (fun kv => snd kv <> [] /\ forall s, In s (snd kv) -> In s K) s2s.

End Invariants.

(* ================================================================== *)
(** * aggregate_values.py *)
(* ================================================================== *)

Module Agg.
Import Py.

Definition METRIC_HEADERS : list (string * list string) :=
  [("CiD", ["CiD"]);
   ("CMod", ["CMod"; "overall_modularity"; "overall_mod"]);
   ("SCF", ["SCF"]);
   ("SMAD", ["SMAD"]);
   ("DCCMD", ["DCCMD"])].

(** ** The two regular expressions *)

(** The class [[\d.]]; among 8-bit characters [\d] is [0] to [9]. *)
Definition digit_or_dot (c : ascii) : bool :=
  let n := nat_of_ascii c in
  ((48 <=? n)%nat && (n <=? 57)%nat) || (n =? 46)%nat.

Fixpoint all_digit_or_dot (s : string) : bool :=
  match s with
  | EmptyString => true
  | String c s' => digit_or_dot c && all_digit_or_dot s'
  end.

(** [re.fullmatch(pre + "[\d.]+", h)] for a prefix [pre] of plain
    characters. *)
Fixpoint fullmatch_variant (pre h : string) : bool :=
  match pre, h with
  | EmptyString, EmptyString => false
  | EmptyString, String _ _ => all_digit_or_dot h
  | String _ _, EmptyString => false
  | String a pre', String b h' => Ascii.eqb a b && fullmatch_variant pre' h'
  end.

(** ** [pick_metric] *)

(** The first loop: the first metric of the table one of whose candidate
    names is a header, with the first such candidate. *)
Fixpoint first_known (table : list (string * list string))
    (headers : list string) : option (string * string) :=
  match table with
  | [] => None
  | (metric, candidates) :: table' =>
      match find (fun c => mem c headers) candidates with
      | Some c => Some (metric, c)
      | None => first_known table' headers
      end
  end.

(** [None] stands for the pair [(None, None)]. *)
Definition pick_metric (headers : list string) : option (string * string) :=
  match first_known METRIC_HEADERS headers with
  | Some r => Some r
  | None =>
      match find (fullmatch_variant "SMAD_c") headers with
      | Some h =>
          Some ("SMAD", if mem "SMAD_c7" headers then "SMAD_c7" else h)
      | None =>
          match find (fullmatch_variant "DCCMD_c") headers with
          | Some h =>
              Some ("DCCMD",
                    if mem "DCCMD_c2.0" headers then "DCCMD_c2.0" else h)
          | None => None
          end
      end
  end.

(** ** Strings *)

(** [s.split(sep)] for a one-character separator. *)
Fixpoint split_on (sep : ascii) (s : string) : list string :=
  match s with
  | EmptyString => [EmptyString]
  | String c s' =>
      if Ascii.eqb c sep then EmptyString :: split_on sep s'
      else
        match split_on sep s' with
        | [] => [String c EmptyString]
        | w :: ws => String c w :: ws
        end
  end.

(** [s.split(sep, 1)]: split at the first separator only. *)
Fixpoint split_once (sep : ascii) (s : string) : list string :=
  match s with
  | EmptyString => [EmptyString]
  | String c s' =>
      if Ascii.eqb c sep then [EmptyString; s']
      else
        match split_once sep s' with
        | [] => [String c EmptyString]
        | w :: ws => String c w :: ws
        end
  end.

(** [s.endswith(suf)] and [s[:-n]] (for [n] positive). *)
Definition ends_with (suf s : string) : bool :=
  let n := String.length s in
  let m := String.length suf in
  (m <=? n)%nat && (substring (n - m) m s =? suf).

Definition drop_last (n : nat) (s : string) : string :=
  substring 0 (String.length s - n) s.

(** The characters [str.strip] removes, among the 8-bit ones: tab to
    carriage return, the four separators 28 to 31, the space, and the
    characters 133 and 160. *)
Definition is_space (c : ascii) : bool :=
  let n := nat_of_ascii c in
  ((9 <=? n)%nat && (n <=? 13)%nat) || ((28 <=? n)%nat && (n <=? 32)%nat) ||
  (n =? 133)%nat || (n =? 160)%nat.

Fixpoint lstrip (s : string) : string :=
  match s with
  | EmptyString => EmptyString
  | String c s' => if is_space c then lstrip s' else s
  end.

Fixpoint rstrip (s : string) : string :=
  match s with
  | EmptyString => EmptyString
  | String c s' =>
      match rstrip s' with
      | EmptyString => if is_space c then EmptyString else String c EmptyString
      | r => String c r
      end
  end.

Definition strip (s : string) : string := rstrip (lstrip s).

(** [Path(fname).name] on a POSIX system: the last component of the path,
    empty components and [.] left out; the empty string when there is
    none. *)
Definition path_name (fname : string) : string :=
  last (filter (fun c => negb (c =? EmptyString) && negb (c =? "."))
          (split_on "/" fname))
       EmptyString.

Section WithLibrary.

(** [Path(base).stem]: the name without its last suffix, as the
    interpreter's [pathlib] computes it (versions differ on names that end
    with a dot). *)
Variable path_stem : string -> string.

(** [f"{float(s):.2f}"]: the text of the number [s] denotes with two
    decimals, [None] when [float(s)] raises [ValueError]. *)
Variable float_2f : string -> option string.

(** ** [parse_name]; [None] stands for the pair [(None, None)]. *)
Definition parse_name (fname : string) : result (option (string * string)) :=
  let base := path_name fname in
  let stem := if ends_with ".json" base then drop_last 5 base
              else path_stem base in
  if negb (contains "_" stem) then Ok None
  else
    match split_once "_" stem with
    | [proj; cand] => Ok (Some (proj, cand))
    | _ => Raise ValueError
    end.

(** ** [fmt2] *)
Definition fmt2 (val : option string) : string :=
  match val with
  | None => "NA"
  | Some v =>
      let s := strip v in
      if (s =? EmptyString) || (upper s =? "NA") then "NA"
      else
        match float_2f s with
        | Some t => t
        | None => s
        end
  end.

(** ** [main] *)

(** One CSV file of the folder, as [csv.DictReader] presents it: whether it
    is the output file of an earlier run, the field names ([None] for an
    empty file) and the rows, each a dict from field name to text or
    [None]. *)
Record csv_file : Type := {
  is_output : bool;
  fieldnames : option (list string);
  rows : list (list (string * option string))
}.

Definition key : Type := (string * string)%type.

Definition key_eqb (a b : key) : bool :=
  (fst a =? fst b) && (snd a =? snd b).

(** The table [agg]: for each (project, candidate), its five metrics. *)
Definition table : Type := list (key * list (string * string)).

(** The value the [defaultdict] makes for a new key. *)
Definition NEW_METRICS : list (string * string) :=
  [("CiD", "NA"); ("CMod", "NA"); ("SCF", "NA"); ("SMAD", "NA");
   ("DCCMD", "NA")].

(** [agg[k][metric_name] = v], the entry of [k] made first if need be. *)
Definition record (agg : table) (k : key) (metric_name v : string) : table :=
  let m := match dict_get key_eqb agg k with
           | Some m => m
           | None => NEW_METRICS
           end in
  dict_set key_eqb agg k (sset m metric_name v).

(** The [file] cell of a row, stripped; a missing cell and [None] count as
    the empty text. *)
Definition file_cell (row : list (string * option string)) : string :=
  strip (match sget row "file" with
         | Some (Some s) => s
         | _ => EmptyString
         end).

(** [row.get(metric_col)]. *)
Definition metric_cell (row : list (string * option string))
    (metric_col : string) : option string :=
  match sget row metric_col with
  | Some v => v
  | None => None
  end.

(** The body of the loop over the rows of one file. *)
Definition row_step (metric_name metric_col : string) (agg : table)
    (row : list (string * option string)) : result table :=
  let fname := file_cell row in
  if fname =? EmptyString then Ok agg
  else
    pc <- parse_name fname ;;
    match pc with
    | None => Ok agg
    | Some (proj, cand) =>
        if (proj =? EmptyString) || (cand =? EmptyString) then Ok agg
        else
          Ok (record agg (proj, cand) metric_name
                (fmt2 (metric_cell row metric_col)))
    end.

(** The body of the loop over the files. *)
Definition file_step (agg : table) (f : csv_file) : result table :=
  if is_output f then Ok agg
  else
    let headers := match fieldnames f with
                   | Some h => h
                   | None => []
                   end in
    if match headers with [] => true | _ => false end ||
       negb (mem "file" headers)
    then Ok agg
    else
      match pick_metric headers with
      | None => Ok agg
      | Some (metric_name, metric_col) =>
          for_each (row_step metric_name metric_col) (rows f) agg
      end.

(** The order of [sorted(agg.items())]: by project, then by candidate. *)
Definition key_leb (a b : key) : bool :=
  match String.compare (fst a) (fst b) with
  | Lt => true
  | Eq => String.leb (snd a) (snd b)
  | Gt => false
  end.

Fixpoint insert_item (x : key * list (string * string))
    (l : list (key * list (string * string)))
    : list (key * list (string * string)) :=
  match l with
  | [] => [x]
  | y :: l' =>
      if key_leb (fst x) (fst y) then x :: l else y :: insert_item x l'
  end.

Definition sorted_items (agg : table) : table :=
  fold_right insert_item [] agg.

Definition HEADER : list string :=
  ["Project"; "Candidate"; "CiD"; "CMod"; "SCF"; "SMAD"; "DCCMD"].

(** [m[k]]. *)
Definition item (m : list (string * string)) (k : string) : result string :=
  match sget m k with
  | Some v => Ok v
  | None => Raise KeyError
  end.

(** One written row. *)
Definition out_row (kv : key * list (string * string))
    : result (list string) :=
  let (k, m) := kv in
  cid <- item m "CiD" ;;
  cmod <- item m "CMod" ;;
  scf <- item m "SCF" ;;
  smad <- item m "SMAD" ;;
  dccmd <- item m "DCCMD" ;;
  Ok [fst k; snd k; cid; cmod; scf; smad; dccmd].

(** [main], given the CSV files of the folder in the order of their sorted
    paths: the rows written, header first; [None] when the script exits
    because there is no CSV file. *)
Definition main (csv_files : list csv_file)
    : result (option (list (list string))) :=
  match csv_files with
  | [] => Ok None
  | _ =>
      agg <- for_each file_step csv_files [] ;;
      out <- map_each out_row (sorted_items agg) ;;
      Ok (Some (HEADER :: out))
  end.

End WithLibrary.

End Agg.

(* ================================================================== *)
(** * The [main] functions of the metric scripts: the rows written *)
(* ================================================================== *)

Module Mains.
Import Py.

(** What a cell of a row holds before the [csv] module turns it into text:
    a [str], an [int], a number written as it is, or the text of a number
    formatted with a fixed count of decimals ([Fixed] for a rational,
    [FixedR] for a value held as a real). *)
Inductive cell : Type :=
| Text (s : string)
| Int (n : nat)
| Num (q : Q)
| Fixed (places : nat) (q : Q)
| FixedR (places : nat) (x : R).

Definition NA : cell := Text "NA".

(** [r.get(k, blank)], [blank] being the empty text. *)
Definition get_or_blank (r : list (string * cell)) (k : string) : cell :=
  match sget r k with
  | Some c => c
  | None => Text EmptyString
  end.

(** The comprehension [{k: r.get(k, blank) for k in fields}]. *)
Definition project (fields : list string) (r : list (string * cell))
    : list (string * cell) :=
  map (fun k => (k, get_or_blank r k)) fields.

(** [csv.DictWriter(f, fieldnames).writerow(rowdict)]: the cells in the
    order of the field names, a missing one blank; a key that is no field
    name raises [ValueError]. *)
Definition writerow (fieldnames : list string) (rowdict : list (string * cell))
    : result (list cell) :=
  if forallb (fun k => mem k fieldnames) (dict_keys rowdict)
  then Ok (map (get_or_blank rowdict) fieldnames)
  else Raise ValueError.

(** ** cyclic_independence.py *)

Definition cid_fields : list string :=
  ["file"; "CiD"; "partitions"; "cyclic_pairs"; "total_pairs"].

Definition cid_row (name : string) (res : option Cid.row)
    : list (string * cell) :=
  match res with
  | None =>
      [("file", Text name); ("partitions", NA); ("cyclic_pairs", NA);
       ("total_pairs", NA); ("CiD", NA)]
  | Some r =>
      [("file", Text name); ("partitions", Int (Cid.partitions r));
       ("cyclic_pairs", Int (Cid.cyclic_pairs r));
       ("total_pairs", Int (Cid.total_pairs r));
       ("CiD", Fixed 4 (Cid.CiD r))]
  end.

Definition cid_line (name : string) (res : option Cid.row)
    : result (list cell) :=
  writerow cid_fields (project cid_fields (cid_row name res)).

(** ** code_modularity.py: a plain [csv.writer] and a pair per file *)

Definition cmod_header : list string := ["file"; "CMod"].

Definition cmod_line (name : string) (cmod : option Q) : list cell :=
  [Text name; match cmod with
              | Some c => Fixed 4 c
              | None => NA
              end].

(** ** service_coupling_factor.py *)

Definition scf_fieldnames : list string :=
  ["file"; "SCF"; "services"; "external_edges"].

Definition scf_row (name : string) (res : option Scf.row)
    : list (string * cell) :=
  match res with
  | None =>
      [("file", Text name); ("services", NA); ("external_edges", NA);
       ("SCF", NA)]
  | Some r =>
      [("file", Text name); ("services", Int (Scf.services r));
       ("external_edges", Int (Scf.external_edges r));
       ("SCF", FixedR 4 (Scf.SCF r))]
  end.

Definition scf_line (name : string) (res : option Scf.row)
    : result (list cell) :=
  writerow scf_fieldnames (scf_row name res).

(** ** smad.py *)

Definition smad_wide_fields : list string :=
  ["file"; "SMAD"; "services"; "MAD_raw"; "medSize"; "min"; "max"].

Definition smad_row (name : string) (res : option Smad.row)
    : list (string * cell) :=
  match res with
  | None =>
      [("file", Text name); ("services", NA); ("MAD_raw", NA);
       ("medSize", NA); ("min", NA); ("max", NA); ("SMAD_c7", NA)]
  | Some r =>
      [("file", Text name); ("services", Int (Smad.services r));
       ("MAD_raw", Num (Smad.MAD_raw r)); ("medSize", Num (Smad.medSize r));
       ("min", Int (Smad.min r)); ("max", Int (Smad.max r));
       ("SMAD", Num (Smad.SMAD r))]
  end.

Definition smad_line (name : string) (res : option Smad.row)
    : result (list cell) :=
  writerow smad_wide_fields (project smad_wide_fields (smad_row name res)).

(** ** dccmd.py *)

Definition dccmd_wide_fields : list string :=
  ["file"; "DCCMD"; "stories"; "svc"; "medDepth"; "MADraw"].

(** [svc_cnt or "NA"]: [None] and 0 are false. *)
Definition count_or_NA (svc_cnt : option nat) : cell :=
  match svc_cnt with
  | Some (S n) => Int (S n)
  | _ => NA
  end.

(** The cell for a value that is an [int] or [None]; the [csv] module
    writes [None] as an empty field. *)
Definition count_cell (svc_cnt : option nat) : cell :=
  match svc_cnt with
  | Some n => Int n
  | None => Text EmptyString
  end.

Definition dccmd_row (name : string)
    (r : option (list nat) * option nat) : result (list (string * cell)) :=
  let (depths, svc_cnt) := r in
  match depths with
  | None | Some [] =>
      Ok [("file", Text name); ("stories", NA);
          ("svc", count_or_NA svc_cnt); ("medDepth", NA); ("MADraw", NA);
          ("DCCMD", NA)]
  | Some ds =>
      let qs := map Qnat ds in
      med <- median qs ;;
      mad_raw <- median_abs_dev qs med ;;
      let dccmd := mad_score 2 mad_raw in
      Ok [("file", Text name); ("stories", Int (List.length ds));
          ("svc", count_cell svc_cnt); ("medDepth", Fixed 6 med);
          ("MADraw", Fixed 6 mad_raw); ("DCCMD", Fixed 6 dccmd)]
  end.

Definition dccmd_line (name : string)
    (r : option (list nat) * option nat) : result (list cell) :=
  row <- dccmd_row name r ;;
  writerow dccmd_wide_fields (project dccmd_wide_fields row).

End Mains.

(* ================================================================== *)
(** * What the aggregation is expected to do *)
(* ================================================================== *)

Module AggSpec.
Import Py Agg.

(** [c] is a column for metric [m]: one of the names the table lists for
    it, or, for SMAD and DCCMD, the metric's name followed by [_c] and a
    number. *)
Definition column_of (m c : string) : Prop :=
  (exists cands, In (m, cands) METRIC_HEADERS /\ In c cands) \/
  ((m = "SMAD" \/ m = "DCCMD") /\ fullmatch_variant (m ++ "_c") c = true).

Section WithLibrary.

Variable path_stem : string -> string.
Variable float_2f : string -> option string.

(** What one row of one file contributes: a key, a metric and a text. *)
Definition entry : Type := (key * string * string)%type.

Definition row_entry (metric_name metric_col : string)
    (row : list (string * option string)) : list entry :=
  if file_cell row =? EmptyString then []
  else
    match parse_name path_stem (file_cell row) with
    | Ok (Some (proj, cand)) =>
        if (proj =? EmptyString) || (cand =? EmptyString) then []
        else [((proj, cand), metric_name,
               fmt2 float_2f (metric_cell row metric_col))]
    | _ => []
    end.

Definition file_entries (f : csv_file) : list entry :=
  if is_output f then []
  else
    match fieldnames f with
    | Some headers =>
        if mem "file" headers then
          match pick_metric headers with
          | Some (metric_name, metric_col) =>
              flat_map (row_entry metric_name metric_col) (rows f)
          | None => []
          end
        else []
    | None => []
    end.

(** Everything the files contribute, in the order it is read. *)
Definition entries (files : list csv_file) : list entry :=
  flat_map file_entries files.

(** The text a table cell ends up with: the last contribution for its key
    and metric, "NA" when there is none. *)
Definition cell (es : list entry) (k : key) (m : string) : string :=
  match find (fun e => key_eqb (fst (fst e)) k && (snd (fst e) =? m))
          (rev es) with
  | Some e => snd e
  | None => "NA"
  end.

(** The row of the table for key [k]. *)
Definition expected_row (es : list entry) (k : key) : list string :=
  [fst k; snd k; cell es k "CiD"; cell es k "CMod"; cell es k "SCF";
   cell es k "SMAD"; cell es k "DCCMD"].

End WithLibrary.

(** Strictly before, in the order of the rows. *)
Definition key_lt (a b : key) : Prop :=
  key_leb a b = true /\ a <> b.

(** Each item comes at or after the one before it. *)
Definition ordered (l : table) : Prop :=
  Sorted (fun a b => key_leb (fst a) (fst b) = true) l.

(** One contribution put into the table. *)
Definition put (agg : table) (e : entry) : table :=
  record agg (fst (fst e)) (snd (fst e)) (snd e).

Definition FIVE : list string := ["CiD"; "CMod"; "SCF"; "SMAD"; "DCCMD"].

(** The table holds the contributions [es]: one item per key that
    contributes, each of the five metrics at its last contribution. *)
Definition holds (agg : table) (es : list entry) : Prop :=
  NoDup (dict_keys agg) /\
  (forall k, In k (dict_keys agg) <-> exists m v, In (k, m, v) es) /\
  (forall k ms name, In (k, ms) agg -> In name FIVE ->
     sget ms name = Some (cell es k name)).

End AggSpec.

(* ================================================================== *)
(** * Further documents and tables, for the examples *)
(* ================================================================== *)

Module Cases.
Import Py Doc Scenario Agg.

(** Partitions A, B, C with the edge A->B; two stories start in A, one in
    C. *)
Definition json_three_stories : json :=
  jdoc (map jpart dec1) [jlink "a" "b"]
    [jlink "USE CASE 1" "a"; jlink "USE CASE 2" "a"; jlink "USE CASE 3" "c"].

(** Scenario 1 without the edge back from B to A. *)
Definition json_one_way : json :=
  jdoc (map jpart dec1) [jlink "a" "b"] [].

Definition doc_one_way : document :=
  {| decomposition := dec1; links := [lnk "a" "b"]; use_cases := [] |}.

(** Scenario 5 with both edges turned round. *)
Definition json5_reversed : json :=
  jdoc (map jpart dec1) [jlink "b" "a"; jlink "c" "b"]
    [jlink "USE CASE 1" "a"; jlink "Use case 2" "c"].

(** Scenario 1 with its edges in another order, one of them twice and with
    a weight. *)
Definition json1_shuffled : json :=
  jdoc (map jpart dec1) [jlinkw "b" "a" 5; jlink "a" "b"; jlink "b" "a"] [].

Definition doc1_shuffled : document :=
  {| decomposition := dec1;
     links := [{| source := "b"; target := "a"; weight := Some 5%Q |};
               lnk "a" "b"; lnk "b" "a"];
     use_cases := [] |}.

(** Scenario 5 with its edges in another order, one of them twice and with
    a weight. *)
Definition json5_doubled : json :=
  jdoc (map jpart dec1) [jlinkw "b" "c" 3; jlink "a" "b"; jlink "b" "c"]
    [jlink "USE CASE 1" "a"; jlink "Use case 2" "c"].

Definition doc5_doubled : document :=
  {| decomposition := dec1;
     links := [{| source := "b"; target := "c"; weight := Some 3%Q |};
               lnk "a" "b"; lnk "b" "c"];
     use_cases := [{| story := "USE CASE 1"; uc_target := "a" |};
                   {| story := "Use case 2"; uc_target := "c" |}] |}.

(** Scenario 2 with a weight of 9 on its first internal edge. *)
Definition json2_heavy : json :=
  jdoc (map jpart dec2)
    [jlinkw "p1" "p2" 9; jlink "p2" "p3"; jlink "p1" "q";
     jlinkw "q" "p3" 1] [].

Definition doc2_heavy : document :=
  {| decomposition := dec2;
     links := [{| source := "p1"; target := "p2"; weight := Some 9%Q |};
               lnk "p2" "p3"; lnk "p1" "q";
               {| source := "q"; target := "p3"; weight := Some 1%Q |}];
     use_cases := [] |}.

(** The two layers, both empty. *)
Definition json_no_partition : json :=
  JObj [("1_structural_static", JObj []); ("3_business_use_cases", JObj [])].

(** A node listed under two partitions. *)
Definition dec_twice : list (string * list string) :=
  [("A", ["x"]); ("B", ["x"])].

(** The chain of scenario 5 without its first edge. *)
Definition adj_cut : list (string * list string) :=
  [("A", []); ("B", ["C"]); ("C", [])].

(** Two CSV files for one candidate, a CiD table and an SCF table. *)
Definition csv_cid : csv_file :=
  {| is_output := false;
     fieldnames := Some ["file"; "CiD"; "partitions"];
     rows := [[("file", Some "shop_by_class.json"); ("CiD", Some " 0.5 ");
               ("partitions", Some "3")]] |}.

Definition csv_scf : csv_file :=
  {| is_output := false;
     fieldnames := Some ["file"; "SCF"];
     rows := [[("file", Some "shop_by_class.json"); ("SCF", Some "NA")]] |}.

(** Library functions for the examples: a stem that is the name itself, and
    no text read as a number. *)
Definition whole_name : string -> string := fun s => s.
Definition no_number : string -> option string := fun _ => None.

(** Two partitions with an edge inside each, one of them weighted, and no
    edge between them. *)
Definition dec_islands : list (string * list string) :=
  [("P", ["p1"; "p2"]); ("Q", ["q1"; "q2"])].

Definition json_islands : json :=
  jdoc (map jpart dec_islands) [jlinkw "p1" "p2" 3; jlink "q1" "q2"] [].

Definition doc_islands : document :=
  {| decomposition := dec_islands;
     links := [{| source := "p1"; target := "p2"; weight := Some 3%Q |};
               lnk "q1" "q2"];
     use_cases := [] |}.

(** Scenario 2 with a weight on the first edge inside P that [float]
    cannot convert. *)
Definition json2_huge : json :=
  jdoc (map jpart dec2)
    [jlinkw "p1" "p2" (inject_Z (10 ^ 400)); jlink "p2" "p3";
     jlink "p1" "q"; jlinkw "q" "p3" 1] [].

(** The chain of services 0 -> 1 -> ... -> n, each named by its number. *)
Definition svc (n : nat) : string := NilEmpty.string_of_uint (Nat.to_uint n).

Definition chain (n : nat) : Dccmd.graph :=
  map (fun i => (svc i, if (i <? n)%nat then [svc (S i)] else []))
    (seq 0 (S n)).

End Cases.

(* ================================================================== *)
(** * Properties of the Python fragment *)
(* ================================================================== *)

Unset Implicit Arguments.

Module PyFacts.
Import Py.
Local Open Scope nat_scope.
Local Open Scope string_scope.
Local Open Scope list_scope.

Lemma mem_In (x : string) (s : list string) : mem x s = true <-> In x s.
Proof.
  unfold mem. rewrite existsb_exists. split.
  - intros [y [Hy He]]. apply String.eqb_eq in He. now subst.
  - intros H. exists x. split; [assumption | apply String.eqb_refl].
Qed.

Lemma mem_false (x : string) (s : list string) : mem x s = false <-> ~ In x s.
Proof.
  rewrite <- mem_In. destruct (mem x s); split; congruence.
Qed.

Lemma mem_app (x : string) (s t : list string) :
  mem x (s ++ t) = mem x s || mem x t.
Proof. unfold mem. apply existsb_app. Qed.

Lemma mem_set_add (y x : string) (s : list string) :
  mem y (set_add x s) = (y =? x) || mem y s.
Proof.
  unfold set_add. destruct (mem x s) eqn:Hx.
  - destruct (String.eqb_spec y x); [subst; now rewrite Hx | reflexivity].
  - rewrite mem_app. simpl. rewrite orb_false_r. apply orb_comm.
Qed.

Lemma nodupb_NoDup (l : list string) : Doc.nodupb l = true <-> NoDup l.
Proof.
  induction l as [|x l IH]; simpl.
  - split; [constructor | reflexivity].
  - rewrite andb_true_iff, negb_true_iff, mem_false, IH. split.
    + intros [H1 H2]. now constructor.
    + intros H. inversion H. now split.
Qed.

(** ** Dictionaries with string keys *)

Section SDict.
Variable V : Type.
Implicit Types m : list (string * V).

Lemma sget_sset m k v k' :
  sget (sset m k v) k' = if k =? k' then Some v else sget m k'.
Proof.
  unfold sget, sset. induction m as [|[k0 v0] m IH]; simpl.
  - reflexivity.
  - destruct (String.eqb_spec k0 k) as [->|Hne]; simpl.
    + destruct (k =? k'); reflexivity.
    + rewrite IH. destruct (String.eqb_spec k0 k') as [->|Hne'].
      * apply String.eqb_neq in Hne. rewrite String.eqb_sym in Hne.
        now rewrite Hne.
      * reflexivity.
Qed.

Lemma sget_Some_In m k v : sget m k = Some v -> In k (dict_keys m).
Proof.
  unfold sget, dict_keys. induction m as [|[k0 v0] m IH]; simpl.
  - discriminate.
  - destruct (String.eqb_spec k0 k); [now left | intros; right; auto].
Qed.

Lemma In_sget m k : In k (dict_keys m) -> exists v, sget m k = Some v.
Proof.
  unfold sget, dict_keys. induction m as [|[k0 v0] m IH]; simpl.
  - contradiction.
  - intros [->|H].
    + rewrite String.eqb_refl. eauto.
    + destruct (k0 =? k); eauto.
Qed.

Lemma sget_None m k : sget m k = None <-> ~ In k (dict_keys m).
Proof.
  split.
  - intros H Hin. destruct (In_sget _ _ Hin) as [v Hv]. congruence.
  - intros H. destruct (sget m k) eqn:E; [|reflexivity].
    elim H. eapply sget_Some_In; eauto.
Qed.

Lemma keys_sset_present m k v :
  In k (dict_keys m) -> dict_keys (sset m k v) = dict_keys m.
Proof.
  unfold sset, dict_keys. induction m as [|[k0 v0] m IH]; simpl.
  - contradiction.
  - intros H. destruct (String.eqb_spec k0 k) as [->|Hne]; simpl.
    + reflexivity.
    + f_equal. apply IH. destruct H; congruence.
Qed.

Lemma keys_sset_absent m k v :
  ~ In k (dict_keys m) -> dict_keys (sset m k v) = dict_keys m ++ [k].
Proof.
  unfold sset, dict_keys. induction m as [|[k0 v0] m IH]; simpl.
  - reflexivity.
  - intros H. destruct (String.eqb_spec k0 k) as [->|Hne]; simpl.
    + elim H. now left.
    + f_equal. apply IH. tauto.
Qed.

End SDict.

Lemma sget_init (A : Type) (v : A) (keys : list string) (k : string) :
  sget (map (fun p => (p, v)) keys) k = if mem k keys then Some v else None.
Proof.
  unfold sget. induction keys as [|k0 keys IH]; simpl.
  - reflexivity.
  - rewrite IH, (String.eqb_sym k k0). now destruct (k0 =? k).
Qed.

(** ** Keys that are hashed values *)

Lemma hkey_eqb_refl (a : hkey) : hkey_eqb a a = true.
Proof.
  destruct a; simpl; [reflexivity | | apply String.eqb_refl].
  apply Qeq_bool_iff. reflexivity.
Qed.

Lemma hkey_eqb_str (a : hkey) (s : string) :
  hkey_eqb a (KStr s) = true <-> a = KStr s.
Proof.
  destruct a; simpl; try (split; discriminate).
  rewrite String.eqb_eq. split; congruence.
Qed.

Lemma hget_hset_str (m : list (hkey * string)) (k : string) (v : string)
    (k' : string) :
  dict_get hkey_eqb (dict_set hkey_eqb m (KStr k) v) (KStr k') =
  if k =? k' then Some v else dict_get hkey_eqb m (KStr k').
Proof.
  induction m as [|[k0 v0] m IH]; simpl.
  - reflexivity.
  - destruct (hkey_eqb k0 (KStr k)) eqn:E; simpl.
    + apply hkey_eqb_str in E. subst k0. simpl.
      destruct (k =? k'); reflexivity.
    + rewrite IH. destruct (hkey_eqb k0 (KStr k')) eqn:E'; [|reflexivity].
      apply hkey_eqb_str in E'. subst k0. simpl in E.
      rewrite String.eqb_sym in E. now rewrite E.
Qed.

(** ** [sorted] is a rearrangement *)

Lemma insert_sorted_perm (x : string) (l : list string) :
  Permutation (insert_sorted x l) (x :: l).
Proof.
  induction l as [|y l IH]; simpl.
  - reflexivity.
  - destruct (String.leb x y).
    + reflexivity.
    + rewrite IH. apply perm_swap.
Qed.

Lemma sorted_perm (l : list string) : Permutation (sorted l) l.
Proof.
  induction l as [|x l IH]; simpl.
  - constructor.
  - rewrite insert_sorted_perm. now constructor.
Qed.

Lemma sorted_length (l : list string) :
  List.length (sorted l) = List.length l.
Proof. apply Permutation_length, sorted_perm. Qed.

Lemma sorted_In (x : string) (l : list string) : In x (sorted l) <-> In x l.
Proof.
  split; apply Permutation_in; [|symmetry]; apply sorted_perm.
Qed.

Lemma mem_sorted (x : string) (l : list string) : mem x (sorted l) = mem x l.
Proof.
  destruct (mem x l) eqn:E.
  - apply mem_In, sorted_In, mem_In, E.
  - apply mem_false. rewrite sorted_In. now apply mem_false.
Qed.

(** ** Field access on a dict *)

Lemma subscript_obj (m : list (string * json)) (k : string) (v : json) :
  sget m k = Some v -> subscript (JObj m) k = Ok v.
Proof. intros H. simpl. now rewrite H. Qed.

Lemma dot_get_obj (m : list (string * json)) (k : string) (v dflt : json) :
  sget m k = Some v -> dot_get (JObj m) k dflt = Ok v.
Proof. intros H. simpl. now rewrite H. Qed.

Lemma dot_get_absent (m : list (string * json)) (k : string) (dflt : json) :
  sget m k = None -> dot_get (JObj m) k dflt = Ok dflt.
Proof. intros H. simpl. now rewrite H. Qed.

(** ** Loops *)

Lemma for_each_app (A B : Type) (body : A -> B -> result A)
    (xs ys : list B) (acc : A) :
  for_each body (xs ++ ys) acc =
  (acc' <- for_each body xs acc ;; for_each body ys acc').
Proof.
  revert acc. induction xs as [|x xs IH]; intros acc; simpl.
  - reflexivity.
  - destruct (body acc x); simpl; [apply IH | reflexivity].
Qed.

Lemma map_each_pure (A B : Type) (f : A -> result B) (g : A -> B)
    (xs : list A) :
  (forall x, In x xs -> f x = Ok (g x)) ->
  map_each f xs = Ok (map g xs).
Proof.
  induction xs as [|x xs IH]; intros H; simpl.
  - reflexivity.
  - rewrite (H x) by now left. simpl. rewrite IH; [reflexivity|].
    intros y Hy. apply H. now right.
Qed.

End PyFacts.

(* ================================================================== *)
(** * Reading a well-formed document *)
(* ================================================================== *)

Module DocFacts.
Import Py Doc PyFacts.
Local Open Scope nat_scope.
Local Open Scope string_scope.
Local Open Scope list_scope.

Lemma add_nodes_repr (p : string) (ns : list json) (ids : list string) :
  Forall2 repr_node ns ids ->
  forall acc,
    for_each
      (fun acc n =>
         id <- subscript n "id" ;;
         k <- hash id ;;
         Ok (dict_set hkey_eqb acc k p))
      ns acc = Ok (add_nodes p ids acc).
Proof.
  induction 1 as [|n id ns ids Hn _ IH]; intros acc; simpl.
  - reflexivity.
  - inversion Hn as [m id' Hid]; subst. simpl. rewrite Hid. simpl. apply IH.
Qed.

Lemma node_map_repr (dec : list (string * json))
    (parts : list (string * list string)) :
  Forall2 repr_part dec parts ->
  node2part dec = Ok (node_map parts []).
Proof.
  intros H. unfold node2part, node_map. generalize (@nil (hkey * string)).
  induction H as [|x y dec parts Hxy _ IH]; intros acc; simpl.
  - reflexivity.
  - inversion Hxy as [p ns ids Hns]; subst. simpl.
    rewrite (add_nodes_repr p _ _ Hns). simpl. apply IH.
Qed.

Lemma keys_repr (dec : list (string * json))
    (parts : list (string * list string)) :
  Forall2 repr_part dec parts -> dict_keys dec = map fst parts.
Proof.
  unfold dict_keys. induction 1 as [|x y dec parts Hxy _ IH]; simpl.
  - reflexivity.
  - inversion Hxy; subst. simpl. now f_equal.
Qed.

Lemma add_nodes_get (p : string) (ids : list string)
    (acc : list (hkey * string)) (x : string) :
  dict_get hkey_eqb (add_nodes p ids acc) (KStr x) =
  if mem x ids then Some p else dict_get hkey_eqb acc (KStr x).
Proof.
  unfold add_nodes. revert acc.
  induction ids as [|id ids IH]; intros acc; simpl.
  - reflexivity.
  - rewrite IH, hget_hset_str, (String.eqb_sym x id).
    destruct (mem x ids), (id =? x); reflexivity.
Qed.

Lemma NoDup_concat_cons (ids : list string) (rest : list (list string)) :
  NoDup (List.concat (ids :: rest)) ->
  NoDup (List.concat rest) /\
  forall x, In x ids -> forall l, In l rest -> ~ In x l.
Proof.
  simpl. intros H. split.
  - eapply NoDup_app_remove_l; eauto.
  - intros x Hx l Hl Hxl.
    induction ids as [|y ids IH]; simpl in *; [contradiction|].
    inversion H as [|? ? Hnin Hnd]; subst.
    destruct Hx as [->|Hx]; [|now apply IH].
    apply Hnin, in_or_app. right. apply in_concat. eauto.
Qed.

Lemma node_map_get (dec : list (string * list string)) (x : string) :
  NoDup (List.concat (map snd dec)) ->
  forall acc,
    dict_get hkey_eqb (node_map dec acc) (KStr x) =
    match find (fun pn => mem x (snd pn)) dec with
    | Some (p, _) => Some p
    | None => dict_get hkey_eqb acc (KStr x)
    end.
Proof.
  unfold node_map.
  induction dec as [|[p ids] dec IH]; intros Hnd acc; simpl.
  - reflexivity.
  - simpl in Hnd. apply NoDup_concat_cons in Hnd as [Hnd Hsep].
    rewrite (IH Hnd), add_nodes_get.
    destruct (mem x ids) eqn:Hx; [|reflexivity].
    apply mem_In in Hx.
    destruct (find (fun pn => mem x (snd pn)) dec) as [[q l]|] eqn:Hf;
      [|reflexivity].
    apply find_some in Hf as [Hin Hq]. simpl in Hq. apply mem_In in Hq.
    exfalso. apply (Hsep x Hx l); [|assumption].
    apply in_map_iff. exists (q, l). now split.
Qed.

Lemma wf_parts (d : document) : wf d = true -> NoDup (partitions d).
Proof.
  unfold wf. rewrite !andb_true_iff. intros [[H _] _]. now apply nodupb_NoDup.
Qed.

Lemma wf_nodes (d : document) : wf d = true -> NoDup (node_ids d).
Proof.
  unfold wf. rewrite !andb_true_iff. intros [[_ H] _]. now apply nodupb_NoDup.
Qed.

Lemma wf_weights (d : document) (l : link) :
  wf d = true -> In l (links d) -> (0 <= weight_of l)%Q.
Proof.
  unfold wf. rewrite !andb_true_iff. intros [_ H] Hl.
  rewrite forallb_forall in H. apply Qle_bool_iff. now apply H.
Qed.

(** On a well-formed document the map the scripts build sends a node to
    the partition it is declared under. *)
Lemma lookup_node (d : document) (x : string) :
  wf d = true ->
  lookup (node_map (decomposition d) []) (JStr x) = Ok (partition_of d x).
Proof.
  intros Hwf. unfold lookup, partition_of. simpl.
  rewrite node_map_get by exact (wf_nodes d Hwf).
  destruct (find _ _) as [[p l]|]; reflexivity.
Qed.

Lemma partition_of_In (d : document) (x p : string) :
  partition_of d x = Some p -> In p (partitions d).
Proof.
  unfold partition_of, partitions.
  destruct (find _ _) as [[q l]|] eqn:Hf; [|discriminate].
  intros [= ->]. apply find_some in Hf as [Hin _].
  apply in_map_iff. exists (p, l). now split.
Qed.

(** The declared partition is the one whose node list holds the node. *)
Lemma partition_of_spec (d : document) (x p : string) :
  wf d = true ->
  (partition_of d x = Some p <->
   exists ids, In (p, ids) (decomposition d) /\ In x ids).
Proof.
  intros Hwf. unfold partition_of. split.
  - destruct (find _ _) as [[q l]|] eqn:Hf; [|discriminate].
    intros [= ->]. apply find_some in Hf as [Hin Hx]. simpl in Hx.
    exists l. split; [assumption | now apply mem_In].
  - intros [ids [Hin Hx]].
    pose proof (wf_nodes d Hwf) as Hnd. unfold node_ids in Hnd.
    pose proof (wf_parts d Hwf) as Hnp. unfold partitions in Hnp.
    induction (decomposition d) as [|[q l] dec IH]; simpl in *.
    + contradiction.
    + apply NoDup_concat_cons in Hnd as [Hnd Hsep].
      inversion Hnp as [|? ? Hq Hnp']; subst.
      destruct Hin as [Heq|Hin].
      * inversion Heq; subst. apply mem_In in Hx. now rewrite Hx.
      * destruct (mem x l) eqn:Hxl.
        -- apply mem_In in Hxl. exfalso. apply (Hsep x Hxl ids); [|assumption].
           apply in_map_iff. exists (p, ids). now split.
        -- now apply IH.
Qed.

(** A cross-partition edge joins two declared partitions. *)
Lemma cross_In_r (d : document) (p q : string) :
  cross d p q = true -> In q (partitions d).
Proof.
  unfold cross, cross_in, place. rewrite existsb_exists. intros [l [_ H]].
  destruct (partition_of d (source l)) as [p'|]; [|discriminate].
  destruct (partition_of d (target l)) as [q'|] eqn:Hq; [|discriminate].
  destruct (p' =? q'); [discriminate|].
  apply andb_true_iff in H as [_ H]. apply String.eqb_eq in H. subst q'.
  now apply (partition_of_In d (target l)).
Qed.

Lemma cross_spec (d : document) (p q : string) :
  cross d p q = true <-> crossing d p q.
Proof.
  unfold cross, cross_in, crossing, place. rewrite existsb_exists. split.
  - intros [l [Hl H]]. exists l. split; [assumption|].
    destruct (partition_of d (source l)) as [p'|]; [|discriminate].
    destruct (partition_of d (target l)) as [q'|]; [|discriminate].
    destruct (String.eqb_spec p' q') as [->|Hne]; [discriminate|].
    apply andb_true_iff in H as [H1 H2].
    apply String.eqb_eq in H1, H2. subst. auto.
  - intros [l [Hl [Hp [Hq Hne]]]]. exists l. split; [assumption|].
    rewrite Hp, Hq. apply String.eqb_neq in Hne. rewrite Hne.
    now rewrite !String.eqb_refl.
Qed.

End DocFacts.

(* ================================================================== *)
(** * The scenarios are well-formed documents *)
(* ================================================================== *)

Module ScenarioFacts.
Import Py Doc Scenario.
Local Open Scope string_scope.
Local Open Scope list_scope.

Ltac represent :=
  econstructor;
  repeat first
    [ reflexivity
    | apply Forall2_nil
    | apply Forall2_cons
    | apply repr_part_intro
    | apply repr_node_intro
    | apply repr_link_intro
    | apply repr_use_case_intro
    | apply repr_weight_absent
    | apply repr_weight_num ].

Lemma represents1 : represents json1 doc1.
Proof. represent. Qed.

Lemma represents2 : represents json2 doc2.
Proof. represent. Qed.

Lemma represents3 : represents json3 doc3.
Proof. represent. Qed.


Lemma represents5 : represents json5 doc5.
Proof. represent. Qed.

Lemma represents_zero : represents json_zero doc_zero.
Proof. represent. Qed.

Lemma represents_anon : represents json_anon doc_anon.
Proof. represent. Qed.

End ScenarioFacts.

(* ================================================================== *)
(** * Cyclic independence *)
(* ================================================================== *)

Module CidFacts.
Import Py Doc PyFacts DocFacts.
Local Open Scope nat_scope.
Local Open Scope string_scope.
Local Open Scope list_scope.

(** ** Pairs *)

Lemma combinations2_In (A : Type) (l : list A) (x y : A) :
  In (x, y) (combinations2 l) -> In x l /\ In y l.
Proof.
  induction l as [|z l IH]; simpl.
  - contradiction.
  - rewrite in_app_iff, in_map_iff. intros [[w [Hw Hin]]|H].
    + inversion Hw; subst. split; [now left | now right].
    + destruct (IH H). split; now right.
Qed.

Lemma combinations2_short (A : Type) (l : list A) :
  List.length l <= 1 -> combinations2 l = [].
Proof.
  destruct l as [|x [|y l]]; simpl; intros H; try reflexivity; lia.
Qed.

Lemma combinations2_length (A : Type) (l : list A) :
  List.length (combinations2 l) = List.length l * (List.length l - 1) / 2.
Proof.
  induction l as [|x l IH].
  - reflexivity.
  - cbn [combinations2 List.length]. rewrite length_app, length_map, IH.
    set (n := List.length l).
    replace (S n - 1) with n by lia.
    replace (n + n * (n - 1) / 2) with ((n * 2 + n * (n - 1)) / 2)
      by (rewrite Nat.div_add_l; lia).
    f_equal. destruct n as [|m]; [reflexivity|].
    replace (S m - 1) with m by lia. ring.
Qed.

(** Two distinct members of a duplicate-free list form exactly one listed
    pair, in one of the two orders. *)
Lemma combinations2_cover (l : list string) (x y : string) :
  NoDup l -> In x l -> In y l -> x <> y ->
  (In (x, y) (combinations2 l) /\ ~ In (y, x) (combinations2 l)) \/
  (In (y, x) (combinations2 l) /\ ~ In (x, y) (combinations2 l)).
Proof.
  induction l as [|z l IH]; simpl; intros Hnd Hx Hy Hne.
  - contradiction.
  - inversion Hnd as [|? ? Hz Hnd']; subst.
    assert (Hhead : forall u v, In (u, v) (map (pair z) l) <-> u = z /\ In v l).
    { intros u v. rewrite in_map_iff. split.
      - intros [w [Hw Hin]]. inversion Hw; subst. now split.
      - intros [-> Hin]. now exists v. }
    destruct Hx as [->|Hx], Hy as [->|Hy].
    + congruence.
    + left. split.
      * apply in_or_app. left. apply Hhead. now split.
      * rewrite in_app_iff, Hhead. intros [[-> _]|H]; [contradiction|].
        apply combinations2_In in H. tauto.
    + right. split.
      * apply in_or_app. left. apply Hhead. now split.
      * rewrite in_app_iff, Hhead. intros [[-> _]|H]; [contradiction|].
        apply combinations2_In in H. tauto.
    + assert (x <> z) by (intros ->; contradiction).
      assert (y <> z) by (intros ->; contradiction).
      destruct (IH Hnd' Hx Hy Hne) as [[H1 H2]|[H1 H2]]; [left|right];
        (split; [apply in_or_app; now right |
                 rewrite in_app_iff, Hhead; tauto]).
Qed.

Lemma filter_length_perm (A : Type) (f : A -> bool) (l l' : list A) :
  Permutation l l' ->
  List.length (filter f l) = List.length (filter f l').
Proof.
  induction 1; simpl; try congruence.
  - destruct (f x); simpl; congruence.
  - destruct (f x), (f y); reflexivity.
Qed.

(** Counting pairs by a symmetric test does not depend on the order in
    which the partitions are listed. *)
Lemma count_pairs_perm (f : string * string -> bool) (l l' : list string) :
  (forall x y, f (x, y) = f (y, x)) ->
  Permutation l l' ->
  List.length (filter f (combinations2 l)) =
  List.length (filter f (combinations2 l')).
Proof.
  intros Hsym. induction 1 as [|x l l' Hp IH|x y l|l l' l'' _ IH1 _ IH2].
  - reflexivity.
  - simpl. rewrite !filter_app, !length_app, IH. f_equal.
    apply filter_length_perm. now apply Permutation_map.
  - simpl. rewrite (Hsym y x).
    destruct (f (x, y)); simpl; rewrite !filter_app, !length_app; lia.
  - congruence.
Qed.

Lemma count_true_map (A : Type) (f : A -> bool) (l : list A) :
  Cid.count_true (map f l) = List.length (filter f l).
Proof.
  unfold Cid.count_true. induction l as [|x l IH]; simpl.
  - reflexivity.
  - destruct (f x); simpl; congruence.
Qed.

(** ** The loop over the links *)

Lemma cid_classify_repr (d : document) (e : json) (l : link) :
  wf d = true -> repr_link e l ->
  Cid.classify (node_map (decomposition d) []) e =
  Ok (match place d l with
      | Between p q => Cid.Cross p q
      | _ => Cid.Skip
      end).
Proof.
  intros Hwf Hr. inversion Hr as [m l' Hs Ht Hw]; subst.
  unfold Cid.classify, place.
  rewrite (dot_get_obj _ _ _ _ Hs), (dot_get_obj _ _ _ _ Ht). cbn [bind].
  rewrite !lookup_node by assumption. cbn [bind].
  destruct (partition_of d (source l)) as [p|]; [|reflexivity].
  destruct (partition_of d (target l)) as [q|]; [|reflexivity].
  destruct (p =? q); reflexivity.
Qed.

Lemma cid_loop_repr (d : document) (es : list json) (ls : list link) :
  wf d = true -> Forall2 repr_link es ls ->
  forall dep,
    (forall p, In p (partitions d) -> In p (dict_keys dep)) ->
    exists dep',
      for_each (Cid.step (node_map (decomposition d) [])) es dep = Ok dep' /\
      dict_keys dep' = dict_keys dep /\
      forall p q, outs dep' p q = outs dep p q || cross_in d ls p q.
Proof.
  intros Hwf. induction 1 as [|e l es ls He _ IH]; intros dep Hcov.
  - exists dep. simpl. repeat split. intros. now rewrite orb_false_r.
  - simpl. unfold Cid.step at 1.
    rewrite (cid_classify_repr d e l Hwf He). cbn [bind].
    unfold place.
    destruct (partition_of d (source l)) as [ps|] eqn:Hps;
      [destruct (partition_of d (target l)) as [pd|] eqn:Hpd;
       [destruct (ps =? pd) eqn:Hsd|]|];
      try (destruct (IH dep Hcov) as [dep' [H1 [H2 H3]]];
           exists dep'; repeat split; assumption).
    apply partition_of_In in Hps. apply Hcov, In_sget in Hps as [s Hs].
    unfold Cid.add_dep. rewrite Hs. cbn [bind].
    assert (Hk : dict_keys (sset dep ps (set_add pd s)) = dict_keys dep).
    { apply keys_sset_present. eapply sget_Some_In; eauto. }
    destruct (IH (sset dep ps (set_add pd s))) as [dep' [H1 [H2 H3]]].
    { intros p Hp. rewrite Hk. now apply Hcov. }
    exists dep'. repeat split; [assumption | congruence |].
    intros p q. rewrite H3. unfold outs at 1. rewrite sget_sset.
    destruct (String.eqb_spec ps p) as [->|Hne].
    + rewrite mem_set_add. unfold outs. rewrite Hs, (String.eqb_sym q pd).
      simpl. destruct (mem q s), (pd =? q), (cross_in d ls p q); reflexivity.
    + simpl. reflexivity.
Qed.

Lemma outs_init (keys : list string) (p q : string) :
  outs (map (fun p => (p, @nil string)) keys) p q = false.
Proof.
  unfold outs. rewrite sget_init. now destruct (mem p keys).
Qed.

Lemma is_cyclic_outs (dep : list (string * list string)) (p q : string) :
  In p (dict_keys dep) -> In q (dict_keys dep) ->
  Cid.is_cyclic dep (p, q) = Ok (outs dep p q && outs dep q p).
Proof.
  intros Hp Hq. apply In_sget in Hp as [sp Hp]. apply In_sget in Hq as [sq Hq].
  unfold Cid.is_cyclic, outs. rewrite Hp, Hq.
  destruct (mem q sp); reflexivity.
Qed.

Lemma cyclic_pair_sym (d : document) (x y : string) :
  cyclic_pair d (x, y) = cyclic_pair d (y, x).
Proof. unfold cyclic_pair. simpl. apply andb_comm. Qed.

Lemma pairs_positive (n : nat) : 1 < n -> 0 < n * (n - 1) / 2.
Proof.
  intros H. apply Nat.div_str_pos. split; [lia|]. nia.
Qed.

(** C2.  On a well-formed document CiD is
    [1 - cyclic_pairs / (N*(N-1)/2)], where the cyclic pairs are the
    unordered pairs of partitions with a cross-partition edge in each
    direction, however many and whatever their weights; with at most one
    partition CiD is 1.  A pair is cyclic exactly when some edge goes each
    way, and two different partitions are listed as a pair once.  For
    partitions A, B, C with cross edges A->B and B->A only, CiD is
    1 - 1/3. *)
Theorem cid_counts_reciprocal_pairs :
  (forall (j : json) (d : document),
     represents j d -> wf d = true ->
     let n := List.length (partitions d) in
     exists r,
       Cid.cid_for_file (Ok j) = Ok (Some r) /\
       Cid.partitions r = n /\
       Cid.total_pairs r = n * (n - 1) / 2 /\
       Cid.cyclic_pairs r = cyclic_count d /\
       (n <= 1 -> Cid.CiD r = 1%Q) /\
       (1 < n ->
        Cid.CiD r =
        (1 - Qnat (cyclic_count d) / Qnat (n * (n - 1) / 2))%Q)) /\
  (forall (d : document) (p q : string),
     cyclic_pair d (p, q) = true <-> crossing d p q /\ crossing d q p) /\
  (forall (d : document) (p q : string),
     wf d = true -> In p (partitions d) -> In q (partitions d) -> p <> q ->
     let pairs := combinations2 (partitions d) in
     (In (p, q) pairs /\ ~ In (q, p) pairs) \/
     (In (q, p) pairs /\ ~ In (p, q) pairs)) /\
  (exists r,
     Cid.cid_for_file (Ok Scenario.json1) = Ok (Some r) /\
     Cid.partitions r = 3 /\
     Cid.cyclic_pairs r = 1 /\
     Cid.total_pairs r = 3 /\
     (Cid.CiD r == 1 - 1 / 3)%Q).
Proof.
  split.
  { intros j d Hr Hwf n.
    inversion Hr as [top struct bus dec ls bls d' Hl1 Hl3 Hdec Hparts Hls Hlinks
                     Hbl Hbls]; subst.
    unfold Cid.cid_for_file, Cid.LAYER_KEY. cbn [bind].
    rewrite (subscript_obj _ _ _ Hl1). cbn [try_except].
    rewrite (dot_get_obj _ _ _ _ Hdec), (dot_get_obj _ _ _ _ Hls).
    cbn [bind dot_keys dot_items iterate].
    rewrite (keys_repr _ _ Hparts). fold (partitions d).
    rewrite sorted_length. fold n.
    destruct (n <=? 1)%nat eqn:Hn.
    - apply Nat.leb_le in Hn. eexists. split; [reflexivity|].
      cbn [Cid.partitions Cid.total_pairs Cid.cyclic_pairs Cid.CiD].
      repeat split; try reflexivity; try lia.
      unfold cyclic_count. now rewrite combinations2_short.
    - apply Nat.leb_gt in Hn.
      rewrite (node_map_repr _ _ Hparts). cbn [bind].
      destruct (cid_loop_repr d ls (links d) Hwf Hlinks
                  (map (fun p => (p, @nil string)) (sorted (partitions d))))
        as [dep [Hloop [Hkeys Houts]]].
      { intros p Hp. unfold dict_keys. rewrite map_map. simpl. rewrite map_id.
        now apply sorted_In. }
      rewrite Hloop. cbn [bind].
      assert (Hk : dict_keys dep = sorted (partitions d)).
      { rewrite Hkeys. unfold dict_keys. rewrite map_map. simpl. apply map_id. }
      rewrite (map_each_pure _ _ (Cid.is_cyclic dep) (cyclic_pair d)).
      + cbn [bind]. eexists. split; [reflexivity|].
        cbn [Cid.partitions Cid.total_pairs Cid.cyclic_pairs Cid.CiD].
        assert (Hc : Cid.count_true
                     (map (cyclic_pair d)
                        (combinations2 (sorted (partitions d))))
                   = cyclic_count d).
        { rewrite count_true_map. unfold cyclic_count.
          apply count_pairs_perm; [apply cyclic_pair_sym | apply sorted_perm]. }
        rewrite Hc. repeat split; try reflexivity; try lia.
        intros _. pose proof (pairs_positive n Hn) as Hpos.
        apply Nat.ltb_lt in Hpos. now rewrite Hpos.
      + intros [p q] Hpq. apply combinations2_In in Hpq as [Hp Hq].
        rewrite is_cyclic_outs by (rewrite Hk; assumption).
        unfold cyclic_pair, cross. simpl.
        rewrite !Houts, !outs_init. reflexivity. }
  split.
  { intros d p q. unfold cyclic_pair. simpl.
    now rewrite andb_true_iff, !cross_spec. }
  split.
  { intros d p q Hwf Hp Hq Hne pairs.
    apply combinations2_cover; try assumption. now apply wf_parts. }
  eexists. split; [vm_compute; reflexivity|]. repeat split.
Qed.

Lemma cid_counts_reciprocal_pairs_witness :
  represents Scenario.json1 Scenario.doc1 /\
  wf Scenario.doc1 = true /\
  exists r,
    Cid.cid_for_file (Ok Scenario.json1) = Ok (Some r) /\
    Cid.cyclic_pairs r = cyclic_count Scenario.doc1 /\
    Cid.CiD r =
    (1 - Qnat (cyclic_count Scenario.doc1) / Qnat (3 * (3 - 1) / 2))%Q.
Proof.
  split; [exact ScenarioFacts.represents1|]. split; [reflexivity|].
  destruct (proj1 cid_counts_reciprocal_pairs Scenario.json1 Scenario.doc1
              ScenarioFacts.represents1 eq_refl)
    as [r [H1 [_ [_ [H2 [_ H3]]]]]].
  exists r. split; [exact H1|]. split; [exact H2|].
  apply H3. simpl. lia.
Defined.

End CidFacts.

(* ================================================================== *)
(** * Code modularity *)
(* ================================================================== *)

Module CmodFacts.
Import Py Doc PyFacts DocFacts.
Local Open Scope nat_scope.
Local Open Scope string_scope.
Local Open Scope list_scope.

Lemma Qeq_bool_nonneg (x : Q) : (0 <= x)%Q -> Qeq_bool x 0 = Qle_bool x 0.
Proof.
  intros H. destruct (Qle_bool x 0) eqn:E.
  - apply Qle_bool_iff in E. apply Qeq_bool_iff. now apply Qle_antisym.
  - destruct (Qeq_bool x 0) eqn:E'; [|reflexivity].
    apply Qeq_bool_iff in E'. rewrite <- E. symmetry. apply Qle_bool_iff.
    rewrite E'. apply Qle_refl.
Qed.

Lemma fold_plus_nonneg (ws : list Q) (a : Q) :
  (0 <= a)%Q -> Forall (fun w => 0 <= w)%Q ws ->
  (0 <= fold_left Qplus ws a)%Q.
Proof.
  revert a. induction ws as [|w ws IH]; intros a Ha Hws; simpl.
  - assumption.
  - inversion Hws; subst. apply IH; [|assumption].
    replace 0%Q with (0 + 0)%Q by reflexivity. now apply Qplus_le_compat.
Qed.

Lemma weight_sum_nonneg (d : document) (f : link -> bool) :
  wf d = true -> (0 <= weight_sum (filter f (links d)))%Q.
Proof.
  intros Hwf. unfold weight_sum. apply fold_plus_nonneg.
  - apply Qle_refl.
  - apply Forall_forall. intros w Hw. apply in_map_iff in Hw as [l [<- Hl]].
    apply filter_In in Hl as [Hl _]. now apply (wf_weights d).
Qed.

Lemma external_weight_nonneg (d : document) (p : string) :
  wf d = true -> (0 <= external_weight d p)%Q.
Proof.
  intros Hwf. unfold external_weight, outgoing_weight, incoming_weight.
  replace 0%Q with (0 + 0)%Q by reflexivity.
  apply Qplus_le_compat; now apply weight_sum_nonneg.
Qed.

Lemma keep_some_filter (A B : Type) (c : A -> bool) (g : A -> B)
    (l : list A) :
  Cmod.keep_some (map (fun x => if c x then Some (g x) else None) l) =
  map g (filter c l).
Proof.
  induction l as [|x l IH]; simpl.
  - reflexivity.
  - destruct (c x); simpl; now rewrite IH.
Qed.

Lemma mean_average (l : list Q) : Cmod.mean l = average l.
Proof. destruct l; reflexivity. Qed.

Lemma get_nat_sset (m : list (string * nat)) (k : string) (v : nat)
    (p : string) :
  Cmod.get_nat (sset m k v) p = if k =? p then v else Cmod.get_nat m p.
Proof. unfold Cmod.get_nat. rewrite sget_sset. now destruct (k =? p). Qed.

Lemma get_Q_sset (m : list (string * Q)) (k : string) (v : Q) (p : string) :
  Cmod.get_Q (sset m k v) p = if k =? p then v else Cmod.get_Q m p.
Proof. unfold Cmod.get_Q. rewrite sget_sset. now destruct (k =? p). Qed.

Section WithFloat.

Variable float_of_str : string -> option Q.

Lemma weight_used_repr (m : list (string * json)) (l : link) :
  repr_weight (sget m "weight") (weight l) ->
  Cmod.weight_used float_of_str (JObj m) =
  if convertible l then Ok (weight_of l) else Raise OverflowError.
Proof.
  intros H. unfold Cmod.weight_used, convertible, weight_of.
  inversion H as [Hs Hw|w Hs Hw].
  - rewrite dot_get_absent by congruence. reflexivity.
  - symmetry in Hs. rewrite (dot_get_obj _ _ _ _ Hs). cbn [bind float_].
    now destruct (overflows w).
Qed.

(** The weight is converted before the two partitions are compared. *)
Lemma cmod_classify_read (d : document) (e : json) (l : link) :
  wf d = true -> repr_link e l ->
  Cmod.classify float_of_str (node_map (decomposition d) []) e =
  match place d l with
  | Discarded => Ok Cmod.Skip
  | Inside p =>
      if convertible l then Ok (Cmod.Internal p) else Raise OverflowError
  | Between p q =>
      if convertible l then Ok (Cmod.Cross p q (weight_of l))
      else Raise OverflowError
  end.
Proof.
  intros Hwf Hr. inversion Hr as [m l' Hs Ht Hw]; subst.
  unfold Cmod.classify, place.
  rewrite (dot_get_obj _ _ _ _ Hs), (dot_get_obj _ _ _ _ Ht).
  cbn [bind Cmod.is_None orb].
  rewrite !lookup_node by assumption. cbn [bind].
  destruct (partition_of d (source l)) as [p|]; [|reflexivity].
  destruct (partition_of d (target l)) as [q|]; [|reflexivity].
  rewrite (weight_used_repr _ _ Hw).
  destruct (convertible l); cbn [bind]; destruct (p =? q); reflexivity.
Qed.

Lemma cmod_classify_repr (d : document) (e : json) (l : link) :
  wf d = true -> repr_link e l -> weight_read_ok d l = true ->
  Cmod.classify float_of_str (node_map (decomposition d) []) e =
  Ok (match place d l with
      | Discarded => Cmod.Skip
      | Inside p => Cmod.Internal p
      | Between p q => Cmod.Cross p q (weight_of l)
      end).
Proof.
  intros Hwf Hr Hok. rewrite (cmod_classify_read d e l Hwf Hr).
  unfold weight_read_ok in Hok.
  destruct (place d l); [reflexivity | |]; now rewrite Hok.
Qed.

(** An edge between known nodes whose weight [float] cannot convert ends
    the loop. *)
Lemma cmod_loop_overflow (d : document) (es : list json) (ls : list link) :
  wf d = true -> Forall2 repr_link es ls ->
  forallb (weight_read_ok d) ls = false ->
  forall t,
    for_each (Cmod.step float_of_str (node_map (decomposition d) [])) es t
    = Raise OverflowError.
Proof.
  intros Hwf. induction 1 as [|e l es ls He _ IH]; intros Hno t.
  - discriminate.
  - cbn [forallb] in Hno. cbn [for_each]. unfold Cmod.step at 1.
    rewrite (cmod_classify_read d e l Hwf He).
    unfold weight_read_ok in Hno at 1.
    destruct (place d l) as [|pi|ps pd]; cbn [bind andb] in *.
    + now apply IH.
    + destruct (convertible l); cbn [bind andb] in *;
        [now apply IH | reflexivity].
    + destruct (convertible l); cbn [bind andb] in *;
        [now apply IH | reflexivity].
Qed.

(** What the three tallies hold after the loop. *)
Lemma cmod_loop_repr (d : document) (es : list json) (ls : list link) :
  wf d = true -> Forall2 repr_link es ls ->
  forallb (weight_read_ok d) ls = true ->
  forall t,
  exists t',
    for_each (Cmod.step float_of_str (node_map (decomposition d) [])) es t
    = Ok t' /\
    forall p,
      Cmod.get_nat (Cmod.internal t') p =
      Cmod.get_nat (Cmod.internal t) p +
      List.length (filter (is_inside d p) ls) /\
      Cmod.get_Q (Cmod.outgoing t') p =
      fold_left Qplus (map weight_of (filter (leaves d p) ls))
        (Cmod.get_Q (Cmod.outgoing t) p) /\
      Cmod.get_Q (Cmod.incoming t') p =
      fold_left Qplus (map weight_of (filter (enters d p) ls))
        (Cmod.get_Q (Cmod.incoming t) p).
Proof.
  intros Hwf. induction 1 as [|e l es ls He _ IH]; intros Hok t.
  - exists t. split; [reflexivity|]. intros p. simpl. repeat split. lia.
  - cbn [forallb] in Hok. apply andb_true_iff in Hok as [Hok Hoks].
    specialize (IH Hoks).
    cbn [for_each]. unfold Cmod.step at 1.
    rewrite (cmod_classify_repr d e l Hwf He Hok). cbn [bind].
    assert (Hin : forall p, is_inside d p l =
                            match place d l with
                            | Inside p' => p' =? p | _ => false end)
      by reflexivity.
    assert (Hlv : forall p, leaves d p l =
                            match place d l with
                            | Between p' _ => p' =? p | _ => false end)
      by reflexivity.
    assert (Hen : forall p, enters d p l =
                            match place d l with
                            | Between _ q' => q' =? p | _ => false end)
      by reflexivity.
    destruct (place d l) as [|pi|ps pd] eqn:Hpl.
    + destruct (IH t) as [t' [H1 H2]]. exists t'. split; [assumption|].
      intros p. cbn [filter]. rewrite Hin, Hlv, Hen. apply H2.
    + cbn [bind].
      destruct (IH {| Cmod.internal :=
                        sset (Cmod.internal t) pi
                          (Cmod.get_nat (Cmod.internal t) pi + 1);
                      Cmod.outgoing := Cmod.outgoing t;
                      Cmod.incoming := Cmod.incoming t |})
        as [t' [H1 H2]].
      exists t'. split; [assumption|]. intros p.
      destruct (H2 p) as [Hi [Ho Hn]]. cbn [Cmod.internal Cmod.outgoing
        Cmod.incoming] in Hi, Ho, Hn. rewrite get_nat_sset in Hi.
      cbn [filter]. rewrite Hin, Hlv, Hen.
      repeat split; try assumption.
      rewrite Hi. destruct (String.eqb_spec pi p) as [->|Hne]; simpl; lia.
    + cbn [bind].
      destruct (IH {| Cmod.internal := Cmod.internal t;
                      Cmod.outgoing :=
                        sset (Cmod.outgoing t) ps
                          (Cmod.get_Q (Cmod.outgoing t) ps + weight_of l)%Q;
                      Cmod.incoming :=
                        sset (Cmod.incoming t) pd
                          (Cmod.get_Q (Cmod.incoming t) pd + weight_of l)%Q |})
        as [t' [H1 H2]].
      exists t'. split; [assumption|]. intros p.
      destruct (H2 p) as [Hi [Ho Hn]]. cbn [Cmod.internal Cmod.outgoing
        Cmod.incoming] in Hi, Ho, Hn.
      rewrite get_Q_sset in Ho, Hn.
      cbn [filter]. rewrite Hin, Hlv, Hen.
      repeat split; [assumption | |].
      * rewrite Ho. destruct (String.eqb_spec ps p) as [->|Hne]; reflexivity.
      * rewrite Hn. destruct (String.eqb_spec pd p) as [->|Hne]; reflexivity.
Qed.

Lemma cf_of_repr (d : document) (t : Cmod.tallies) (p : string) :
  wf d = true ->
  Cmod.get_nat (Cmod.internal t) p = internal_count d p ->
  Cmod.get_Q (Cmod.outgoing t) p = outgoing_weight d p ->
  Cmod.get_Q (Cmod.incoming t) p = incoming_weight d p ->
  Cmod.cf_of t p =
  if weighs_in d p then Some (cluster_factor d p) else None.
Proof.
  intros Hwf Hi Ho Hn. unfold Cmod.cf_of, weighs_in, cluster_factor, positive.
  rewrite Hi, Ho, Hn. fold (external_weight d p).
  rewrite (Qeq_bool_nonneg _ (external_weight_nonneg d p Hwf)).
  destruct (Qle_bool (external_weight d p) 0);
    destruct (internal_count d p); reflexivity.
Qed.

(** What [cmod_for_file] does on a well-formed document.  When [float]
    can convert every weight it reads, CMod is the arithmetic mean of CF(P)
    over the partitions with at least one internal edge or a positive
    external weight, where
    CF(P) = 2*internal(P) / (2*internal(P) + outgoing(P) + incoming(P)) when
    the external weight of P is positive and CF(P) = 1 when it is zero;
    internal(P) counts edges, outgoing(P) and incoming(P) sum weights;
    CMod is "not available" when no partition qualifies.  Otherwise the
    function raises [OverflowError]. *)
Lemma cmod_is_mean_cluster_factor (j : json) (d : document) :
  represents j d -> wf d = true ->
  Cmod.cmod_for_file float_of_str (Ok j) =
  (if converts d then Ok (cmod d) else Raise OverflowError) /\
  (cmod d = None <->
   forall p, In p (partitions d) -> weighs_in d p = false).
Proof.
  intros Hr Hwf. split.
  { inversion Hr as [top struct bus dec ls bls d' Hl1 Hl3 Hdec Hparts Hls
                     Hlinks Hbl Hbls]; subst.
    unfold Cmod.cmod_for_file, Cmod.LAYER_KEY. cbn [bind].
    rewrite (subscript_obj _ _ _ Hl1). cbn [try_except].
    rewrite (dot_get_obj _ _ _ _ Hdec), (dot_get_obj _ _ _ _ Hls).
    cbn [bind dot_keys dot_items iterate].
    rewrite (node_map_repr _ _ Hparts). cbn [bind].
    unfold converts. destruct (forallb (weight_read_ok d) (links d)) eqn:Hok.
    - destruct (cmod_loop_repr d ls (links d) Hwf Hlinks Hok Cmod.no_tallies)
        as [t [Hloop Ht]].
      rewrite Hloop. cbn [bind]. rewrite (keys_repr _ _ Hparts).
      fold (partitions d). f_equal. rewrite mean_average. unfold cmod.
      f_equal. rewrite <- keep_some_filter. f_equal. apply map_ext.
      intros p. destruct (Ht p) as [Hi [Ho Hn]]. now apply cf_of_repr.
    - now rewrite (cmod_loop_overflow d ls (links d) Hwf Hlinks Hok). }
  unfold cmod, average. split.
  - intros H p Hp.
    destruct (weighs_in d p) eqn:Hw; [|reflexivity].
    assert (Hin : In p (filter (weighs_in d) (partitions d)))
      by (apply filter_In; now split).
    destruct (filter (weighs_in d) (partitions d)); [contradiction|].
    discriminate.
  - intros H.
    destruct (filter (weighs_in d) (partitions d)) as [|p l] eqn:Hf;
      [reflexivity|].
    assert (Hin : In p (filter (weighs_in d) (partitions d)))
      by (rewrite Hf; now left).
    apply filter_In in Hin as [Hp Hw]. rewrite (H p Hp) in Hw.
    discriminate.
Qed.

(** ** The weight of an edge *)

Lemma weight_absent (m : list (string * json)) :
  sget m "weight" = None ->
  Cmod.weight_used float_of_str (JObj m) = Ok 1%Q.
Proof.
  intros H. unfold Cmod.weight_used. now rewrite dot_get_absent.
Qed.

Lemma weight_unusable (m : list (string * json)) (v : json) (x : exn) :
  sget m "weight" = Some v -> float_ float_of_str v = Raise x ->
  Cmod.weight_used float_of_str (JObj m) = Raise x.
Proof.
  intros H Hx. unfold Cmod.weight_used.
  rewrite (dot_get_obj _ _ _ _ H). exact Hx.
Qed.

Lemma classify_known (n2p : list (hkey * string))
    (m : list (string * json)) (src dst : json) (ps pd : string) :
  sget m "source" = Some src -> sget m "target" = Some dst ->
  Cmod.is_None src = false -> Cmod.is_None dst = false ->
  lookup n2p src = Ok (Some ps) -> lookup n2p dst = Ok (Some pd) ->
  Cmod.classify float_of_str n2p (JObj m) =
  (w <- Cmod.weight_used float_of_str (JObj m) ;;
   if ps =? pd then Ok (Cmod.Internal ps) else Ok (Cmod.Cross ps pd w)).
Proof.
  intros Hs Ht Hns Hnd Hps Hpd. unfold Cmod.classify.
  rewrite (dot_get_obj _ _ _ _ Hs), (dot_get_obj _ _ _ _ Ht). cbn [bind].
  rewrite Hns, Hnd. cbn [orb]. rewrite Hps, Hpd. reflexivity.
Qed.

(** C8, as the code has it.  For an edge descriptor between two known
    nodes: when the weight field is absent the weight used is 1; when it
    is present and [float] cannot convert it, the exception of [float]
    leaves the loop over the links, and with it the computation. *)
Theorem weight_defaults_only_when_absent
    (n2p : list (hkey * string)) (m : list (string * json))
    (src dst : json) (ps pd : string) :
  sget m "source" = Some src -> sget m "target" = Some dst ->
  Cmod.is_None src = false -> Cmod.is_None dst = false ->
  lookup n2p src = Ok (Some ps) -> lookup n2p dst = Ok (Some pd) ->
  (sget m "weight" = None ->
   Cmod.weight_used float_of_str (JObj m) = Ok 1%Q /\
   Cmod.classify float_of_str n2p (JObj m) =
   Ok (if ps =? pd then Cmod.Internal ps else Cmod.Cross ps pd 1%Q)) /\
  (forall v x,
     sget m "weight" = Some v -> float_ float_of_str v = Raise x ->
     Cmod.classify float_of_str n2p (JObj m) = Raise x /\
     forall es1 es2 t t1,
       for_each (Cmod.step float_of_str n2p) es1 t = Ok t1 ->
       for_each (Cmod.step float_of_str n2p) (es1 ++ JObj m :: es2) t =
       Raise x).
Proof.
  intros Hs Ht Hns Hnd Hps Hpd.
  pose proof (classify_known n2p m src dst ps pd Hs Ht Hns Hnd Hps Hpd)
    as Hc.
  split.
  - intros Hw. split; [now apply weight_absent|].
    rewrite Hc, (weight_absent m Hw). cbn [bind].
    now destruct (ps =? pd).
  - intros v x Hw Hx.
    assert (Hcl : Cmod.classify float_of_str n2p (JObj m) = Raise x).
    { now rewrite Hc, (weight_unusable m v x Hw Hx). }
    split; [exact Hcl|]. intros es1 es2 t t1 H1.
    rewrite for_each_app, H1. cbn [bind for_each].
    unfold Cmod.step at 1. now rewrite Hcl.
Qed.

End WithFloat.

(** Scenario 2: partition P has two internal edges, one edge out and one
    edge in, so CF(P) = 4/6. *)
Lemma modularity_scenario :
  represents Scenario.json2 Scenario.doc2 /\
  wf Scenario.doc2 = true /\
  Cmod.cmod_for_file Scenario.no_str (Ok Scenario.json2) =
  Ok (cmod Scenario.doc2) /\
  (cluster_factor Scenario.doc2 "P" == 4 / 6)%Q.
Proof.
  split; [exact ScenarioFacts.represents2|]. split; [reflexivity|]. split.
  - exact (proj1 (cmod_is_mean_cluster_factor Scenario.no_str
                    Scenario.json2 Scenario.doc2
                    ScenarioFacts.represents2 eq_refl)).
  - reflexivity.
Qed.

(** An edge inside a partition whose weight is the integer 10^400: the
    weight plays no part in CMod, and converting it raises all the same. *)
Lemma huge_weight_raises :
  Cmod.cmod_for_file Scenario.no_str (Ok Cases.json2_huge) =
  Raise OverflowError.
Proof. vm_compute. reflexivity. Qed.

(** C3, at the failing input.  One edge of weight 0, a weight the data
    model allows, joins partitions A and B of a well-formed document.  Each
    of the two has an external edge, so the claim averages CF over both, and
    CF is 1 where the external weight is not positive: CMod = 1.  The
    script tests the sum of the weights, [ext_w == 0 and intra == 0], takes
    both partitions for edgeless and reports "not available". *)
Theorem cmod_zero_weight_edge :
  represents Scenario.json_zero Scenario.doc_zero /\
  wf Scenario.doc_zero = true /\
  converts Scenario.doc_zero = true /\
  has_edge Scenario.doc_zero "A" = true /\
  has_edge Scenario.doc_zero "B" = true /\
  cmod_claimed Scenario.doc_zero = Some (2 # 2)%Q /\
  (forall float_of_str,
     Cmod.cmod_for_file float_of_str (Ok Scenario.json_zero) = Ok None).
Proof.
  split; [exact ScenarioFacts.represents_zero|]. repeat split.
Qed.

Lemma weight_defaults_only_when_absent_witness :
  Cmod.weight_used Scenario.no_str (Scenario.jlink "a" "b") = Ok 1%Q /\
  Cmod.classify Scenario.no_str (node_map Scenario.dec_zero [])
    (Scenario.jlink "a" "b") =
  Ok (Cmod.Cross "A" "B" 1%Q).
Proof.
  apply (proj1 (weight_defaults_only_when_absent Scenario.no_str
                  (node_map Scenario.dec_zero [])
                  [("source", JStr "a"); ("target", JStr "b")]
                  (JStr "a") (JStr "b") "A" "B"
                  eq_refl eq_refl eq_refl eq_refl eq_refl eq_refl)).
  reflexivity.
Defined.

(** C8 as stated fails: a weight of [null] on an edge between known nodes
    makes the modularity computation raise [TypeError]. *)
Lemma null_weight_raises :
  Cmod.cmod_for_file Scenario.no_str (Ok Scenario.json_null_weight) =
  Raise TypeError.
Proof. reflexivity. Qed.

End CmodFacts.

(* ================================================================== *)
(** * Service coupling factor *)
(* ================================================================== *)

Module ScfFacts.
Import Py Doc PyFacts DocFacts.
Local Open Scope nat_scope.
Local Open Scope string_scope.
Local Open Scope list_scope.

Lemma truthy_Some (p : string) : truthy (Some p) = negb (p =? EmptyString).
Proof. reflexivity. Qed.

Lemma named_partition (d : document) (x p : string) :
  named d = true -> partition_of d x = Some p -> (p =? EmptyString) = false.
Proof.
  unfold named. rewrite forallb_forall. intros Hn Hp.
  apply partition_of_In in Hp. apply Hn in Hp. now apply negb_true_iff.
Qed.

Lemma named_between (d : document) (l : link) :
  named d = true -> is_between_named d l = is_between d l.
Proof.
  intros Hn. unfold is_between_named, is_between, place.
  destruct (partition_of d (source l)) as [p|] eqn:Hp; [|reflexivity].
  destruct (partition_of d (target l)) as [q|] eqn:Hq; [|reflexivity].
  destruct (p =? q); [reflexivity|].
  now rewrite (named_partition d _ _ Hn Hp), (named_partition d _ _ Hn Hq).
Qed.

(** The truth test drops an edge with an end in a partition named by the
    empty string. *)
Lemma scf_classify_repr (d : document) (e : json) (l : link) :
  wf d = true -> repr_link e l ->
  Scf.classify (node_map (decomposition d) []) e =
  Ok (match place d l with
      | Between p q =>
          if negb (p =? EmptyString) && negb (q =? EmptyString)
          then Scf.Cross p q
          else Scf.Skip
      | _ => Scf.Skip
      end).
Proof.
  intros Hwf Hr. inversion Hr as [m l' Hs Ht Hw]; subst.
  unfold Scf.classify, place.
  rewrite (dot_get_obj _ _ _ _ Hs), (dot_get_obj _ _ _ _ Ht). cbn [bind].
  rewrite !lookup_node by assumption. cbn [bind].
  destruct (partition_of d (source l)) as [p|]; [|reflexivity].
  destruct (partition_of d (target l)) as [q|];
    [|cbn [truthy]; now rewrite andb_false_r].
  rewrite !truthy_Some.
  destruct (p =? q); cbn iota;
    destruct (negb (p =? EmptyString) && negb (q =? EmptyString)); reflexivity.
Qed.

Lemma scf_loop_repr (d : document) (es : list json) (ls : list link) :
  wf d = true -> Forall2 repr_link es ls ->
  forall n,
    for_each (Scf.step (node_map (decomposition d) [])) es n =
    Ok (n + List.length (filter (is_between_named d) ls)).
Proof.
  intros Hwf. induction 1 as [|e l es ls He _ IH]; intros n.
  - simpl. f_equal. lia.
  - cbn [for_each filter]. unfold Scf.step at 1.
    rewrite (scf_classify_repr d e l Hwf He). cbn [bind].
    unfold is_between_named at 1.
    destruct (place d l) as [|p|p q]; cbn [bind]; try apply IH.
    destruct (negb (p =? EmptyString) && negb (q =? EmptyString)); cbn [bind].
    + rewrite IH. f_equal. simpl. lia.
    + apply IH.
Qed.

(** The two counters on a well-formed document. *)
Lemma counts_repr (top struct bus : list (string * json)) (d : document) :
  represents (JObj top) d -> wf d = true ->
  sget top "1_structural_static" = Some (JObj struct) ->
  Scf.counts (JObj struct) =
  Ok (List.length (partitions d),
      List.length (filter (is_between_named d) (links d))).
Proof.
  intros Hr Hwf Hst.
  inversion Hr as [top' struct' bus' dec ls bls d' Hl1 Hl3 Hdec Hparts Hls
                   Hlinks Hbl Hbls]; subst.
  rewrite Hst in Hl1. inversion Hl1; subst struct'.
  unfold Scf.counts.
  rewrite (dot_get_obj _ _ _ _ Hdec), (dot_get_obj _ _ _ _ Hls).
  cbn [bind dot_keys dot_items iterate].
  rewrite (node_map_repr _ _ Hparts). cbn [bind].
  rewrite (scf_loop_repr d ls (links d) Hwf Hlinks). cbn [bind].
  rewrite (keys_repr _ _ Hparts), sorted_length. reflexivity.
Qed.

(** A cross-partition edge needs two partitions. *)
Lemma between_needs_partitions (d : document) :
  0 < cross_edges d -> 0 < List.length (partitions d).
Proof.
  unfold cross_edges. intros H.
  destruct (filter (is_between d) (links d)) as [|l ls] eqn:Hf;
    [simpl in H; lia|].
  assert (Hl : In l (filter (is_between d) (links d)))
    by (rewrite Hf; now left).
  apply filter_In in Hl as [_ Hl]. unfold is_between, place in Hl.
  destruct (partition_of d (source l)) as [p|] eqn:Hp; [|discriminate].
  apply partition_of_In in Hp.
  destruct (partitions d); [contradiction | simpl; lia].
Qed.

(** ** The value *)

Lemma scf_value_zero (s e : nat) : s + e = 0 -> Scf.scf_value s e = 0%R.
Proof.
  intros H. unfold Scf.scf_value.
  replace (e + s) with 0 by lia. reflexivity.
Qed.

Lemma scf_value_sqrt (s e : nat) :
  0 < s + e -> Scf.scf_value s e = sqrt (INR s / INR (s + e)).
Proof.
  intros H. unfold Scf.scf_value.
  destruct (Nat.eqb_spec (e + s) 0) as [E|E]; [lia|].
  now rewrite (Nat.add_comm e s).
Qed.

Lemma scf_value_pos (s e : nat) : 0 < s -> (0 < Scf.scf_value s e)%R.
Proof.
  intros H. rewrite scf_value_sqrt by lia. apply sqrt_lt_R0.
  apply Rdiv_lt_0_compat; apply lt_0_INR; lia.
Qed.

Lemma scf_value_zero_iff (s e : nat) :
  (0 < e -> 0 < s) -> (Scf.scf_value s e = 0%R <-> s + e = 0).
Proof.
  intros Hes. split.
  - intros Hz. destruct s as [|s].
    + destruct e; [reflexivity|]. assert (0 < 0) by (apply Hes; lia). lia.
    + pose proof (scf_value_pos (S s) e ltac:(lia)) as Hpos.
      rewrite Hz in Hpos. exfalso. now apply (Rlt_irrefl 0%R).
  - apply scf_value_zero.
Qed.

(** The general statement behind the claim about SCF: on a well-formed
    document whose partition identifiers are all non-empty. *)
Lemma scf_for_file_repr (j : json) (d : document) :
  represents j d -> wf d = true -> named d = true ->
  let S := List.length (partitions d) in
  let E := cross_edges d in
  exists r,
    Scf.scf_for_file (Ok j) = Ok (Some r) /\
    Scf.services r = S /\
    Scf.external_edges r = E /\
    (S + E = 0 -> Scf.SCF r = 0%R) /\
    (0 < S + E -> Scf.SCF r = sqrt (INR S / INR (S + E))) /\
    (Scf.SCF r = 0%R <-> S + E = 0).
Proof.
  intros Hr Hwf Hn S E.
  pose proof Hr as Hr'.
  inversion Hr' as [top struct bus dec ls bls d' Hl1 Hl3 Hdec Hparts Hls
                    Hlinks Hbl Hbls]; subst.
  unfold Scf.scf_for_file, Scf.LAYER_KEY. cbn [bind].
  rewrite (subscript_obj _ _ _ Hl1). cbn [try_except].
  rewrite (counts_repr top struct bus d Hr Hwf Hl1). cbn [bind].
  assert (HE : List.length (filter (is_between_named d) (links d)) = E).
  { unfold E, cross_edges. f_equal. apply filter_ext. intros l.
    now apply named_between. }
  rewrite HE. eexists. split; [reflexivity|].
  cbn [Scf.services Scf.external_edges Scf.SCF].
  split; [reflexivity|]. split; [reflexivity|].
  split; [apply scf_value_zero|]. split; [apply scf_value_sqrt|].
  apply scf_value_zero_iff. apply between_needs_partitions.
Qed.

(** Scenario 3: four partitions and two cross-partition edges give
    sqrt(4/6). *)
Lemma coupling_scenario :
  exists r,
    Scf.scf_for_file (Ok Scenario.json3) = Ok (Some r) /\
    Scf.services r = 4 /\ Scf.external_edges r = 2 /\
    Scf.SCF r = sqrt (INR 4 / INR (4 + 2)).
Proof.
  destruct (scf_for_file_repr Scenario.json3 Scenario.doc3
              ScenarioFacts.represents3 eq_refl eq_refl)
    as [r [H1 [H2 [H3 [_ [H4 _]]]]]].
  exists r. split; [exact H1|]. split; [exact H2|]. split; [exact H3|].
  apply H4. simpl. lia.
Qed.

(** C4, at the failing input.  A well-formed document with two
    partitions, one of them with the empty string as identifier, and two
    cross-partition edges: the script counts no external edge and returns
    SCF = sqrt(2/2) = 1, not sqrt(2/(2+2)). *)
Theorem empty_partition_id_miscounts_edges :
  represents Scenario.json_anon Scenario.doc_anon /\
  wf Scenario.doc_anon = true /\
  List.length (partitions Scenario.doc_anon) = 2 /\
  cross_edges Scenario.doc_anon = 2 /\
  exists r,
    Scf.scf_for_file (Ok Scenario.json_anon) = Ok (Some r) /\
    Scf.services r = 2 /\
    Scf.external_edges r = 0 /\
    Scf.SCF r = 1%R /\
    Scf.SCF r <> sqrt (INR 2 / INR (2 + 2)).
Proof.
  split; [exact ScenarioFacts.represents_anon|].
  split; [reflexivity|]. split; [reflexivity|]. split; [reflexivity|].
  assert (Hc : Scf.counts
                 (JObj [("decomposition",
                         JObj (map Scenario.jpart Scenario.dec_anon));
                        ("links", JArr [Scenario.jlink "a" "b";
                                        Scenario.jlink "b" "a"])])
               = Ok (2, 0)) by reflexivity.
  assert (H1 : Scf.scf_value 2 0 = 1%R).
  { rewrite scf_value_sqrt by lia. simpl INR.
    replace ((1 + 1) / (1 + 1))%R with 1%R by (field; Lra.lra).
    apply sqrt_1. }
  eexists. split.
  - unfold Scf.scf_for_file, Scenario.json_anon, Scenario.jdoc,
      Scf.LAYER_KEY.
    cbn [bind subscript sget dict_get String.eqb Ascii.eqb Bool.eqb
         try_except].
    rewrite Hc. cbn [bind]. reflexivity.
  - cbn [Scf.services Scf.external_edges Scf.SCF].
    split; [reflexivity|]. split; [reflexivity|]. split; [exact H1|].
    rewrite H1. intros H.
    assert (Hlt : (sqrt (INR 2 / INR (2 + 2)) < sqrt 1)%R).
    { apply sqrt_lt_1_alt.
      replace (INR 2 / INR (2 + 2))%R with (/ 2)%R by (simpl; field).
      split; Lra.lra. }
    rewrite sqrt_1 in Hlt. Lra.lra.
Qed.

End ScfFacts.

(* ================================================================== *)
(** * Medians and the size dispersion *)
(* ================================================================== *)

Module SmadFacts.
Import Py Doc PyFacts DocFacts.
Local Open Scope nat_scope.
Local Open Scope string_scope.
Local Open Scope list_scope.

Lemma insert_sorted_Q_perm (x : Q) (l : list Q) :
  Permutation (insert_sorted_Q x l) (x :: l).
Proof.
  induction l as [|y l IH]; simpl.
  - reflexivity.
  - destruct (Qle_bool x y).
    + reflexivity.
    + rewrite IH. apply perm_swap.
Qed.

Lemma sorted_Q_perm (l : list Q) : Permutation (sorted_Q l) l.
Proof.
  induction l as [|x l IH]; simpl.
  - constructor.
  - rewrite insert_sorted_Q_perm. now constructor.
Qed.

Lemma sorted_Q_length (l : list Q) :
  List.length (sorted_Q l) = List.length l.
Proof. apply Permutation_length, sorted_Q_perm. Qed.

(** [statistics.median] returns on every non-empty list. *)
Lemma median_ok (l : list Q) : l <> [] -> exists m, median l = Ok m.
Proof.
  intros Hne. unfold median. rewrite sorted_Q_length.
  destruct l as [|x l]; [congruence|]. cbn [List.length Nat.eqb].
  destruct (S (List.length l) mod 2 =? 1)%nat; eauto.
Qed.

Lemma median_empty : median [] = Raise StatisticsError.
Proof. reflexivity. Qed.

(** The median of non-negative numbers is non-negative. *)
Lemma median_nonneg (l : list Q) (m : Q) :
  Forall (fun x => 0 <= x)%Q l -> median l = Ok m -> (0 <= m)%Q.
Proof.
  intros Hl. unfold median.
  assert (Hs : Forall (fun x => 0 <= x)%Q (sorted_Q l)).
  { rewrite Forall_forall in *. intros x Hx. apply Hl.
    eapply Permutation_in; [apply sorted_Q_perm | exact Hx]. }
  assert (Hnth : forall i, (0 <= nth i (sorted_Q l) 0)%Q).
  { intros i. destruct (Nat.lt_ge_cases i (List.length (sorted_Q l))).
    - rewrite Forall_forall in Hs. now apply Hs, nth_In.
    - rewrite nth_overflow by assumption. apply Qle_refl. }
  destruct (List.length (sorted_Q l) =? 0)%nat; [discriminate|].
  destruct (List.length (sorted_Q l) mod 2 =? 1)%nat; intros [= <-].
  - apply Hnth.
  - apply Qle_shift_div_l; [reflexivity|].
    replace (0 * 2)%Q with (0 + 0)%Q by reflexivity.
    apply Qplus_le_compat; apply Hnth.
Qed.

(** A median absolute deviation is non-negative. *)
Lemma median_abs_dev_nonneg (xs : list Q) (med mad : Q) :
  median_abs_dev xs med = Ok mad -> (0 <= mad)%Q.
Proof.
  unfold median_abs_dev. apply median_nonneg.
  apply Forall_forall. intros y Hy. apply in_map_iff in Hy as [x [<- _]].
  apply Qabs_nonneg.
Qed.

Lemma median_abs_dev_ok (xs : list Q) (med : Q) :
  xs <> [] -> exists mad, median_abs_dev xs med = Ok mad.
Proof.
  intros H. apply median_ok. destruct xs; [congruence | discriminate].
Qed.

(** ** The sizes *)




End SmadFacts.

(* ================================================================== *)
(** * The longest-path search *)
(* ================================================================== *)

Module DfsFacts.
Import Py Graph PyFacts.
Import Dccmd (visit_uncached, dfs_uncached).
Local Open Scope nat_scope.
Local Open Scope string_scope.
Local Open Scope list_scope.

Lemma In_set_add (x y : string) (s : list string) :
  In y (set_add x s) <-> y = x \/ In y s.
Proof.
  rewrite <- !mem_In, mem_set_add, orb_true_iff, String.eqb_eq. tauto.
Qed.

Lemma NoDup_set_add (x : string) (s : list string) :
  NoDup s -> NoDup (set_add x s).
Proof.
  intros Hs. unfold set_add. destruct (mem x s) eqn:Hx; [assumption|].
  apply NoDup_app; [assumption | repeat constructor; intros [] |].
  intros a Ha [<-|[]]. apply mem_false in Hx. contradiction.
Qed.

Lemma length_set_add (x : string) (s : list string) :
  mem x s = false -> List.length (set_add x s) = S (List.length s).
Proof.
  intros Hx. unfold set_add. rewrite Hx, length_app. simpl. lia.
Qed.

(** ** The function under the decorator: the loop over the successors *)

Section Visit.

Variable rec : string -> list string -> result nat.
Variable seen : list string.

Lemma visit_stuck (l : list string) (acc : result nat) :
  (forall best, acc <> Ok best) ->
  fold_left (visit_uncached rec seen) l acc = acc.
Proof.
  induction l as [|x l IH]; intros Hacc; simpl.
  - reflexivity.
  - destruct acc as [best|e]; simpl; [now elim (Hacc best)|].
    apply IH. discriminate.
Qed.

(** When the loop returns [d]: [d] is the start value or one more than the
    result of a call, and no call gave more. *)
Lemma visit_returns (l : list string) (best d : nat) :
  fold_left (visit_uncached rec seen) l (Ok best) = Ok d ->
  best <= d /\
  (d = best \/
   exists nxt d', In nxt l /\ mem nxt seen = false /\
                  rec nxt (set_add nxt seen) = Ok d' /\ d = 1 + d') /\
  (forall nxt, In nxt l -> mem nxt seen = false ->
     exists d', rec nxt (set_add nxt seen) = Ok d' /\ 1 + d' <= d).
Proof.
  revert best. induction l as [|x l IH]; intros best; simpl.
  - intros [= <-]. split; [lia|]. split; [now left|]. contradiction.
  - destruct (mem x seen) eqn:Hx.
    + intros H. destruct (IH best H) as [H1 [H2 H3]].
      split; [assumption|]. split.
      * destruct H2 as [H2|[nxt [d' [Hin H2]]]]; [now left|].
        right. exists nxt, d'. split; [now right | assumption].
      * intros nxt [->|Hin] Hm; [congruence | now apply H3].
    + destruct (rec x (set_add x seen)) as [dx|e] eqn:Hrec.
      * intros H. destruct (IH _ H) as [H1 [H2 H3]].
        split; [lia|]. split.
        -- destruct H2 as [H2|[nxt [d' [Hin H2]]]].
           ++ destruct (Nat.max_spec best (1 + dx)) as [[_ Hmx]|[_ Hmx]].
              ** right. exists x, dx. repeat split; try assumption.
                 now left. lia.
              ** left. lia.
           ++ right. exists nxt, d'. split; [now right | assumption].
        -- intros nxt [->|Hin] Hm; [|now apply H3].
           exists dx. split; [assumption | lia].
      * rewrite visit_stuck by discriminate. discriminate.
Qed.

(** The loop returns when every call does. *)
Lemma visit_total (l : list string) (best : nat) :
  (forall nxt, In nxt l -> mem nxt seen = false ->
     exists d', rec nxt (set_add nxt seen) = Ok d') ->
  exists d, fold_left (visit_uncached rec seen) l (Ok best) = Ok d.
Proof.
  revert best. induction l as [|x l IH]; intros best Hall; simpl.
  - eauto.
  - destruct (mem x seen) eqn:Hx.
    + apply IH. intros nxt Hin. apply Hall. now right.
    + destruct (Hall x (or_introl eq_refl) Hx) as [dx Hdx]. rewrite Hdx.
      apply IH. intros nxt Hin. apply Hall. now right.
Qed.

(** An exception that leaves the loop is the exception of a call. *)
Lemma visit_raises (l : list string) (best : nat) (e : exn) :
  fold_left (visit_uncached rec seen) l (Ok best) = Raise e ->
  exists nxt, In nxt l /\ mem nxt seen = false /\
              rec nxt (set_add nxt seen) = Raise e.
Proof.
  revert best. induction l as [|x l IH]; intros best; simpl.
  - discriminate.
  - destruct (mem x seen) eqn:Hx.
    + intros H. destruct (IH best H) as [nxt [Hin H']].
      exists nxt. split; [now right | assumption].
    + destruct (rec x (set_add x seen)) as [dx|ex] eqn:Hrec.
      * intros H. destruct (IH _ H) as [nxt [Hin H']].
        exists nxt. split; [now right | assumption].
      * rewrite visit_stuck by discriminate. intros [= ->].
        exists x. split; [now left|]. now split.
Qed.

End Visit.

(** The loop looks at [rec] on the successors outside [seen] only. *)
Lemma visit_uncached_agree (rec rec' : string -> list string -> result nat)
    (seen : list string) (l : list string) (acc : result nat) :
  (forall nxt, In nxt l -> mem nxt seen = false ->
     rec nxt (set_add nxt seen) = rec' nxt (set_add nxt seen)) ->
  fold_left (visit_uncached rec seen) l acc =
  fold_left (visit_uncached rec' seen) l acc.
Proof.
  revert acc. induction l as [|x l IH]; intros acc Hrec; simpl.
  - reflexivity.
  - assert (Hrest : forall nxt, In nxt l -> mem nxt seen = false ->
                      rec nxt (set_add nxt seen) = rec' nxt (set_add nxt seen)).
    { intros nxt Hin. apply Hrec. now right. }
    rewrite (IH _ Hrest). f_equal. unfold visit_uncached.
    destruct acc as [best|e]; [|reflexivity].
    destruct (mem x seen) eqn:Hx; [reflexivity|].
    now rewrite (Hrec x (or_introl eq_refl) Hx).
Qed.

(** ** How many services are left to see *)

Lemma remaining_le (adj : Dccmd.graph) (seen : list string) :
  remaining adj seen <= List.length adj.
Proof.
  unfold remaining, dict_keys.
  rewrite <- (length_map fst adj). apply filter_length_le.
Qed.

Lemma filter_shrinks (f g : string -> bool) (l : list string) (x : string) :
  (forall y, g y = true -> f y = true) ->
  In x l -> f x = true -> g x = false ->
  List.length (filter g l) < List.length (filter f l).
Proof.
  intros Hgf. induction l as [|y l IH]; simpl; intros Hin Hf Hg.
  - contradiction.
  - assert (Hle : List.length (filter g l) <= List.length (filter f l)).
    { clear - Hgf. induction l as [|z l IH]; simpl; [lia|].
      destruct (g z) eqn:Hz.
      - rewrite (Hgf z Hz). simpl. lia.
      - destruct (f z); simpl; lia. }
    destruct Hin as [->|Hin].
    + rewrite Hf, Hg. simpl. lia.
    + specialize (IH Hin Hf Hg). destruct (g y) eqn:Hy.
      * rewrite (Hgf y Hy). simpl. lia.
      * destruct (f y); simpl; lia.
Qed.

(** Seeing one more key leaves fewer keys. *)
Lemma remaining_decreases (adj : Dccmd.graph) (seen : list string)
    (nxt : string) :
  In nxt (dict_keys adj) -> mem nxt seen = false ->
  remaining adj (set_add nxt seen) < remaining adj seen.
Proof.
  intros Hk Hs. unfold remaining. apply filter_shrinks with (x := nxt).
  - intros y. rewrite !negb_true_iff, mem_set_add. intros H.
    apply orb_false_iff in H. tauto.
  - assumption.
  - now rewrite Hs.
  - rewrite mem_set_add, String.eqb_refl. reflexivity.
Qed.

Lemma remaining_start (adj : Dccmd.graph) (start : string) :
  In start (dict_keys adj) -> remaining adj [start] < List.length adj.
Proof.
  intros Hk. unfold remaining.
  replace (List.length adj)
    with (List.length (filter (fun _ => true) (dict_keys adj)))
    by (rewrite filter_true; apply length_map).
  apply filter_shrinks with (x := start); auto.
  simpl. now rewrite String.eqb_refl.
Qed.

(** ** What the function returns *)

Lemma dfs_sound (room : nat) (adj : Dccmd.graph) (node : string)
    (seen : list string) (d : nat) :
  dfs_uncached room adj node seen = Ok d ->
  longest_fresh (edge adj) seen node d.
Proof.
  revert node seen d. induction room as [|room IH]; intros node seen d.
  - discriminate.
  - simpl. destruct (sget adj node) as [succs|] eqn:Hn; [|discriminate].
    intros H. apply visit_returns in H as [_ [Hex Hmax]]. split.
    + destruct Hex as [->|[nxt [d' [Hin [Hm [Hrec ->]]]]]].
      * exists []. split; [|reflexivity].
        split; [constructor | split; [constructor | contradiction]].
      * apply IH in Hrec as [[p [[Hch [Hnd Hfr]] Hlen]] _].
        exists (nxt :: p). split; [|simpl; lia].
        split; [|split].
        -- constructor; [|assumption]. now exists succs.
        -- constructor; [|assumption]. intros Hp. apply (Hfr _ Hp).
           apply In_set_add. now left.
        -- intros x [<-|Hx].
           ++ now apply mem_false.
           ++ intros Hs. apply (Hfr _ Hx). apply In_set_add. now right.
    + intros p [Hch [Hnd Hfr]].
      inversion Hch as [|u v p' [succs' [Hs' Hv]] Hch']; subst; [simpl; lia|].
      rewrite Hn in Hs'. inversion Hs'; subst succs'.
      assert (Hm : mem v seen = false).
      { apply mem_false. apply Hfr. now left. }
      destruct (Hmax v Hv Hm) as [d' [Hrec Hle]].
      apply IH in Hrec as [_ Hbest].
      assert (Hp' : fresh_path (edge adj) (set_add v seen) v p').
      { inversion Hnd; subst. split; [assumption|]. split; [assumption|].
        intros x Hx Hs. apply In_set_add in Hs as [->|Hs].
        - contradiction.
        - apply (Hfr x); [now right | assumption]. }
      specialize (Hbest p' Hp'). simpl. lia.
Qed.

(** A returned depth took fewer nested calls than there was room for. *)
Lemma dfs_shallow (room : nat) (adj : Dccmd.graph) (node : string)
    (seen : list string) (d : nat) :
  dfs_uncached room adj node seen = Ok d -> d < room.
Proof.
  revert node seen d. induction room as [|room IH]; intros node seen d.
  - discriminate.
  - simpl. destruct (sget adj node) as [succs|]; [|discriminate].
    intros H. apply visit_returns in H as [_ [Hex _]].
    destruct Hex as [->|[nxt [d' [_ [_ [Hrec ->]]]]]]; [lia|].
    apply IH in Hrec. lia.
Qed.

(** On a closed graph the search from a key returns when there is room for
    one call per service left to see. *)
Lemma dfs_total (room : nat) (adj : Dccmd.graph) (node : string)
    (seen : list string) :
  closed adj -> In node (dict_keys adj) -> remaining adj seen < room ->
  exists d, dfs_uncached room adj node seen = Ok d.
Proof.
  intros Hcl. revert node seen.
  induction room as [|room IH]; intros node seen Hk Hf.
  - lia.
  - simpl. destruct (In_sget _ _ _ Hk) as [succs Hn]. rewrite Hn.
    apply visit_total. intros nxt Hin Hm.
    assert (Hnk : In nxt (dict_keys adj)).
    { apply (Hcl node). now exists succs. }
    apply IH; [assumption|].
    pose proof (remaining_decreases adj seen nxt Hnk Hm). lia.
Qed.

(** On a closed graph the search from a key raises nothing but
    [RecursionError]. *)
Lemma dfs_raises (room : nat) (adj : Dccmd.graph) (node : string)
    (seen : list string) (e : exn) :
  closed adj -> In node (dict_keys adj) ->
  dfs_uncached room adj node seen = Raise e -> e = RecursionError.
Proof.
  intros Hcl. revert node seen.
  induction room as [|room IH]; intros node seen Hk.
  - simpl. now intros [= <-].
  - simpl. destruct (In_sget _ _ _ Hk) as [succs Hn]. rewrite Hn.
    intros H. apply visit_raises in H as [nxt [Hin [_ Hrec]]].
    apply (IH nxt (set_add nxt seen)); [|assumption].
    apply (Hcl node). now exists succs.
Qed.

(** ** More room *)

Lemma visit_uncached_mono (rec rec' : string -> list string -> result nat)
    (seen : list string) (l : list string) (acc r : result nat) :
  (forall nxt s x, x <> Raise RecursionError ->
     rec nxt s = x -> rec' nxt s = x) ->
  r <> Raise RecursionError ->
  fold_left (visit_uncached rec seen) l acc = r ->
  fold_left (visit_uncached rec' seen) l acc = r.
Proof.
  intros Hrec Hr. revert acc. induction l as [|x l IH]; intros acc; simpl.
  - trivial.
  - destruct acc as [best|e]; simpl; [|apply IH].
    destruct (mem x seen); [apply IH|].
    destruct (rec x (set_add x seen)) as [dx|ex] eqn:Hx.
    + rewrite (Hrec _ _ (Ok dx)); [apply IH | discriminate | assumption].
    + rewrite visit_stuck by discriminate. intros <-.
      rewrite (Hrec _ _ (Raise ex) Hr Hx). apply visit_stuck. discriminate.
Qed.

(** What the function does with some room, [RecursionError] apart, it does
    with more. *)
Lemma uncached_more_room (room : nat) (adj : Dccmd.graph) (node : string)
    (seen : list string) (r : result nat) :
  r <> Raise RecursionError ->
  dfs_uncached room adj node seen = r ->
  dfs_uncached (S room) adj node seen = r.
Proof.
  revert node seen r. induction room as [|room IH]; intros node seen r Hr.
  - simpl. intros <-. now elim Hr.
  - intros H. simpl in H. cbn [dfs_uncached].
    destruct (sget adj node) as [succs|]; [|exact H].
    revert H. apply visit_uncached_mono; [|assumption].
    intros nxt s x. apply IH.
Qed.

Lemma uncached_mono (room room' : nat) (adj : Dccmd.graph) (node : string)
    (seen : list string) (r : result nat) :
  room <= room' -> r <> Raise RecursionError ->
  dfs_uncached room adj node seen = r ->
  dfs_uncached room' adj node seen = r.
Proof.
  intros Hle Hr. induction Hle as [|room' _ IH]; intros H.
  - assumption.
  - apply uncached_more_room; [assumption | now apply IH].
Qed.

Lemma uncached_det (f1 f2 : nat) (adj : Dccmd.graph) (node : string)
    (seen : list string) (r1 r2 : result nat) :
  r1 <> Raise RecursionError -> r2 <> Raise RecursionError ->
  dfs_uncached f1 adj node seen = r1 ->
  dfs_uncached f2 adj node seen = r2 -> r1 = r2.
Proof.
  intros Hr1 Hr2 H1 H2.
  apply (uncached_mono f1 (Nat.max f1 f2)) in H1; [|lia | assumption].
  apply (uncached_mono f2 (Nat.max f1 f2)) in H2; [|lia | assumption].
  congruence.
Qed.

(** A depth the function returns with some room, it returns with any room
    above that depth. *)
Lemma uncached_enough (room big : nat) (adj : Dccmd.graph) (node : string)
    (seen : list string) (d : nat) :
  dfs_uncached big adj node seen = Ok d -> d < room ->
  dfs_uncached room adj node seen = Ok d.
Proof.
  revert big node seen d.
  induction room as [|room IH]; intros big node seen d Hbig Hd; [lia|].
  destruct big as [|big]; [discriminate|].
  cbn [dfs_uncached] in *.
  destruct (sget adj node) as [succs|]; [|discriminate].
  rewrite <- Hbig. apply visit_uncached_agree. intros nxt Hin Hm.
  apply visit_returns in Hbig as [_ [_ Hall]].
  destruct (Hall nxt Hin Hm) as [d' [Hd' Hle]].
  rewrite Hd'. apply (IH big); [assumption | lia].
Qed.

(** ** Simple paths *)

Lemma fresh_simple (R : string -> string -> Prop) (u : string)
    (p : list string) :
  fresh_path R [u] u p <-> simple_path R u p.
Proof.
  unfold fresh_path, simple_path. split.
  - intros [Hch [Hnd Hfr]]. split; [assumption|]. constructor; [|assumption].
    intros Hu. apply (Hfr u Hu). now left.
  - intros [Hch Hnd]. inversion Hnd; subst. split; [assumption|].
    split; [assumption|]. intros x Hx [->|[]]. contradiction.
Qed.

Lemma longest_fresh_simple (R : string -> string -> Prop) (u : string)
    (d : nat) :
  longest_fresh R [u] u d <-> longest_from R u d.
Proof.
  unfold longest_fresh, longest_from. split; intros [[p [Hp Hl]] Hmax].
  - split.
    + exists p. split; [now apply fresh_simple | assumption].
    + intros q Hq. apply Hmax. now apply fresh_simple.
  - split.
    + exists p. split; [now apply fresh_simple | assumption].
    + intros q Hq. apply Hmax. now apply fresh_simple.
Qed.

Lemma longest_fresh_unique (R : string -> string -> Prop)
    (seen : list string) (u : string) (d d' : nat) :
  longest_fresh R seen u d -> longest_fresh R seen u d' -> d = d'.
Proof.
  intros [[p [Hp Hl]] Hmax] [[p' [Hp' Hl']] Hmax'].
  specialize (Hmax p' Hp'). specialize (Hmax' p Hp). lia.
Qed.

Lemma chain_keys (adj : Dccmd.graph) (u : string) (p : list string) :
  closed adj -> chain (edge adj) u p ->
  forall x, In x p -> In x (dict_keys adj).
Proof.
  intros Hcl. induction 1 as [|u v p He _ IH]; intros x Hx.
  - contradiction.
  - destruct Hx as [<-|Hx]; [now apply (Hcl u) | now apply IH].
Qed.

(** A simple path visits each service at most once. *)
Lemma simple_path_short (adj : Dccmd.graph) (u : string) (p : list string) :
  closed adj -> In u (dict_keys adj) -> simple_path (edge adj) u p ->
  List.length p <= List.length adj - 1.
Proof.
  intros Hcl Hu [Hch Hnd].
  assert (Hincl : incl (u :: p) (dict_keys adj)).
  { intros x [<-|Hx]; [assumption | now apply (chain_keys adj u p)]. }
  pose proof (NoDup_incl_length Hnd Hincl) as Hlen.
  unfold dict_keys in Hlen. rewrite length_map in Hlen. simpl in Hlen. lia.
Qed.

(** On a closed graph the function returns the length of the longest path
    that stays outside [seen] when it has room for more nested calls than
    that, and raises [RecursionError] when it has not. *)
Lemma uncached_exact (room : nat) (adj : Dccmd.graph) (node : string)
    (seen : list string) (d : nat) :
  closed adj -> In node (dict_keys adj) ->
  longest_fresh (edge adj) seen node d ->
  dfs_uncached room adj node seen =
  if (d <? room)%nat then Ok d else Raise RecursionError.
Proof.
  intros Hcl Hk Hd.
  destruct (dfs_total (S (List.length adj)) adj node seen Hcl Hk) as [d0 H0].
  { pose proof (remaining_le adj seen). lia. }
  assert (E : d0 = d).
  { apply dfs_sound in H0. now apply (longest_fresh_unique _ _ _ _ _ H0). }
  subst d0. destruct (Nat.ltb_spec d room) as [Hlt|Hge].
  - now apply (uncached_enough room (S (List.length adj))).
  - destruct (dfs_uncached room adj node seen) as [d1|e] eqn:H1.
    + pose proof (dfs_shallow _ _ _ _ _ H1) as Hs. apply dfs_sound in H1.
      pose proof (longest_fresh_unique _ _ _ _ _ H1 Hd). lia.
    + f_equal. now apply (dfs_raises room adj node seen).
Qed.

(** ** The cache *)

Lemma set_eqb_mem (s t : list string) :
  Dccmd.set_eqb s t = true <-> forall x, mem x s = mem x t.
Proof.
  unfold Dccmd.set_eqb. rewrite andb_true_iff, !forallb_forall. split.
  - intros [Hst Hts] x. destruct (mem x s) eqn:Hs.
    + symmetry. apply Hst. now apply mem_In.
    + destruct (mem x t) eqn:Ht; [|reflexivity].
      rewrite <- Hs. apply Hts. now apply mem_In.
  - intros H. split; intros x Hx; apply mem_In in Hx.
    + now rewrite <- H.
    + now rewrite H.
Qed.

Lemma args_eqb_cong (a b c : string * list string) :
  Dccmd.args_eqb a b = true -> Dccmd.args_eqb a c = Dccmd.args_eqb b c.
Proof.
  unfold Dccmd.args_eqb. intros H. apply andb_true_iff in H as [Hn Hs].
  apply String.eqb_eq in Hn. rewrite Hn. f_equal.
  rewrite set_eqb_mem in Hs.
  destruct (Dccmd.set_eqb (snd a) (snd c)) eqn:Hac;
    destruct (Dccmd.set_eqb (snd b) (snd c)) eqn:Hbc; try reflexivity.
  - rewrite set_eqb_mem in Hac. rewrite <- Hbc. symmetry.
    apply set_eqb_mem. intros x. now rewrite <- Hs, Hac.
  - rewrite set_eqb_mem in Hbc. rewrite <- Hac.
    apply set_eqb_mem. intros x. now rewrite Hs, Hbc.
Qed.

Lemma cache_get_put (c : Dccmd.cache) (node : string) (seen : list string)
    (d : nat) (node' : string) (seen' : list string) :
  Dccmd.cache_get (Dccmd.cache_put c node seen d) node' seen' =
  if Dccmd.args_eqb (node, seen) (node', seen') then Some d
  else Dccmd.cache_get c node' seen'.
Proof.
  unfold Dccmd.cache_get, Dccmd.cache_put.
  induction c as [|[k0 v0] c IH]; simpl.
  - reflexivity.
  - destruct (Dccmd.args_eqb k0 (node, seen)) eqn:E; simpl.
    + rewrite (args_eqb_cong _ _ (node', seen') E).
      destruct (Dccmd.args_eqb (node, seen) (node', seen')); reflexivity.
    + rewrite IH.
      destruct (Dccmd.args_eqb k0 (node', seen')) eqn:E'; [|reflexivity].
      destruct (Dccmd.args_eqb (node, seen) (node', seen')) eqn:E'';
        [|reflexivity].
      exfalso. rewrite (args_eqb_cong _ _ (node, seen) E') in E.
      assert (Hsym : Dccmd.args_eqb (node', seen') (node, seen) = true).
      { rewrite <- (args_eqb_cong _ _ (node, seen) E'').
        unfold Dccmd.args_eqb. simpl. rewrite String.eqb_refl. simpl.
        apply set_eqb_mem. reflexivity. }
      congruence.
Qed.

(** The function depends on [seen] through its members only. *)
Lemma visit_uncached_ext
    (rec rec' : string -> list string -> result nat)
    (s t : list string) (l : list string) (acc : result nat) :
  (forall x, mem x s = mem x t) ->
  (forall nxt, rec nxt (set_add nxt s) = rec' nxt (set_add nxt t)) ->
  fold_left (visit_uncached rec s) l acc =
  fold_left (visit_uncached rec' t) l acc.
Proof.
  intros Hm Hrec. revert acc. induction l as [|x l IH]; intros acc; simpl.
  - reflexivity.
  - rewrite IH. f_equal. unfold visit_uncached.
    destruct acc as [best|e]; try reflexivity.
    now rewrite Hm, Hrec.
Qed.

Lemma uncached_ext (room : nat) (adj : Dccmd.graph) (node : string)
    (s t : list string) :
  (forall x, mem x s = mem x t) ->
  dfs_uncached room adj node s = dfs_uncached room adj node t.
Proof.
  revert node s t. induction room as [|room IH]; intros node s t Hm; simpl.
  - reflexivity.
  - destruct (sget adj node) as [succs|]; [|reflexivity].
    apply visit_uncached_ext; [assumption|].
    intros nxt. apply IH. intros x. now rewrite !mem_set_add, Hm.
Qed.

(** Two sets with the same members have the same size. *)
Lemma same_members_length (s t : list string) :
  NoDup s -> NoDup t -> (forall x, mem x s = mem x t) ->
  List.length s = List.length t.
Proof.
  intros Hs Ht Hm. apply Permutation_length.
  apply NoDup_Permutation; [assumption | assumption|].
  intros x. now rewrite <- !mem_In, Hm.
Qed.

Lemma cache_fits_empty (total : nat) (adj : Dccmd.graph) :
  Dccmd.cache_fits total adj [].
Proof. intros node seen d _ H. discriminate. Qed.

Lemma cache_fits_put (total : nat) (adj : Dccmd.graph) (c : Dccmd.cache)
    (node : string) (seen : list string) (d : nat) :
  Dccmd.cache_fits total adj c -> NoDup seen ->
  dfs_uncached (total - List.length seen) adj node seen = Ok d ->
  Dccmd.cache_fits total adj (Dccmd.cache_put c node seen d).
Proof.
  intros Hc Hnd Hd node' seen' d' Hnd'. rewrite cache_get_put.
  destruct (Dccmd.args_eqb (node, seen) (node', seen')) eqn:E.
  - intros [= <-]. unfold Dccmd.args_eqb in E. simpl in E.
    apply andb_true_iff in E as [En Es]. apply String.eqb_eq in En.
    subst node'. rewrite set_eqb_mem in Es.
    rewrite <- (same_members_length seen seen' Hnd Hnd' Es), <- Hd.
    symmetry. now apply uncached_ext.
  - now apply Hc.
Qed.

(** The cached loop ends as the loop of the function does, and keeps the
    cache fitting. *)
Lemma visit_cached_exact
    (rec : string -> list string -> Dccmd.cache -> result nat * Dccmd.cache)
    (total room : nat) (adj : Dccmd.graph) (seen : list string) :
  (forall nxt c,
     mem nxt seen = false -> Dccmd.cache_fits total adj c ->
     fst (rec nxt (set_add nxt seen) c) =
     dfs_uncached room adj nxt (set_add nxt seen) /\
     Dccmd.cache_fits total adj (snd (rec nxt (set_add nxt seen) c))) ->
  forall (l : list string) (acc : result nat) (c : Dccmd.cache),
    Dccmd.cache_fits total adj c ->
    fst (fold_left (Dccmd.visit rec seen) l (acc, c)) =
    fold_left (visit_uncached (dfs_uncached room adj) seen) l acc /\
    Dccmd.cache_fits total adj
      (snd (fold_left (Dccmd.visit rec seen) l (acc, c))).
Proof.
  intros Hrec. induction l as [|x l IH]; intros acc c Hc; cbn [fold_left].
  - now split.
  - assert (E : exists c1,
               Dccmd.visit rec seen (acc, c) x =
               (visit_uncached (dfs_uncached room adj) seen acc x, c1) /\
               Dccmd.cache_fits total adj c1).
    { unfold Dccmd.visit, visit_uncached.
      destruct acc as [best|e]; [|now exists c].
      destruct (mem x seen) eqn:Hx; [now exists c|].
      destruct (Hrec x c Hx Hc) as [Hr Hc1].
      destruct (rec x (set_add x seen) c) as [r1 c1]. simpl in Hr, Hc1.
      rewrite <- Hr. exists c1. destruct r1; now split. }
    destruct E as [c1 [-> Hc1]]. now apply IH.
Qed.

(** The cached [dfs] ends as the function does: the cache changes no
    result, and no exception either. *)
Lemma cached_exact (total : nat) (adj : Dccmd.graph) (room : nat) :
  forall (node : string) (seen : list string) (c : Dccmd.cache),
    NoDup seen -> room + List.length seen = total ->
    Dccmd.cache_fits total adj c ->
    fst (Dccmd.dfs room adj node seen c) = dfs_uncached room adj node seen /\
    Dccmd.cache_fits total adj (snd (Dccmd.dfs room adj node seen c)).
Proof.
  induction room as [|room IH]; intros node seen c Hnd Ht Hc.
  - now split.
  - cbn [Dccmd.dfs].
    destruct (Dccmd.cache_get c node seen) as [d|] eqn:Hhit.
    + split; [|assumption]. cbn [fst]. symmetry.
      replace (S room) with (total - List.length seen) by lia.
      now apply Hc.
    + cbn [dfs_uncached].
      destruct (sget adj node) as [succs|] eqn:Hn; [|now split].
      destruct (visit_cached_exact (Dccmd.dfs room adj) total room adj seen)
        with (l := succs) (acc := Ok 0) (c := c) as [Hr Hc1].
      { intros nxt c0 Hm Hc0. apply IH; [|  |assumption].
        - now apply NoDup_set_add.
        - rewrite length_set_add by assumption. lia. }
      { assumption. }
      destruct (fold_left (Dccmd.visit (Dccmd.dfs room adj) seen) succs
                  (Ok 0, c)) as [[best|e] c1]; simpl in Hr, Hc1.
      * split; [exact Hr|]. simpl. apply cache_fits_put; [assumption..|].
        replace (total - List.length seen) with (S room) by lia.
        cbn [dfs_uncached]. now rewrite Hn.
      * now split.
Qed.

(** [longest_path] ends as the function under the decorator does, given
    the same room. *)
Lemma longest_path_uncached (limit : nat) (adj : Dccmd.graph)
    (start : string) :
  Dccmd.longest_path limit start adj = dfs_uncached limit adj start [start].
Proof.
  unfold Dccmd.longest_path.
  apply (cached_exact (limit + 1) adj limit start [start] []).
  - repeat constructor. intros [].
  - simpl. lia.
  - apply cache_fits_empty.
Qed.

(** ** [longest_path] on a closed graph *)

(** A service of a closed graph has a longest simple path. *)
Lemma longest_exists (adj : Dccmd.graph) (start : string) :
  closed adj -> In start (dict_keys adj) ->
  exists d, longest_from (edge adj) start d /\ d <= List.length adj - 1.
Proof.
  intros Hcl Hk.
  destruct (dfs_total (S (List.length adj)) adj start [start] Hcl Hk)
    as [d Hd].
  { pose proof (remaining_start adj start Hk). lia. }
  exists d. apply dfs_sound, longest_fresh_simple in Hd.
  split; [assumption|]. destruct Hd as [[p [Hp <-]] _].
  now apply (simple_path_short adj start p).
Qed.

(** What [longest_path] does, by the room it has. *)
Lemma longest_path_exact (limit : nat) (adj : Dccmd.graph) (start : string)
    (d : nat) :
  closed adj -> In start (dict_keys adj) -> longest_from (edge adj) start d ->
  Dccmd.longest_path limit start adj =
  if (d <? limit)%nat then Ok d else Raise RecursionError.
Proof.
  intros Hcl Hk Hd. rewrite longest_path_uncached.
  apply uncached_exact; [assumption | assumption|].
  now apply longest_fresh_simple.
Qed.

(** A returned depth is the length of a longest simple path. *)
Lemma longest_path_sound (limit : nat) (adj : Dccmd.graph) (start : string)
    (d : nat) :
  Dccmd.longest_path limit start adj = Ok d ->
  longest_from (edge adj) start d.
Proof.
  rewrite longest_path_uncached. intros H.
  now apply dfs_sound, longest_fresh_simple in H.
Qed.

(** With room for one call per service [longest_path] returns. *)
Lemma longest_path_closed (limit : nat) (adj : Dccmd.graph)
    (start : string) :
  closed adj -> In start (dict_keys adj) -> List.length adj <= limit ->
  exists d,
    Dccmd.longest_path limit start adj = Ok d /\
    longest_from (edge adj) start d /\
    d <= List.length adj - 1.
Proof.
  intros Hcl Hk Hl.
  destruct (longest_exists adj start Hcl Hk) as [d [Hd Hle]].
  exists d. split; [|now split].
  rewrite (longest_path_exact limit adj start d Hcl Hk Hd).
  assert (Hpos : 1 <= List.length adj).
  { unfold dict_keys in Hk. destruct adj; [contradiction | simpl; lia]. }
  destruct (Nat.ltb_spec d limit); [reflexivity | lia].
Qed.

(** With less room [RecursionError] stays. *)
Lemma longest_path_less_room (limit limit' : nat) (adj : Dccmd.graph)
    (start : string) :
  limit' <= limit ->
  Dccmd.longest_path limit start adj = Raise RecursionError ->
  Dccmd.longest_path limit' start adj = Raise RecursionError.
Proof.
  rewrite !longest_path_uncached. intros Hle H.
  destruct (dfs_uncached limit' adj start [start]) as [d|e] eqn:E.
  - apply (uncached_mono limit' limit) in E; [congruence | assumption|].
    discriminate.
  - destruct e; try reflexivity;
      (apply (uncached_mono limit' limit) in E;
       [congruence | assumption | discriminate]).
Qed.

Lemma closedb_closed (adj : list (string * list string)) :
  closedb adj = true -> closed adj.
Proof.
  unfold closedb, closed, edge. rewrite forallb_forall.
  intros H u v [succs [Hs Hv]].
  assert (Hin : In (u, succs) adj).
  { clear - Hs. unfold sget in Hs.
    induction adj as [|[k s] adj IH]; simpl in *; [discriminate|].
    destruct (String.eqb_spec k u) as [->|Hne].
    - inversion Hs. now left.
    - right. now apply IH. }
  specialize (H _ Hin). simpl in H. rewrite forallb_forall in H.
  now apply mem_In, H.
Qed.

(** C10, as the code has it.  On an adjacency dict whose every target is a
    key, seeing one more service leaves fewer services to see, so the
    search from a service never nests more calls than there are services.
    The service has a longest simple path, of [d] hops with [d] at most the
    number of services minus one; the cached search returns [d] when the
    interpreter lets more than [d] calls nest, as it does when it lets as
    many nest as there are services, and raises [RecursionError] when it
    does not. *)
Theorem longest_path_within_limit (limit : nat)
    (adj : list (string * list string)) (start : string) :
  closed adj -> In start (dict_keys adj) ->
  (forall seen nxt,
     In nxt (dict_keys adj) -> mem nxt seen = false ->
     remaining adj (set_add nxt seen) < remaining adj seen) /\
  exists d,
    longest_from (edge adj) start d /\
    d <= List.length adj - 1 /\
    Dccmd.longest_path limit start adj =
    (if (d <? limit)%nat then Ok d else Raise RecursionError) /\
    (List.length adj <= limit -> Dccmd.longest_path limit start adj = Ok d).
Proof.
  intros Hcl Hk. split.
  - intros seen nxt. apply remaining_decreases.
  - destruct (longest_exists adj start Hcl Hk) as [d [Hd Hle]].
    exists d. split; [assumption|]. split; [assumption|].
    rewrite (longest_path_exact limit adj start d Hcl Hk Hd).
    split; [reflexivity|]. intros Hl.
    assert (Hpos : 1 <= List.length adj).
    { unfold dict_keys in Hk. destruct adj; [contradiction | simpl; lia]. }
    destruct (Nat.ltb_spec d limit); [reflexivity | lia].
Qed.

Lemma longest_path_within_limit_witness :
  closed Scenario.adj5 /\ In "A" (dict_keys Scenario.adj5) /\
  exists d, Dccmd.longest_path 3 "A" Scenario.adj5 = Ok d /\ d <= 2.
Proof.
  assert (Hc : closed Scenario.adj5) by (apply closedb_closed; reflexivity).
  assert (Hk : In "A" (dict_keys Scenario.adj5)) by (simpl; auto).
  split; [exact Hc|]. split; [exact Hk|].
  destruct (longest_path_within_limit 3 Scenario.adj5 "A" Hc Hk)
    as [_ [d [_ [Hd [_ H]]]]].
  exists d. split; [apply H; simpl; lia | exact Hd].
Defined.

(** C10 as stated fails.  In the chain of 1001 services
    0 -> 1 -> ... -> 1000 every target is a key, and the search from
    service 0 needs 1001 nested calls of [dfs].  CPython lets 1000 calls
    nest by default, the frames below [dfs] and the wrapper of the cache
    included, and the script does not raise that limit: the search ends in
    [RecursionError] and returns no depth. *)
Lemma deep_chain_exceeds_recursion_limit :
  closedb (Cases.chain 1000) = true /\
  mem "0" (dict_keys (Cases.chain 1000)) = true /\
  List.length (Cases.chain 1000) = 1001 /\
  (forall limit, limit <= 1000 ->
     Dccmd.longest_path limit "0" (Cases.chain 1000) =
     Raise RecursionError).
Proof.
  split; [vm_compute; reflexivity|]. split; [vm_compute; reflexivity|].
  split; [vm_compute; reflexivity|].
  intros limit Hl. apply (longest_path_less_room 1000); [assumption|].
  vm_compute. reflexivity.
Qed.

End DfsFacts.

(* ================================================================== *)
(** * Scores, missing layers, weights *)
(* ================================================================== *)

Module ScoreFacts.
Import Py.
Local Open Scope Q_scope.

Lemma mad_score_eq (c mad : Q) : mad_score c mad = 1 - mad / (mad + c).
Proof. reflexivity. Qed.

Lemma mad_score_alt (c mad : Q) :
  0 < c -> 0 <= mad -> mad_score c mad == c / (mad + c).
Proof.
  intros Hc Hm. unfold mad_score. field. lra.
Qed.

Lemma mad_score_zero (c : Q) : 0 < c -> mad_score c 0 == 1.
Proof.
  intros Hc. unfold mad_score. field. lra.
Qed.

Lemma mad_score_decreasing (c m1 m2 : Q) :
  0 < c -> 0 <= m1 -> m1 < m2 -> mad_score c m2 < mad_score c m1.
Proof.
  intros Hc H1 H12.
  rewrite !mad_score_alt by lra.
  unfold Qdiv. apply Qmult_lt_l; [assumption|].
  apply -> Qinv_lt_contravar; lra.
Qed.

(** The score lies in (0, 1] on a non-negative deviation. *)
Lemma mad_score_range (c mad : Q) :
  0 < c -> 0 <= mad -> 0 < mad_score c mad <= 1.
Proof.
  intros Hc Hm. rewrite mad_score_alt by assumption. split.
  - apply Qlt_shift_div_l; lra.
  - apply Qle_shift_div_r; lra.
Qed.

End ScoreFacts.

Module LayerFacts.
Import Py PyFacts.
Local Open Scope nat_scope.
Local Open Scope string_scope.
Local Open Scope list_scope.

Lemma subscript_absent (m : list (string * json)) (k : string) :
  sget m k = None -> subscript (JObj m) k = Raise KeyError.
Proof. intros H. simpl. now rewrite H. Qed.

Section Missing.

Variable float_of_str : string -> option Q.
Variable limit : nat.




End Missing.

(** A file that cannot be read or decoded: [read_text] raises [OSError] or
    [UnicodeDecodeError], which no script catches. *)
Lemma unreadable_file_raises (float_of_str : string -> option Q)
    (limit : nat) (e : exn) :
  e = OSError \/ e = UnicodeDecodeError ->
  Cid.cid_for_file (Raise e) = Raise e /\
  Cmod.cmod_for_file float_of_str (Raise e) = Raise e /\
  Scf.scf_for_file (Raise e) = Raise e /\
  Smad.analyze_file (Raise e) = Raise e /\
  Dccmd.depths_for_file limit (Raise e) = Raise e.
Proof. intros [->| ->]; repeat split. Qed.

(** A document that is not a JSON object: [data[LAYER_KEY]] raises
    [TypeError], which three of the five scripts catch. *)
Lemma not_an_object (float_of_str : string -> option Q) (limit : nat)
    (v : json) :
  (forall m, v <> JObj m) ->
  Cid.cid_for_file (Ok v) = Raise TypeError /\
  Dccmd.depths_for_file limit (Ok v) = Raise TypeError /\
  Cmod.cmod_for_file float_of_str (Ok v) = Ok None /\
  Scf.scf_for_file (Ok v) = Ok None /\
  Smad.analyze_file (Ok v) = Ok None.
Proof.
  intros H. destruct v as [| | | | |m]; try (repeat split; fail).
  now elim (H m).
Qed.




End LayerFacts.


(* ================================================================== *)
(** * Depth of the stories *)
(* ================================================================== *)

Module DccmdFacts.
Import Py Graph Doc PyFacts DocFacts.
Local Open Scope nat_scope.
Local Open Scope string_scope.
Local Open Scope list_scope.

(** ** Paths and relations *)

Lemma chain_iff (R R' : string -> string -> Prop) (u : string)
    (p : list string) :
  (forall x y, R x y -> R' x y) -> chain R u p -> chain R' u p.
Proof.
  intros H. induction 1; constructor; auto.
Qed.

Lemma longest_from_iff (R R' : string -> string -> Prop) (u : string)
    (d : nat) :
  (forall x y, R x y <-> R' x y) -> longest_from R u d -> longest_from R' u d.
Proof.
  intros H [[p [[Hch Hnd] Hlen]] Hmax]. split.
  - exists p. split; [|assumption]. split; [|assumption].
    apply (chain_iff R R'); [apply H | assumption].
  - intros q [Hq Hnq]. apply Hmax. split; [|assumption].
    apply (chain_iff R' R); [apply H | assumption].
Qed.

(** A service has one depth. *)
Lemma longest_from_unique (R : string -> string -> Prop) (u : string)
    (d d' : nat) :
  longest_from R u d -> longest_from R u d' -> d = d'.
Proof.
  intros [[p [Hp Hl]] Hmax] [[p' [Hp' Hl']] Hmax'].
  specialize (Hmax p' Hp'). specialize (Hmax' p Hp). lia.
Qed.

Lemma edge_outs (adj : Dccmd.graph) (u v : string) :
  edge adj u v <-> outs adj u v = true.
Proof.
  unfold edge, outs. split.
  - intros [succs [Hs Hv]]. rewrite Hs. now apply mem_In.
  - destruct (sget adj u) as [succs|]; [|discriminate].
    intros H. exists succs. split; [reflexivity | now apply mem_In].
Qed.

(** ** The loop over the structural links *)

Lemma dccmd_classify_repr (d : document) (e : json) (l : link) :
  wf d = true -> named d = true -> repr_link e l ->
  Dccmd.classify (node_map (decomposition d) []) e =
  Ok (match place d l with
      | Between p q => Dccmd.Cross p q
      | _ => Dccmd.Skip
      end).
Proof.
  intros Hwf Hn Hr. inversion Hr as [m l' Hs Ht Hw]; subst.
  unfold Dccmd.classify, place.
  rewrite (dot_get_obj _ _ _ _ Hs). cbn [bind].
  rewrite lookup_node by assumption. cbn [bind].
  rewrite (dot_get_obj _ _ _ _ Ht). cbn [bind].
  rewrite lookup_node by assumption. cbn [bind].
  destruct (partition_of d (source l)) as [p|] eqn:Hp; [|reflexivity].
  destruct (partition_of d (target l)) as [q|] eqn:Hq;
    [|cbn [truthy]; now rewrite andb_false_r].
  rewrite !ScfFacts.truthy_Some.
  rewrite (ScfFacts.named_partition d _ _ Hn Hp).
  rewrite (ScfFacts.named_partition d _ _ Hn Hq). cbn [negb andb].
  destruct (p =? q); reflexivity.
Qed.

Lemma dccmd_step_cid (d : document) (e : json) (l : link)
    (adj : Dccmd.graph) :
  wf d = true -> named d = true -> repr_link e l ->
  Dccmd.step (node_map (decomposition d) []) adj e =
  Cid.step (node_map (decomposition d) []) adj e.
Proof.
  intros Hwf Hn Hr. unfold Dccmd.step, Cid.step.
  rewrite (dccmd_classify_repr d e l Hwf Hn Hr).
  rewrite (CidFacts.cid_classify_repr d e l Hwf Hr). cbn [bind].
  destruct (place d l); reflexivity.
Qed.

Lemma dccmd_loop_cid (d : document) (es : list json) (ls : list link) :
  wf d = true -> named d = true -> Forall2 repr_link es ls ->
  forall adj,
    for_each (Dccmd.step (node_map (decomposition d) [])) es adj =
    for_each (Cid.step (node_map (decomposition d) [])) es adj.
Proof.
  intros Hwf Hn. induction 1 as [|e l es ls He _ IH]; intros adj; simpl.
  - reflexivity.
  - rewrite (dccmd_step_cid d e l adj Hwf Hn He).
    destruct (Cid.step _ adj e); simpl; [apply IH | reflexivity].
Qed.

(** ** The loop over the business links *)

Lemma story_step_repr (d : document) (e : json) (u : use_case)
    (acc : list (string * list string)) :
  wf d = true -> named d = true -> repr_use_case e u ->
  Dccmd.story_step (node_map (decomposition d) []) acc e =
  Ok (match lands d u with
      | Some p =>
          sset acc (story u)
            (set_add p (match sget acc (story u) with
                        | Some x => x
                        | None => []
                        end))
      | None => acc
      end).
Proof.
  intros Hwf Hn Hr. inversion Hr as [m u' Hs Ht]; subst.
  unfold Dccmd.story_step, lands, marked.
  rewrite (dot_get_obj _ _ _ _ Hs). cbn [bind].
  destruct (contains "USE CASE" (upper (story u))); [|reflexivity].
  rewrite (dot_get_obj _ _ _ _ Ht). cbn [bind].
  rewrite lookup_node by assumption. cbn [bind].
  destruct (partition_of d (uc_target u)) as [p|] eqn:Hp; [|reflexivity].
  rewrite ScfFacts.truthy_Some, (ScfFacts.named_partition d _ _ Hn Hp).
  reflexivity.
Qed.

Lemma outs_sset (m : list (string * list string)) (k : string)
    (v : list string) (s p : string) :
  outs (sset m k v) s p = if k =? s then mem p v else outs m s p.
Proof.
  unfold outs. rewrite sget_sset. now destruct (k =? s).
Qed.

Lemma story_loop_repr (d : document) (bes : list json) (us : list use_case) :
  wf d = true -> named d = true -> Forall2 repr_use_case bes us ->
  forall acc,
  exists acc',
    for_each (Dccmd.story_step (node_map (decomposition d) [])) bes acc
    = Ok acc' /\
    dict_keys acc' = dict_keys acc ++ distinct (landing d us) (dict_keys acc) /\
    forall s p, outs acc' s p = outs acc s p || touches_in d us s p.
Proof.
  intros Hwf Hn. induction 1 as [|e u bes us He _ IH]; intros acc.
  - exists acc. simpl. rewrite app_nil_r. repeat split.
    intros. now rewrite orb_false_r.
  - cbn [for_each]. rewrite (story_step_repr d e u acc Hwf Hn He).
    cbn [bind]. unfold landing, touches_in. cbn [filter existsb].
    destruct (lands d u) as [p0|] eqn:Hl.
    + set (old := match sget acc (story u) with
                  | Some x => x | None => [] end).
      destruct (IH (sset acc (story u) (set_add p0 old)))
        as [acc' [H1 [H2 H3]]].
      exists acc'. split; [assumption|]. split.
      * rewrite H2. cbn [map distinct]. fold (landing d us).
        destruct (mem (story u) (dict_keys acc)) eqn:Hk.
        -- apply mem_In in Hk. now rewrite keys_sset_present.
        -- apply mem_false in Hk. rewrite keys_sset_absent by assumption.
           now rewrite <- app_assoc.
      * intros s p. rewrite H3, outs_sset. fold (touches_in d us s p).
        destruct (String.eqb_spec (story u) s) as [E|Hne].
        -- subst s. rewrite mem_set_add. unfold outs, old.
           rewrite (String.eqb_sym p p0).
           destruct (sget acc (story u)); simpl;
             destruct (p0 =? p); simpl; try reflexivity;
             now rewrite ?orb_true_r.
        -- simpl. reflexivity.
    + destruct (IH acc) as [acc' [H1 [H2 H3]]].
      exists acc'. split; [assumption|]. split; [assumption|].
      intros s p. now rewrite H3.
Qed.

Lemma distinct_spec (l seen : list string) :
  NoDup seen ->
  NoDup (seen ++ distinct l seen) /\
  forall x, In x (distinct l seen) <-> In x l /\ ~ In x seen.
Proof.
  revert seen. induction l as [|y l IH]; intros seen Hnd; simpl.
  - rewrite app_nil_r. split; [assumption | tauto].
  - destruct (mem y seen) eqn:Hy.
    + apply mem_In in Hy. destruct (IH seen Hnd) as [H1 H2].
      split; [assumption|]. intros x. rewrite H2. split.
      * intros [Hx Hs]. split; [now right | assumption].
      * intros [[->|Hx] Hs]; [contradiction | now split].
    + apply mem_false in Hy.
      assert (Hnd' : NoDup (seen ++ [y])).
      { apply NoDup_app; [assumption | repeat constructor; intros [] |].
        intros a Ha [<-|[]]. contradiction. }
      destruct (IH (seen ++ [y]) Hnd') as [H1 H2].
      split; [now rewrite <- app_assoc in H1|].
      intros x. simpl. rewrite H2, in_app_iff. simpl. split.
      * intros [<-|[Hx Hs]]; [split; [now left | assumption]|].
        split; [now right | tauto].
      * intros [[<-|Hx] Hs]; [now left|].
        destruct (string_dec y x) as [->|Hne]; [now left|]. right.
        split; [assumption|]. intros [H|[H|[]]]; [contradiction | congruence].
Qed.

Lemma stories_touch (d : document) (s : string) :
  In s (stories d) -> exists p, touches d s p = true.
Proof.
  unfold stories. intros H.
  apply (distinct_spec _ [] (NoDup_nil _)) in H as [H _].
  unfold landing in H. apply in_map_iff in H as [u [<- Hu]].
  apply filter_In in Hu as [Hu Hl].
  destruct (lands d u) as [p|] eqn:Hp; [|discriminate].
  exists p. unfold touches, touches_in. apply existsb_exists.
  exists u. split; [assumption|]. rewrite Hp.
  now rewrite !String.eqb_refl.
Qed.

Lemma touches_partition (d : document) (s p : string) :
  touches d s p = true -> In p (partitions d).
Proof.
  unfold touches, touches_in. rewrite existsb_exists. intros [u [_ H]].
  unfold lands in H. destruct (marked u); [|discriminate].
  destruct (partition_of d (uc_target u)) as [p'|] eqn:Hp; [|discriminate].
  apply andb_true_iff in H as [_ H]. apply String.eqb_eq in H. subst p'.
  now apply (partition_of_In d (uc_target u)).
Qed.

(** A story that touches a partition is one of the stories. *)
Lemma touches_story (d : document) (s p : string) :
  touches d s p = true -> In s (stories d).
Proof.
  unfold touches, touches_in. rewrite existsb_exists. intros [u [Hu H]].
  destruct (lands d u) as [p'|] eqn:Hl; [|discriminate].
  apply andb_true_iff in H as [Hs _]. apply String.eqb_eq in Hs. subst s.
  unfold stories. apply (distinct_spec _ [] (NoDup_nil _)).
  split; [|intros []]. unfold landing. apply in_map, filter_In.
  split; [assumption|]. now rewrite Hl.
Qed.

(** ** The depth of one story *)

(** The loop over the services a story touches returns the greatest of
    their depths, and raises [RecursionError] when one of the searches
    does. *)
Lemma story_depth_loop (limit : nat) (adj : Dccmd.graph)
    (L : string -> nat -> Prop) (svcs : list string) :
  (forall s, In s svcs ->
     exists n, L s n /\
               Dccmd.longest_path limit s adj =
               if (n <? limit)%nat then Ok n else Raise RecursionError) ->
  (forall s n m, L s n -> L s m -> n = m) ->
  forall best,
    (exists n,
       for_each (fun best s => d <- Dccmd.longest_path limit s adj ;;
                               Ok (Nat.max best d)) svcs best = Ok n /\
       best <= n /\
       (n = best \/ exists s, In s svcs /\ L s n) /\
       (forall s m, In s svcs -> L s m -> m <= n /\ m < limit)) \/
    (for_each (fun best s => d <- Dccmd.longest_path limit s adj ;;
                             Ok (Nat.max best d)) svcs best =
     Raise RecursionError /\
     exists s m, In s svcs /\ L s m /\ limit <= m).
Proof.
  intros Hall Huniq. induction svcs as [|s svcs IH]; intros best.
  - left. exists best. simpl. repeat split; auto; contradiction.
  - destruct (Hall s (or_introl eq_refl)) as [ds [HL Hds]].
    cbn [for_each]. rewrite Hds.
    destruct (Nat.ltb_spec ds limit) as [Hlt|Hge]; cbn [bind].
    + destruct IH with (best := Nat.max best ds)
        as [[n [H1 [H2 [H3 H4]]]]|[H1 [s' [m [Hs' H2]]]]].
      { intros s' Hs'. apply Hall. now right. }
      * left. exists n. split; [assumption|]. split; [lia|]. split.
        -- destruct H3 as [->|[s' [Hs' HL']]].
           ++ destruct (Nat.max_spec best ds) as [[_ ->]|[_ ->]].
              ** right. exists s. split; [now left | assumption].
              ** now left.
           ++ right. exists s'. split; [now right | assumption].
        -- intros s' m [<-|Hs'] Hm.
           ++ rewrite (Huniq _ _ _ Hm HL). lia.
           ++ now apply (H4 s').
      * right. split; [assumption|]. exists s', m.
        split; [now right | assumption].
    + right. split; [reflexivity|]. exists s, ds.
      split; [now left | now split].
Qed.

Lemma map_each_values (A B : Type) (f : A -> result B)
    (P : string -> B -> Prop) (Q : Prop) (e : exn) (m : list (string * A)) :
  (forall s a, In (s, a) m ->
     (exists b, f a = Ok b /\ P s b) \/ (f a = Raise e /\ Q)) ->
  (exists bs, map_each f (dict_values m) = Ok bs /\
              Forall2 P (dict_keys m) bs) \/
  (map_each f (dict_values m) = Raise e /\ Q).
Proof.
  unfold dict_values, dict_keys.
  induction m as [|[s a] m IH]; intros H; simpl.
  - left. exists []. split; [reflexivity | constructor].
  - destruct (H s a (or_introl eq_refl)) as [[b [Hb HP]]|[Hb HQ]].
    + rewrite Hb. cbn [bind]. destruct IH as [[bs [Hbs HF]]|[Hbs HQ]].
      { intros s' a' Hin. apply H. now right. }
      * left. exists (b :: bs). rewrite Hbs. split; [reflexivity|].
        now constructor.
      * right. rewrite Hbs. now split.
    + right. rewrite Hb. now split.
Qed.

Lemma In_sget_NoDup (V : Type) (m : list (string * V)) (k : string)
    (v : V) :
  NoDup (dict_keys m) -> In (k, v) m -> sget m k = Some v.
Proof.
  unfold sget, dict_keys. induction m as [|[k0 v0] m IH]; simpl.
  - contradiction.
  - intros Hnd [Heq|Hin].
    + inversion Heq; subst. now rewrite String.eqb_refl.
    + inversion Hnd as [|? ? Hk Hnd']; subst.
      destruct (String.eqb_spec k0 k) as [->|Hne].
      * elim Hk. apply in_map_iff. exists (k, v). now split.
      * now apply IH.
Qed.

(** ** The file *)

(** What [depths_for_file] does on a well-formed document whose partition
    identifiers are non-empty: the depth of every story, or
    [RecursionError] when a partition some story touches has a simple path
    of as many hops as calls of [dfs] may nest. *)
Lemma depths_for_file_repr (limit : nat) (j : json) (d : document) :
  represents j d -> wf d = true -> named d = true ->
  let n := List.length (partitions d) in
  (forall p m, In p (partitions d) -> longest_from (hop d) p m -> m < n) /\
  (stories d = [] ->
   Dccmd.depths_for_file limit (Ok j) = Ok (None, Some n)) /\
  (stories d <> [] ->
   (exists depths,
      Dccmd.depths_for_file limit (Ok j) = Ok (Some depths, Some n) /\
      Forall2 (fun s k => story_depth d s k /\ within limit d s)
        (stories d) depths) \/
   (Dccmd.depths_for_file limit (Ok j) = Raise RecursionError /\
    exists s p m,
      touches d s p = true /\ longest_from (hop d) p m /\ limit <= m)).
Proof.
  intros Hr Hwf Hn n.
  inversion Hr as [top struct bus dec ls bls d' Hl1 Hl3 Hdec Hparts Hls Hlinks
                   Hbl Hbls]; subst.
  unfold Dccmd.depths_for_file, Dccmd.L1, Dccmd.L3. cbn [bind].
  rewrite (subscript_obj _ _ _ Hl1). cbn [bind].
  rewrite (subscript_obj _ _ _ Hl3). cbn [bind try_except].
  rewrite (subscript_obj _ _ _ Hdec). cbn [bind dot_items dot_keys].
  rewrite (node_map_repr _ _ Hparts). cbn [bind].
  rewrite (dot_get_obj _ _ _ _ Hls). cbn [bind iterate].
  rewrite (keys_repr _ _ Hparts). fold (partitions d).
  rewrite (dccmd_loop_cid d ls (links d) Hwf Hn Hlinks).
  destruct (CidFacts.cid_loop_repr d ls (links d) Hwf Hlinks
              (map (fun p => (p, @nil string)) (sorted (partitions d))))
    as [adj [Hloop [Hkeys Houts]]].
  { intros p Hp. unfold dict_keys. rewrite map_map. simpl. rewrite map_id.
    now apply sorted_In. }
  rewrite Hloop. cbn [bind].
  rewrite (dot_get_obj _ _ _ _ Hbl). cbn [bind iterate].
  destruct (story_loop_repr d bls (use_cases d) Hwf Hn Hbls [])
    as [s2s [Hsl [Hsk Hso]]].
  rewrite Hsl. cbn [bind]. simpl in Hsk. fold (stories d) in Hsk.
  rewrite sorted_length. fold n.
  assert (Hk : dict_keys adj = sorted (partitions d)).
  { rewrite Hkeys. unfold dict_keys. rewrite map_map. simpl. apply map_id. }
  assert (Hlen : List.length adj = n).
  { unfold n. rewrite <- (sorted_length (partitions d)), <- Hk.
    unfold dict_keys. now rewrite length_map. }
  assert (Hedge : forall u v, edge adj u v <-> hop d u v).
  { intros u v. rewrite edge_outs, Houts, CidFacts.outs_init. reflexivity. }
  assert (Hclosed : closed adj).
  { intros u v Huv. apply Hedge in Huv. rewrite Hk. apply sorted_In.
    apply cross_In_r in Huv. exact Huv. }
  assert (Hkey : forall p, In p (partitions d) -> In p (dict_keys adj)).
  { intros p Hp. rewrite Hk. now apply sorted_In. }
  assert (Hdepth : forall p, In p (partitions d) ->
            exists k, longest_from (hop d) p k /\ k < n /\
                      Dccmd.longest_path limit p adj =
                      if (k <? limit)%nat then Ok k
                      else Raise RecursionError).
  { intros p Hp.
    destruct (DfsFacts.longest_exists adj p Hclosed (Hkey p Hp))
      as [k [Hk1 Hk2]].
    exists k. split; [|split].
    - apply (longest_from_iff (edge adj)); assumption.
    - assert (1 <= n) by (unfold n; destruct (partitions d);
                          [contradiction | simpl; lia]).
      lia.
    - now apply DfsFacts.longest_path_exact; [| apply Hkey |]. }
  split; [|split].
  - intros p m Hp Hm. destruct (Hdepth p Hp) as [k [Hk1 [Hk2 _]]].
    now rewrite (longest_from_unique _ _ _ _ Hm Hk1).
  - intros Hs. rewrite Hs in Hsk. destruct s2s; [reflexivity|discriminate].
  - intros Hs.
    assert (Hnd : NoDup (dict_keys s2s)).
    { rewrite Hsk. unfold stories.
      apply (distinct_spec _ [] (NoDup_nil _)). }
    destruct (map_each_values _ _ (Dccmd.story_depth limit adj)
                (fun s k => story_depth d s k /\ within limit d s)
                (exists s p m, touches d s p = true /\
                               longest_from (hop d) p m /\ limit <= m)
                RecursionError s2s)
      as [[depths [Hmap HF]]|[Hmap HQ]].
    { intros s svcs Hin.
      assert (Hget : sget s2s s = Some svcs) by now apply In_sget_NoDup.
      assert (Hmem : forall p, In p svcs <-> touches d s p = true).
      { intros p. rewrite <- mem_In.
        specialize (Hso s p). unfold outs in Hso at 1 2. rewrite Hget in Hso.
        simpl in Hso. fold (touches d s p) in Hso. now rewrite Hso. }
      destruct (story_depth_loop limit adj (longest_from (hop d)) svcs)
        with (best := 0) as [[m [H1 [_ [H3 H4]]]]|[H1 [p [m [Hp H2]]]]].
      - intros p Hp. apply Hmem, touches_partition in Hp.
        destruct (Hdepth p Hp) as [k [Hk1 [_ Hk3]]]. now exists k.
      - intros p a b. apply longest_from_unique.
      - left. exists m. split; [exact H1|]. split; [split|].
        + destruct H3 as [->|[p [Hp HL]]].
          * assert (Hs' : In s (stories d)).
            { rewrite <- Hsk. apply (sget_Some_In _ _ _ _ Hget). }
            destruct (stories_touch d s Hs') as [p Hp].
            exists p. split; [assumption|].
            pose proof Hp as Hp'. apply Hmem in Hp'.
            apply touches_partition in Hp.
            destruct (Hdepth p Hp) as [k [Hk1 _]].
            destruct (H4 p k Hp' Hk1) as [Hle _].
            replace k with 0 in Hk1 by lia. exact Hk1.
          * exists p. split; [now apply Hmem | assumption].
        + intros p k Hp Hk0. apply (H4 p k); [now apply Hmem | assumption].
        + intros p k Hp Hk0. apply (H4 p k); [now apply Hmem | assumption].
      - right. split; [exact H1|]. exists s, p, m.
        split; [now apply Hmem | assumption]. }
    + left. exists depths. split.
      * destruct s2s as [|kv s2s']; [simpl in Hsk; now rewrite <- Hsk in Hs|].
        rewrite Hmap. reflexivity.
      * now rewrite <- Hsk.
    + right. split; [|assumption].
      destruct s2s as [|kv s2s']; [simpl in Hsk; now rewrite <- Hsk in Hs|].
      rewrite Hmap. reflexivity.
Qed.

(** The DCCMD column of [main] on a well-formed document whose partition
    identifiers are non-empty, when as many calls of [dfs] may nest as
    there are partitions: the general statement behind the claim. *)
Lemma main_row_repr (limit : nat) (j : json) (d : document) :
  represents j d -> wf d = true -> named d = true ->
  List.length (partitions d) <= limit ->
  (stories d = [] -> Dccmd.main_row limit (Ok j) = Ok None) /\
  (stories d <> [] ->
   exists depths med mad,
     Dccmd.depths_for_file limit (Ok j) =
     Ok (Some depths, Some (List.length (partitions d))) /\
     Forall2 (story_depth d) (stories d) depths /\
     median (map Qnat depths) = Ok med /\
     median_abs_dev (map Qnat depths) med = Ok mad /\
     Dccmd.main_row limit (Ok j) = Ok (Some (1 - mad / (mad + 2))%Q)).
Proof.
  intros Hr Hwf Hn Hroom.
  destruct (depths_for_file_repr limit j d Hr Hwf Hn) as [Hb [H0 H1]]. split.
  - intros Hs. unfold Dccmd.main_row. now rewrite (H0 Hs).
  - intros Hs.
    destruct (H1 Hs) as [[depths [Hd HF]]|[_ [s [p [m [Hp [Hm Hdeep]]]]]]].
    + assert (Hne : map Qnat depths <> []).
      { destruct depths; [|discriminate]. inversion HF. congruence. }
      destruct (SmadFacts.median_ok _ Hne) as [med Hmed].
      destruct (SmadFacts.median_abs_dev_ok _ med Hne) as [mad Hmad].
      exists depths, med, mad. repeat split; try assumption.
      * revert HF. apply Forall2_impl. now intros a b [Hab _].
      * unfold Dccmd.main_row. rewrite Hd. cbn [bind fst].
        destruct depths as [|x xs]; [now elim Hne|].
        rewrite Hmed. cbn [bind]. rewrite Hmad. reflexivity.
    + apply touches_partition in Hp. specialize (Hb p m Hp Hm). lia.
Qed.

(** Scenario 5: on the chain A->B->C the story on A has depth 2, the story
    on C depth 0, and DCCMD is 1 - 1/3, when three calls of [dfs] may
    nest. *)
Lemma chain_scenario (limit : nat) :
  3 <= limit ->
  Dccmd.depths_for_file limit (Ok Scenario.json5) =
  Ok (Some [2; 0], Some 3) /\
  exists v, Dccmd.main_row limit (Ok Scenario.json5) = Ok (Some v) /\
            (v == 1 - 1 / 3)%Q.
Proof.
  intros Hl. destruct limit as [|[|[|limit]]]; try lia.
  split; [reflexivity|]. eexists. split; [vm_compute; reflexivity|].
  reflexivity.
Qed.

(** C1, at the failing input.  In a well-formed document the story
    "USE CASE 1" touches the partition whose identifier is the empty
    string, from which a simple path of one hop leads to B; the script
    builds no edge and keeps no story, and reports "not available",
    whatever the depth of recursion the interpreter allows. *)
Theorem empty_partition_id_loses_the_story :
  represents Scenario.json_anon Scenario.doc_anon /\
  wf Scenario.doc_anon = true /\
  touches Scenario.doc_anon "USE CASE 1" EmptyString = true /\
  simple_path (hop Scenario.doc_anon) EmptyString ["B"] /\
  forall limit,
    Dccmd.depths_for_file limit (Ok Scenario.json_anon) =
    Ok (None, Some 2) /\
    Dccmd.main_row limit (Ok Scenario.json_anon) = Ok None.
Proof.
  split; [exact ScenarioFacts.represents_anon|].
  split; [reflexivity|]. split; [reflexivity|].
  split; [|split; reflexivity].
  split.
  - constructor; [reflexivity | constructor].
  - constructor; [|constructor; [|constructor]]; simpl; intuition discriminate.
Qed.

End DccmdFacts.

(* ================================================================== *)
(** * [median] returns a middle value *)
(* ================================================================== *)

Module MedianFacts.
Import Py PyFacts.
Local Open Scope nat_scope.
Local Open Scope list_scope.

Lemma Qle_bool_false (x y : Q) : Qle_bool x y = false -> (y <= x)%Q.
Proof.
  intros H. apply Qlt_le_weak, Qnot_le_lt. intros Hle.
  apply Qle_bool_iff in Hle. congruence.
Qed.

Lemma insert_sorted_Q_sorted (x : Q) (l : list Q) :
  StronglySorted Qle l -> StronglySorted Qle (insert_sorted_Q x l).
Proof.
  induction 1 as [|y l Hs IH Hall]; simpl.
  - repeat constructor.
  - destruct (Qle_bool x y) eqn:E.
    + apply Qle_bool_iff in E. constructor.
      * now constructor.
      * constructor; [assumption|].
        rewrite Forall_forall in *. intros z Hz.
        apply Qle_trans with y; auto.
    + apply Qle_bool_false in E. constructor; [assumption|].
      rewrite Forall_forall in *. intros z Hz.
      apply (Permutation_in _ (SmadFacts.insert_sorted_Q_perm x l)) in Hz.
      destruct Hz as [<-|Hz]; auto.
Qed.

Lemma sorted_Q_sorted (l : list Q) : StronglySorted Qle (sorted_Q l).
Proof.
  induction l as [|x l IH]; simpl.
  - constructor.
  - now apply insert_sorted_Q_sorted.
Qed.

(** In a sorted list an earlier place holds a smaller value. *)
Lemma sorted_nth (s : list Q) (i k : nat) :
  StronglySorted Qle s -> i <= k -> k < List.length s ->
  (nth i s 0 <= nth k s 0)%Q.
Proof.
  intros Hs. revert i k. induction Hs as [|x s Hs IH Hall]; intros i k Hik Hk.
  - simpl in Hk. lia.
  - destruct k as [|k].
    + replace i with 0 by lia. apply Qle_refl.
    + destruct i as [|i].
      * simpl. rewrite Forall_forall in Hall. apply Hall, nth_In.
        simpl in Hk. lia.
      * simpl. apply IH; simpl in Hk; lia.
Qed.

Lemma count_firstn (f : Q -> bool) (s : list Q) (k : nat) :
  k <= List.length s ->
  (forall i, i < k -> f (nth i s 0%Q) = true) ->
  k <= count f s.
Proof.
  unfold count. revert k. induction s as [|x s IH]; intros k Hk Hall.
  - simpl in Hk. lia.
  - destruct k as [|k]; [lia|]. simpl.
    assert (Hx : f x = true) by (apply (Hall 0); lia).
    rewrite Hx. simpl. apply le_n_S. apply IH.
    + simpl in Hk. lia.
    + intros i Hi. apply (Hall (S i)). lia.
Qed.

Lemma count_skipn (f : Q -> bool) (s : list Q) (k : nat) :
  (forall i, k <= i -> i < List.length s -> f (nth i s 0%Q) = true) ->
  List.length s - k <= count f s.
Proof.
  unfold count. revert k. induction s as [|x s IH]; intros k Hall.
  - simpl. lia.
  - destruct k as [|k].
    + simpl. assert (Hx : f x = true) by (apply (Hall 0); simpl; lia).
      rewrite Hx. simpl. apply le_n_S.
      specialize (IH 0). rewrite Nat.sub_0_r in IH. apply IH.
      intros i _ Hi. apply (Hall (S i)); simpl; lia.
    + simpl. specialize (IH k).
      assert (Hle : List.length s - k <= List.length (filter f s)).
      { apply IH. intros i Hk Hi. apply (Hall (S i)); simpl; lia. }
      destruct (f x); simpl; lia.
Qed.

Lemma count_perm (f : Q -> bool) (l l' : list Q) :
  Permutation l l' -> count f l = count f l'.
Proof. apply CidFacts.filter_length_perm. Qed.

Lemma middle_of_sorted (s : list Q) (m : Q) :
  StronglySorted Qle s ->
  (if (List.length s =? 0)%nat then Raise StatisticsError
   else if (List.length s mod 2 =? 1)%nat
        then Ok (nth (List.length s / 2) s 0%Q)
        else Ok ((nth (List.length s / 2 - 1) s 0 +
                  nth (List.length s / 2) s 0) / 2)%Q) = Ok m ->
  List.length s <= 2 * count (fun x => Qle_bool x m) s /\
  List.length s <= 2 * count (fun x => Qle_bool m x) s.
Proof.
  intros Hs. set (n := List.length s).
  destruct (Nat.eqb_spec n 0) as [|Hn0]; [discriminate|].
  assert (Hhalf : n / 2 < n) by (apply Nat.div_lt; lia).
  pose proof (Nat.div_mod_eq n 2) as Hdm.
  destruct (Nat.eqb_spec (n mod 2) 1) as [Hodd|Heven]; intros [= <-];
    change (fst (Nat.divmod n 1 0 1)) with (n / 2).
  - split.
    + assert (S (n / 2) <= count (fun x => Qle_bool x (nth (n / 2) s 0%Q)) s).
      { apply count_firstn; [fold n; lia|]. intros i Hi.
        apply Qle_bool_iff. apply sorted_nth; [assumption | lia | assumption]. }
      lia.
    + assert (n - n / 2 <= count (fun x => Qle_bool (nth (n / 2) s 0%Q) x) s).
      { apply count_skipn. intros i Hi Hlt.
        apply Qle_bool_iff. now apply sorted_nth. }
      lia.
  - assert (Hmod : n mod 2 = 0).
    { pose proof (Nat.mod_upper_bound n 2). lia. }
    assert (Hpos : 0 < n / 2) by lia.
    set (a := nth (n / 2 - 1) s 0%Q). set (b := nth (n / 2) s 0%Q).
    assert (Hab : (a <= b)%Q).
    { apply sorted_nth; [assumption | lia | assumption]. }
    assert (Ham : (a <= (a + b) / 2)%Q).
    { apply Qle_shift_div_l; [reflexivity|]. lra. }
    assert (Hmb : ((a + b) / 2 <= b)%Q).
    { apply Qle_shift_div_r; [reflexivity|]. lra. }
    split.
    + assert (n / 2 <= count (fun x => Qle_bool x ((a + b) / 2)) s).
      { apply count_firstn; [fold n; lia|]. intros i Hi.
        apply Qle_bool_iff. apply Qle_trans with a; [|assumption].
        apply sorted_nth; [assumption | lia | fold n; lia]. }
      lia.
    + assert (n - n / 2 <= count (fun x => Qle_bool ((a + b) / 2) x) s).
      { apply count_skipn. intros i Hi Hlt.
        apply Qle_bool_iff. apply Qle_trans with b; [assumption|].
        now apply sorted_nth. }
      lia.
Qed.

(** At least half of the values are at most the median, and at least half
    are at least the median. *)
Lemma median_middle (l : list Q) (m : Q) :
  median l = Ok m ->
  List.length l <= 2 * count (fun x => Qle_bool x m) l /\
  List.length l <= 2 * count (fun x => Qle_bool m x) l.
Proof.
  intros H. unfold median in H.
  apply middle_of_sorted in H; [|apply sorted_Q_sorted].
  rewrite SmadFacts.sorted_Q_length in H.
  now rewrite !(count_perm _ _ _ (SmadFacts.sorted_Q_perm l)) in H.
Qed.

End MedianFacts.

(* ================================================================== *)
(** * One reading of the edges, when every partition is named *)
(* ================================================================== *)

Module EdgeFacts.
Import Py Doc PyFacts DocFacts.
Local Open Scope string_scope.
Local Open Scope list_scope.

(** On a well-formed document whose partition identifiers are non-empty,
    the three scripts take every edge descriptor for the same
    cross-partition edge, or none of them does, when [float] can convert
    the weight the modularity script reads. *)
Lemma same_edges_when_named (float_of_str : string -> option Q)
    (d : document) (e : json) (l : link) :
  wf d = true -> named d = true -> repr_link e l ->
  weight_read_ok d l = true ->
  let n2p := node_map (decomposition d) [] in
  exists c1 c2 c3,
    Cid.classify n2p e = Ok c1 /\
    Cmod.classify float_of_str n2p e = Ok c2 /\
    Scf.classify n2p e = Ok c3 /\
    Cid.cross_of c1 = between (place d l) /\
    Cmod.cross_of c2 = between (place d l) /\
    Scf.cross_of c3 = between (place d l).
Proof.
  intros Hwf Hn Hr Hok n2p. unfold n2p.
  rewrite (CidFacts.cid_classify_repr d e l Hwf Hr).
  rewrite (CmodFacts.cmod_classify_repr float_of_str d e l Hwf Hr Hok).
  rewrite (ScfFacts.scf_classify_repr d e l Hwf Hr).
  eexists _, _, _. repeat (split; [reflexivity|]).
  pose proof (ScfFacts.named_between d l Hn) as Hb.
  unfold is_between_named, is_between in Hb.
  destruct (place d l) as [|p|p q]; repeat split.
  simpl. now rewrite Hb.
Qed.

(** C6, at the failing input.  In a well-formed document whose first
    partition has the empty string as identifier, the edge from its node
    to a node of partition B is a cross-partition edge for the cyclic
    independence and the modularity scripts and is dropped by the coupling
    script, whose test [if s_src and s_dst] takes the empty identifier for
    a missing one. *)
Theorem empty_partition_id_splits_the_scripts :
  let n2p := node_map Scenario.dec_anon [] in
  let e := Scenario.jlink "a" "b" in
  represents Scenario.json_anon Scenario.doc_anon /\
  wf Scenario.doc_anon = true /\
  node2part (map Scenario.jpart Scenario.dec_anon) = Ok n2p /\
  place Scenario.doc_anon (Scenario.lnk "a" "b") =
  Between EmptyString "B" /\
  Cid.classify n2p e = Ok (Cid.Cross EmptyString "B") /\
  Cmod.classify Scenario.no_str n2p e =
  Ok (Cmod.Cross EmptyString "B" 1%Q) /\
  Scf.classify n2p e = Ok Scf.Skip /\
  (exists r, Cid.cid_for_file (Ok Scenario.json_anon) = Ok (Some r) /\
             Cid.cyclic_pairs r = 1%nat) /\
  Scf.counts (JObj [("decomposition",
                     JObj (map Scenario.jpart Scenario.dec_anon));
                    ("links", JArr [Scenario.jlink "a" "b";
                                    Scenario.jlink "b" "a"])])
  = Ok (2%nat, 0%nat).
Proof.
  intros n2p e. split; [exact ScenarioFacts.represents_anon|].
  repeat split. eexists. split; [vm_compute; reflexivity | reflexivity].
Qed.

End EdgeFacts.

(* ================================================================== *)
(** * What every returned row satisfies *)
(* ================================================================== *)

Module RowFacts.
Import Py PyFacts.
Local Open Scope nat_scope.
Local Open Scope string_scope.
Local Open Scope list_scope.

(** ** Reading a computation backwards *)

Lemma bind_Ok (A B : Type) (c : result A) (k : A -> result B) (b : B) :
  bind c k = Ok b -> exists a, c = Ok a /\ k a = Ok b.
Proof. destruct c as [a|e]; simpl; [eauto | discriminate]. Qed.

Lemma try_except_Some (A B : Type) (c : result A) (handled : list exn)
    (k : A -> result (option B)) (b : B) :
  try_except c handled None k = Ok (Some b) ->
  exists a, c = Ok a /\ k a = Ok (Some b).
Proof.
  destruct c as [a|e]; simpl; [eauto|].
  destruct (existsb (exn_eqb e) handled); discriminate.
Qed.

Tactic Notation "unbind" hyp(H) "as" ident(a) ident(E) :=
  apply bind_Ok in H; destruct H as [a [E H]].

Lemma map_each_length (A B : Type) (f : A -> result B) (xs : list A)
    (ys : list B) :
  map_each f xs = Ok ys -> List.length ys = List.length xs.
Proof.
  revert ys. induction xs as [|x xs IH]; simpl; intros ys H.
  - now injection H as <-.
  - unbind H as y Ey. unbind H as ys' Eys. injection H as <-. simpl.
    f_equal. now apply IH.
Qed.

Lemma count_true_le (bs : list bool) : Cid.count_true bs <= List.length bs.
Proof. unfold Cid.count_true. apply filter_length_le. Qed.

Lemma Qnat_le (a b : nat) : a <= b -> (Qnat a <= Qnat b)%Q.
Proof.
  intros H. unfold Qnat. rewrite <- Zle_Qle. lia.
Qed.

Lemma Qnat_lt (a b : nat) : a < b -> (Qnat a < Qnat b)%Q.
Proof.
  intros H. unfold Qnat. rewrite <- Zlt_Qlt. lia.
Qed.

Lemma Qnat_eq (a b : nat) : (Qnat a == Qnat b)%Q -> a = b.
Proof.
  unfold Qnat, Qeq. simpl. lia.
Qed.

(** ** cyclic_independence.py *)

(** X1.  Whatever the input, a row that [cid_for_file] returns is
    consistent: [total_pairs] is n(n-1)/2 for the [partitions] n reported,
    [cyclic_pairs] does not exceed it, CiD lies between 0 and 1, and CiD is
    1 exactly when no pair is cyclic. *)
Theorem cid_row_is_consistent (loaded : result json) (r : Cid.row) :
  Cid.cid_for_file loaded = Ok (Some r) ->
  Cid.total_pairs r = Cid.partitions r * (Cid.partitions r - 1) / 2 /\
  Cid.cyclic_pairs r <= Cid.total_pairs r /\
  (0 <= Cid.CiD r)%Q /\ (Cid.CiD r <= 1)%Q /\
  ((Cid.CiD r == 1)%Q <-> Cid.cyclic_pairs r = 0).
Proof.
  unfold Cid.cid_for_file. intros H.
  apply try_except_Some in H as [layer [_ H]].
  unbind H as decomp Ed. unbind H as links El. unbind H as keys Ek.
  set (parts := sorted keys) in *. set (n := List.length parts) in *.
  destruct (n <=? 1)%nat eqn:Hn.
  - injection H as <-. simpl. repeat split; try lia; try discriminate.
  - apply Nat.leb_gt in Hn.
    unbind H as items Ei. unbind H as n2p En. unbind H as es Ee.
    unbind H as dep Edep. unbind H as flags Ef. injection H as <-.
    cbn [Cid.partitions Cid.total_pairs Cid.cyclic_pairs Cid.CiD].
    change (fst (Nat.divmod (n * (n - 1)) 1 0 1)) with (n * (n - 1) / 2).
    pose proof (CidFacts.pairs_positive n Hn) as Hpos.
    pose proof (count_true_le flags) as Hle.
    rewrite (map_each_length _ _ _ _ _ Ef) in Hle.
    rewrite CidFacts.combinations2_length in Hle. fold n in Hle.
    set (t := n * (n - 1) / 2) in *. set (c := Cid.count_true flags) in *.
    apply Nat.ltb_lt in Hpos as Hb. rewrite Hb.
    assert (Ht : (0 < Qnat t)%Q) by (apply (Qnat_lt 0 t); assumption).
    assert (Hc : (0 <= Qnat c)%Q) by (apply (Qnat_le 0 c); lia).
    assert (Hct : (Qnat c <= Qnat t)%Q) by now apply Qnat_le.
    assert (Hq : (0 <= Qnat c / Qnat t)%Q).
    { apply Qle_shift_div_l; [assumption|]. lra. }
    assert (Hq1 : (Qnat c / Qnat t <= 1)%Q).
    { apply Qle_shift_div_r; [assumption|]. lra. }
    repeat split; try assumption; try lra.
    + intros H1.
      assert (Hz : (Qnat c / Qnat t == 0)%Q) by lra.
      assert (Hc0 : (Qnat c == Qnat 0)%Q).
      { rewrite <- (Qmult_div_r (Qnat c) (Qnat t)) by lra.
        rewrite Hz. unfold Qnat. simpl. ring. }
      now apply Qnat_eq.
    + intros ->. unfold Qnat at 1. simpl. unfold Qdiv. ring.
Qed.

Lemma cid_row_is_consistent_witness :
  exists r,
    Cid.cid_for_file (Ok Scenario.json1) = Ok (Some r) /\
    Cid.cyclic_pairs r <= Cid.total_pairs r /\ (Cid.CiD r <= 1)%Q.
Proof.
  eexists. split; [reflexivity|].
  pose proof (cid_row_is_consistent (Ok Scenario.json1) _ eq_refl)
    as [_ [H1 [_ [H2 _]]]].
  split; assumption.
Defined.

(** ** service_coupling_factor.py *)

Lemma scf_value_le_1 (s e : nat) : (0 <= Scf.scf_value s e <= 1)%R.
Proof.
  unfold Scf.scf_value. destruct (Nat.eqb_spec (e + s) 0) as [|Hne].
  - split; [apply Rle_refl | apply Rle_0_1].
  - assert (Hd : (0 < INR (e + s))%R) by (apply lt_0_INR; lia).
    assert (Hs : (0 <= INR s)%R) by apply pos_INR.
    assert (Hle : (INR s <= INR (e + s))%R) by (apply le_INR; lia).
    split; [apply sqrt_pos|].
    rewrite <- sqrt_1. apply sqrt_le_1_alt.
    apply (Rmult_le_reg_r (INR (e + s))); [assumption|].
    unfold Rdiv. rewrite Rmult_assoc, Rinv_l by Lra.lra. Lra.lra.
Qed.

Lemma scf_value_1 (s e : nat) :
  Scf.scf_value s e = 1%R <-> e = 0 /\ 0 < s.
Proof.
  unfold Scf.scf_value. destruct (Nat.eqb_spec (e + s) 0) as [Hz|Hne].
  - split; [intros H; Lra.lra | lia].
  - assert (Hd : (0 < INR (e + s))%R) by (apply lt_0_INR; lia).
    split.
    + intros H.
      assert (Hq : (INR s / INR (e + s) = 1)%R).
      { apply sqrt_inj; [| Lra.lra | now rewrite sqrt_1].
        apply Rmult_le_pos; [apply pos_INR|].
        apply Rlt_le, Rinv_0_lt_compat, Hd. }
      assert (Hs : INR s = INR (e + s)).
      { apply (Rmult_eq_reg_r (/ INR (e + s)));
          [|apply Rinv_neq_0_compat; Lra.lra].
        rewrite Rinv_r by Lra.lra. exact Hq. }
      apply INR_eq in Hs. lia.
    + intros [-> Hs]. simpl. unfold Rdiv. rewrite Rinv_r; [apply sqrt_1|].
      apply not_0_INR. lia.
Qed.

Lemma scf_value_decreasing (s e e' : nat) :
  0 < s -> e < e' -> (Scf.scf_value s e' < Scf.scf_value s e)%R.
Proof.
  intros Hs He. unfold Scf.scf_value.
  destruct (Nat.eqb_spec (e' + s) 0) as [|_]; [lia|].
  destruct (Nat.eqb_spec (e + s) 0) as [|_]; [lia|].
  assert (Hd : (0 < INR (e + s))%R) by (apply lt_0_INR; lia).
  assert (Hd' : (0 < INR (e' + s))%R) by (apply lt_0_INR; lia).
  assert (Hlt : (INR (e + s) < INR (e' + s))%R) by (apply lt_INR; lia).
  assert (H0 : (0 < INR s)%R) by (apply lt_0_INR; lia).
  apply sqrt_lt_1_alt. split.
  - apply Rmult_le_pos; [Lra.lra|]. apply Rlt_le, Rinv_0_lt_compat, Hd'.
  - unfold Rdiv. apply Rmult_lt_compat_l; [assumption|].
    apply Rinv_lt_contravar; [|assumption].
    apply Rmult_lt_0_compat; assumption.
Qed.

(** X2.  Whatever the input, a row that [scf_for_file] returns has SCF
    between 0 and 1, and SCF is 1 exactly when no external edge was counted
    and there is at least one service.  For a given positive number of
    services, every further external edge lowers the factor. *)
Theorem scf_row_is_consistent (loaded : result json) (r : Scf.row) :
  Scf.scf_for_file loaded = Ok (Some r) ->
  (0 <= Scf.SCF r <= 1)%R /\
  (Scf.SCF r = 1%R <-> Scf.external_edges r = 0 /\ 0 < Scf.services r) /\
  (forall e, 0 < Scf.services r -> Scf.external_edges r < e ->
     (Scf.scf_value (Scf.services r) e < Scf.SCF r)%R).
Proof.
  unfold Scf.scf_for_file. intros H.
  apply try_except_Some in H as [block [_ H]].
  unbind H as c Ec. destruct c as [s e]. injection H as <-.
  cbn [Scf.services Scf.external_edges Scf.SCF].
  split; [apply scf_value_le_1|]. split; [apply scf_value_1|].
  intros e'. apply scf_value_decreasing.
Qed.

Lemma scf_row_is_consistent_witness :
  exists r,
    Scf.scf_for_file (Ok Scenario.json3) = Ok (Some r) /\
    (0 <= Scf.SCF r <= 1)%R.
Proof.
  eexists. split; [reflexivity|].
  exact (proj1 (scf_row_is_consistent (Ok Scenario.json3) _ eq_refl)).
Defined.

(** ** smad.py *)

(** The median lies between any two bounds of the data. *)
Lemma median_between (l : list Q) (lo hi m : Q) :
  Forall (fun x => lo <= x /\ x <= hi)%Q l -> median l = Ok m ->
  (lo <= m /\ m <= hi)%Q.
Proof.
  intros Hl. unfold median.
  assert (Hs : Forall (fun x => lo <= x /\ x <= hi)%Q (sorted_Q l)).
  { rewrite Forall_forall in *. intros x Hx. apply Hl.
    eapply Permutation_in; [apply SmadFacts.sorted_Q_perm | exact Hx]. }
  set (s := sorted_Q l) in *. set (n := List.length s).
  assert (Hnth : forall i, i < n -> (lo <= nth i s 0 /\ nth i s 0 <= hi)%Q).
  { intros i Hi. rewrite Forall_forall in Hs. now apply Hs, nth_In. }
  destruct (Nat.eqb_spec n 0) as [|Hn0]; [discriminate|].
  assert (Hhalf : n / 2 < n) by (apply Nat.div_lt; lia).
  destruct (n mod 2 =? 1)%nat; intros [= <-];
    change (fst (Nat.divmod n 1 0 1)) with (n / 2).
  - now apply Hnth.
  - destruct (Hnth (n / 2) Hhalf) as [H1 H2].
    destruct (Hnth (n / 2 - 1)) as [H3 H4]; [lia|].
    split.
    + apply Qle_shift_div_l; [reflexivity|]. lra.
    + apply Qle_shift_div_r; [reflexivity|]. lra.
Qed.

Lemma fold_min_le (l : list nat) (a x : nat) :
  In x l -> fold_right Nat.min a l <= x.
Proof.
  induction l as [|y l IH]; simpl; [contradiction|].
  intros [->|H]; [lia|]. specialize (IH H). lia.
Qed.

Lemma fold_max_ge (l : list nat) (a x : nat) :
  In x l -> x <= fold_right Nat.max a l.
Proof.
  induction l as [|y l IH]; simpl; [contradiction|].
  intros [->|H]; [lia|]. specialize (IH H). lia.
Qed.

Lemma mad_score_one (c mad : Q) :
  (0 < c)%Q -> (0 <= mad)%Q -> (mad_score c mad == 1 <-> mad == 0)%Q.
Proof.
  intros Hc Hm. rewrite (ScoreFacts.mad_score_alt c mad Hc Hm).
  assert (Hd : (0 < mad + c)%Q) by lra.
  split; intros H.
  - assert (H' : (c == 1 * (mad + c))%Q).
    { rewrite <- H. field. lra. }
    lra.
  - rewrite H. field. lra.
Qed.

Lemma sizes_of_nonempty (loaded : result json) (sizes : list nat) :
  Smad.sizes_of loaded = Ok (Some sizes) -> sizes <> [].
Proof.
  unfold Smad.sizes_of. intros H.
  unbind H as data Ed. unbind H as layer El. unbind H as decomp Edec.
  destruct decomp; try discriminate.
  unbind H as szs Es. destruct szs; [discriminate|].
  injection H as <-. discriminate.
Qed.

(** X3.  Whatever the input, a row that [analyze_file] returns is
    consistent: there is at least one service, the median size lies between
    [min] and [max], the raw MAD is non-negative and at most [max - min],
    SMAD is in (0, 1], and SMAD is 1 exactly when the raw MAD is 0. *)
Theorem smad_row_is_consistent (loaded : result json) (r : Smad.row) :
  Smad.analyze_file loaded = Ok (Some r) ->
  1 <= Smad.services r /\
  Smad.min r <= Smad.max r /\
  (Qnat (Smad.min r) <= Smad.medSize r)%Q /\
  (Smad.medSize r <= Qnat (Smad.max r))%Q /\
  (0 <= Smad.MAD_raw r)%Q /\
  (Smad.MAD_raw r <= Qnat (Smad.max r) - Qnat (Smad.min r))%Q /\
  (0 < Smad.SMAD r)%Q /\ (Smad.SMAD r <= 1)%Q /\
  (Smad.SMAD r == 1 <-> Smad.MAD_raw r == 0)%Q.
Proof.
  unfold Smad.analyze_file. intros H.
  apply try_except_Some in H as [o [Ho H]].
  destruct o as [sizes|]; [|discriminate].
  apply sizes_of_nonempty in Ho.
  unbind H as med Emed. unbind H as mad Emad. injection H as <-.
  cbn [Smad.services Smad.min Smad.max Smad.medSize Smad.MAD_raw Smad.SMAD].
  set (lo := fold_right Nat.min (hd 0 sizes) sizes).
  set (hi := fold_right Nat.max 0 sizes).
  assert (Hb : Forall (fun x => Qnat lo <= x /\ x <= Qnat hi)%Q
                 (map Qnat sizes)).
  { apply Forall_forall. intros y Hy. apply in_map_iff in Hy as [x [<- Hx]].
    split; apply Qnat_le; [now apply fold_min_le | now apply fold_max_ge]. }
  destruct (median_between _ _ _ _ Hb Emed) as [Hlo Hhi].
  assert (Hdev : Forall (fun x => 0 <= x /\ x <= Qnat hi - Qnat lo)%Q
                   (map (fun x => Qabs (x - med)) (map Qnat sizes))).
  { apply Forall_forall. intros y Hy. apply in_map_iff in Hy as [x [<- Hx]].
    rewrite Forall_forall in Hb. destruct (Hb x Hx) as [Hx1 Hx2].
    split; [apply Qabs_nonneg|]. apply Qabs_Qle_condition. split; lra. }
  destruct (median_between _ _ _ _ Hdev Emad) as [Hm0 Hm1].
  destruct (ScoreFacts.mad_score_range 7 mad) as [Hs0 Hs1];
    [reflexivity | assumption |].
  assert (Hlen : 1 <= List.length sizes).
  { destruct sizes; [congruence | simpl; lia]. }
  assert (Hlohi : lo <= hi).
  { destruct sizes as [|x l]; [congruence|].
    transitivity x; [apply fold_min_le | apply fold_max_ge]; now left. }
  repeat split; try assumption.
  - now apply mad_score_one.
  - now apply mad_score_one.
Qed.

Lemma smad_row_is_consistent_witness :
  exists r,
    Smad.analyze_file (Ok Scenario.json4) = Ok (Some r) /\
    Smad.min r <= Smad.max r /\ (Smad.SMAD r <= 1)%Q.
Proof.
  eexists. split; [reflexivity|].
  pose proof (smad_row_is_consistent (Ok Scenario.json4) _ eq_refl)
    as [_ [H1 [_ [_ [_ [_ [_ [H2 _]]]]]]]].
  split; assumption.
Defined.

(** ** dccmd.py *)

Lemma try_except_Ok (A B : Type) (c : result A) (handled : list exn)
    (fallback : B) (k : A -> result B) (b : B) :
  try_except c handled fallback k = Ok b ->
  (exists a, c = Ok a /\ k a = Ok b) \/
  (exists e, c = Raise e /\ b = fallback).
Proof.
  destruct c as [a|e]; simpl; [eauto|].
  destruct (existsb (exn_eqb e) handled); [|discriminate].
  intros [= <-]. eauto.
Qed.

(** The list of depths [depths_for_file] returns is never empty. *)
Lemma depths_nonempty (limit : nat) (loaded : result json)
    (depths : list nat) (svc : option nat) :
  Dccmd.depths_for_file limit loaded = Ok (Some depths, svc) -> depths <> [].
Proof.
  unfold Dccmd.depths_for_file. intros H.
  apply try_except_Ok in H as [[[struct bus] [_ H]]|[e [_ H]]];
    [|discriminate].
  unbind H as decomp Ed. unbind H as items Ei. unbind H as c2s Ec.
  unbind H as decomp' Ed'. unbind H as keys Ek. unbind H as links El.
  unbind H as es Ee. unbind H as adj Ea. unbind H as blinks Eb.
  unbind H as bes Ebe. unbind H as s2s Es.
  destruct s2s as [|kv s2s]; [discriminate|].
  unbind H as ds Eds. injection H as <- _.
  apply map_each_length in Eds. destruct ds; [discriminate|discriminate].
Qed.

(** X4.  Whenever [depths_for_file] returns, the loop body of [main]
    returns too ([statistics.median] is never given an empty list); the
    value is "NA" exactly when no list of depths came back, and otherwise
    lies in (0, 1]. *)
Theorem dccmd_score_in_range (limit : nat) (loaded : result json)
    (r : option (list nat) * option nat) :
  Dccmd.depths_for_file limit loaded = Ok r ->
  exists o,
    Dccmd.main_row limit loaded = Ok o /\
    (o = None <-> fst r = None) /\
    (forall v, o = Some v -> (0 < v)%Q /\ (v <= 1)%Q).
Proof.
  intros H. unfold Dccmd.main_row. rewrite H. cbn [bind].
  destruct r as [[depths|] svc]; cbn [fst].
  - pose proof (depths_nonempty _ _ _ _ H) as Hne.
    destruct depths as [|d ds] eqn:Hd; [congruence|]. rewrite <- Hd.
    assert (Hq : map Qnat depths <> []) by (subst; discriminate).
    destruct (SmadFacts.median_ok _ Hq) as [med Hmed].
    destruct (SmadFacts.median_abs_dev_ok _ med Hq) as [mad Hmad].
    rewrite Hmed. cbn [bind]. rewrite Hmad. cbn [bind].
    eexists. split; [reflexivity|]. split; [split; discriminate|].
    intros v [= <-]. apply ScoreFacts.mad_score_range; [reflexivity|].
    eapply SmadFacts.median_abs_dev_nonneg, Hmad.
  - exists None. split; [reflexivity|]. split; [tauto | discriminate].
Qed.

Lemma dccmd_score_in_range_witness :
  exists v,
    Dccmd.main_row 1000 (Ok Scenario.json5) = Ok (Some v) /\
    (0 < v)%Q /\ (v <= 1)%Q.
Proof.
  destruct (dccmd_score_in_range 1000 (Ok Scenario.json5)
              (Some [2; 0], Some 3) eq_refl) as [o [H1 [_ H2]]].
  destruct o as [v|]; [|discriminate].
  exists v. split; [exact H1|]. now apply H2.
Defined.

(** ** What [analyze_file] can raise *)

Lemma map_each_len (vs : list json) :
  (exists sizes, map_each len vs = Ok sizes) \/
  map_each len vs = Raise TypeError.
Proof.
  induction vs as [|v vs IH]; simpl; [eauto|].
  destruct v; simpl; auto; destruct IH as [[sizes ->]| ->]; simpl; eauto.
Qed.

(** X5.  On a parsed document [analyze_file] raises nothing but
    [AttributeError], and that only when the document is an object whose
    structural layer is present and is not an object; on every other
    document it returns a row or "not available", whatever lies below the
    layer. *)
Theorem analyze_file_raises_only_on_odd_layer (j : json) :
  (exists r, Smad.analyze_file (Ok j) = Ok r) \/
  (Smad.analyze_file (Ok j) = Raise AttributeError /\
   exists top layer,
     j = JObj top /\ sget top Smad.LAYER_KEY = Some layer /\
     forall m, layer <> JObj m).
Proof.
  unfold Smad.analyze_file, Smad.sizes_of. cbn [bind].
  destruct j as [| | | | |top]; try (left; eexists; reflexivity).
  unfold subscript.
  destruct (sget top Smad.LAYER_KEY) as [layer|] eqn:Hl;
    [|left; eexists; reflexivity].
  cbn [bind].
  destruct layer as [| | | | |m];
    try (right; split; [reflexivity|];
         exists top; eexists; repeat split; [exact Hl | discriminate]).
  left. unfold dot_get.
  destruct (sget m "decomposition") as [decomp|]; cbn [bind];
    [|eexists; reflexivity].
  destruct decomp as [| | | | |dec]; try (eexists; reflexivity).
  destruct (map_each_len (dict_values dec)) as [[sizes ->]| ->];
    cbn [bind try_except existsb exn_eqb orb]; [|eexists; reflexivity].
  destruct sizes as [|x rest] eqn:Hs; [eexists; reflexivity|].
  cbn [try_except]. rewrite <- Hs.
  assert (Hq : map Qnat sizes <> []) by (subst; discriminate).
  destruct (SmadFacts.median_ok _ Hq) as [med Hmed].
  destruct (SmadFacts.median_abs_dev_ok _ med Hq) as [mad Hmad].
  rewrite Hmed. cbn [bind]. rewrite Hmad. cbn [bind].
  eexists. reflexivity.
Qed.

End RowFacts.

(* ================================================================== *)
(** * The two dispersion scores against their MAD *)
(* ================================================================== *)

Module DispersionFacts.
Import Py PyFacts RowFacts.
Local Open Scope Q_scope.

(** The row [analyze_file] returns holds the raw MAD and the score computed
    from it. *)
Lemma analyze_file_score (loaded : result json) (r : Smad.row) :
  Smad.analyze_file loaded = Ok (Some r) ->
  Smad.SMAD r = mad_score 7 (Smad.MAD_raw r) /\ 0 <= Smad.MAD_raw r.
Proof.
  unfold Smad.analyze_file. intros H.
  apply try_except_Some in H as [o [Ho H]].
  destruct o as [sizes|]; [|discriminate].
  unbind H as med Emed. unbind H as mad Emad. injection H as <-.
  cbn [Smad.MAD_raw Smad.SMAD]. split; [reflexivity|].
  eapply SmadFacts.median_abs_dev_nonneg, Emad.
Qed.

(** The DCCMD column [main] writes for the depths [depths_for_file]
    returned: the score of their raw MAD. *)
Lemma main_row_score (limit : nat) (loaded : result json)
    (depths : list nat) (svc : option nat) :
  Dccmd.depths_for_file limit loaded = Ok (Some depths, svc) ->
  exists med mad,
    median (map Qnat depths) = Ok med /\
    median_abs_dev (map Qnat depths) med = Ok mad /\
    0 <= mad /\
    Dccmd.main_row limit loaded = Ok (Some (mad_score 2 mad)).
Proof.
  intros H. pose proof (depths_nonempty _ _ _ _ H) as Hne.
  assert (Hq : map Qnat depths <> []).
  { destruct depths; [congruence | discriminate]. }
  destruct (SmadFacts.median_ok _ Hq) as [med Hmed].
  destruct (SmadFacts.median_abs_dev_ok _ med Hq) as [mad Hmad].
  exists med, mad. split; [assumption|]. split; [assumption|]. split.
  - eapply SmadFacts.median_abs_dev_nonneg, Hmad.
  - unfold Dccmd.main_row. rewrite H. cbn [bind fst].
    destruct depths as [|x xs]; [congruence|].
    rewrite Hmed. cbn [bind]. rewrite Hmad. reflexivity.
Qed.

(** C9.  The scores the two scripts compute decrease in their MAD.  For
    two rows [analyze_file] returns, on any two inputs: SMAD is
    [1 - MAD/(MAD + 7)] of the raw MAD of the row, it is 1 when that MAD is
    0, and the row with the larger MAD has the strictly smaller SMAD.  For
    two lists of depths [depths_for_file] returns: [main] computes the raw
    MAD of each and writes [1 - MAD/(MAD + 2)] as DCCMD, which is 1 when
    the MAD is 0 and strictly smaller for the larger MAD. *)
Theorem scores_decrease_in_mad (limit : nat) (a b : result json) :
  (forall ra rb,
     Smad.analyze_file a = Ok (Some ra) ->
     Smad.analyze_file b = Ok (Some rb) ->
     Smad.SMAD ra = 1 - Smad.MAD_raw ra / (Smad.MAD_raw ra + 7) /\
     (Smad.MAD_raw ra == 0 -> Smad.SMAD ra == 1) /\
     (Smad.MAD_raw ra < Smad.MAD_raw rb -> Smad.SMAD rb < Smad.SMAD ra)) /\
  (forall da db sva svb,
     Dccmd.depths_for_file limit a = Ok (Some da, sva) ->
     Dccmd.depths_for_file limit b = Ok (Some db, svb) ->
     exists meda ma medb mb,
       median (map Qnat da) = Ok meda /\
       median_abs_dev (map Qnat da) meda = Ok ma /\
       median (map Qnat db) = Ok medb /\
       median_abs_dev (map Qnat db) medb = Ok mb /\
       Dccmd.main_row limit a = Ok (Some (1 - ma / (ma + 2))) /\
       Dccmd.main_row limit b = Ok (Some (1 - mb / (mb + 2))) /\
       (ma == 0 -> 1 - ma / (ma + 2) == 1) /\
       (ma < mb -> 1 - mb / (mb + 2) < 1 - ma / (ma + 2))).
Proof.
  split.
  - intros ra rb Ha Hb.
    destruct (analyze_file_score a ra Ha) as [Ea Ha0].
    destruct (analyze_file_score b rb Hb) as [Eb _].
    rewrite Ea, Eb. split; [reflexivity|]. split.
    + intros H0. now apply (mad_score_one 7).
    + intros Hlt. now apply ScoreFacts.mad_score_decreasing.
  - intros da db sva svb Ha Hb.
    destruct (main_row_score limit a da sva Ha)
      as [meda [ma [Ha1 [Ha2 [Ha0 Ha3]]]]].
    destruct (main_row_score limit b db svb Hb)
      as [medb [mb [Hb1 [Hb2 [_ Hb3]]]]].
    exists meda, ma, medb, mb. repeat split; try assumption.
    + intros H0. now apply (mad_score_one 2).
    + intros Hlt. fold (mad_score 2 ma). fold (mad_score 2 mb).
      now apply ScoreFacts.mad_score_decreasing.
Qed.

Lemma scores_decrease_in_mad_witness :
  (exists ra rb,
     Smad.analyze_file (Ok Scenario.json1) = Ok (Some ra) /\
     Smad.analyze_file (Ok Scenario.json4) = Ok (Some rb) /\
     Smad.SMAD ra == 1 /\ Smad.SMAD rb < Smad.SMAD ra) /\
  (exists sa sb,
     Dccmd.main_row 1000 (Ok Cases.json_three_stories) = Ok (Some sa) /\
     Dccmd.main_row 1000 (Ok Scenario.json5) = Ok (Some sb) /\
     sa == 1 /\ sb < sa).
Proof.
  destruct (scores_decrease_in_mad 1000 (Ok Scenario.json1)
              (Ok Scenario.json4)) as [Hs _].
  destruct (scores_decrease_in_mad 1000 (Ok Cases.json_three_stories)
              (Ok Scenario.json5)) as [_ Hd].
  split.
  - eexists _, _. split; [reflexivity|]. split; [reflexivity|].
    destruct (Hs _ _ eq_refl eq_refl) as [_ [H0 Hlt]].
    split; [apply H0; reflexivity | apply Hlt; reflexivity].
  - destruct (Hd [1; 1; 0]%nat [2; 0]%nat (Some 3%nat) (Some 3%nat)
                eq_refl eq_refl)
      as [meda [ma [medb [mb [Ha1 [Ha2 [Hb1 [Hb2 [Ha [Hb [H0 Hlt]]]]]]]]]]].
    vm_compute in Ha1. injection Ha1 as <-.
    vm_compute in Ha2. injection Ha2 as <-.
    vm_compute in Hb1. injection Hb1 as <-.
    vm_compute in Hb2. injection Hb2 as <-.
    eexists _, _. split; [exact Ha|]. split; [exact Hb|].
    split; [apply H0; reflexivity | apply Hlt; reflexivity].
Defined.

End DispersionFacts.

(* ================================================================== *)
(** * A strict majority of equal values *)
(* ================================================================== *)

Module MajorityFacts.
Import Py PyFacts RowFacts.
Local Open Scope nat_scope.
Local Open Scope list_scope.

Lemma count_disjoint (f g : Q -> bool) (l : list Q) :
  (forall x, f x = true -> g x = true -> False) ->
  count f l + count g l <= List.length l.
Proof.
  intros Hfg. unfold count. induction l as [|x l IH]; simpl; [lia|].
  destruct (f x) eqn:Ef, (g x) eqn:Eg; simpl; try lia.
  now elim (Hfg x).
Qed.

Lemma count_le (f g : Q -> bool) (l : list Q) :
  (forall x, f x = true -> g x = true) -> count f l <= count g l.
Proof.
  intros Hfg. unfold count. induction l as [|x l IH]; simpl; [lia|].
  destruct (f x) eqn:Ef.
  - rewrite (Hfg x Ef). simpl. lia.
  - destruct (g x); simpl; lia.
Qed.

Lemma count_map (A : Type) (f : Q -> bool) (g : A -> Q) (l : list A) :
  count f (map g l) = List.length (filter (fun x => f (g x)) l).
Proof.
  unfold count. induction l as [|x l IH]; simpl; [reflexivity|].
  destruct (f (g x)); simpl; now rewrite IH.
Qed.

(** When more than half of the values equal [v], the median is [v]. *)
Lemma majority_median (l : list Q) (v m : Q) :
  List.length l < 2 * count (fun x => Qeq_bool x v) l ->
  median l = Ok m -> (m == v)%Q.
Proof.
  intros Hmaj Hmed. apply MedianFacts.median_middle in Hmed as [Hle Hge].
  destruct (Q_dec m v) as [[Hlt|Hgt]|Heq]; [| |assumption].
  - pose proof (count_disjoint (fun x => Qle_bool x m)
                  (fun x => Qeq_bool x v) l) as Hd.
    assert (count (fun x => Qle_bool x m) l +
            count (fun x => Qeq_bool x v) l <= List.length l).
    { apply Hd. intros x H1 H2. apply Qle_bool_iff in H1.
      apply Qeq_bool_iff in H2. lra. }
    lia.
  - pose proof (count_disjoint (fun x => Qle_bool m x)
                  (fun x => Qeq_bool x v) l) as Hd.
    assert (count (fun x => Qle_bool m x) l +
            count (fun x => Qeq_bool x v) l <= List.length l).
    { apply Hd. intros x H1 H2. apply Qle_bool_iff in H1.
      apply Qeq_bool_iff in H2. lra. }
    lia.
Qed.

(** Then the median absolute deviation is 0, and the score is 1. *)
Lemma majority_mad (l : list Q) (v med mad : Q) :
  List.length l < 2 * count (fun x => Qeq_bool x v) l ->
  median l = Ok med -> median_abs_dev l med = Ok mad -> (mad == 0)%Q.
Proof.
  intros Hmaj Hmed Hmad. pose proof (majority_median l v med Hmaj Hmed) as Hv.
  unfold median_abs_dev in Hmad.
  apply (majority_median _ 0%Q) in Hmad; [assumption|].
  rewrite length_map, count_map.
  eapply Nat.lt_le_trans; [exact Hmaj|].
  apply Nat.mul_le_mono_l.
  apply (count_le (fun x => Qeq_bool x v)
           (fun x => Qeq_bool (Qabs (x - med)) 0)).
  intros x Hx. apply Qeq_bool_iff in Hx. apply Qeq_bool_iff.
  assert (Hz : (x - med == 0)%Q) by lra.
  rewrite Hz. reflexivity.
Qed.

Lemma count_Qnat (s : nat) (l : list nat) :
  count (fun x => Qeq_bool x (Qnat s)) (map Qnat l) =
  List.length (filter (Nat.eqb s) l).
Proof.
  rewrite count_map. induction l as [|x l IH]; simpl; [reflexivity|].
  destruct (Nat.eqb_spec s x) as [->|Hne].
  - rewrite (proj2 (Qeq_bool_iff _ _) (Qeq_refl _)). simpl. now rewrite IH.
  - destruct (Qeq_bool (Qnat x) (Qnat s)) eqn:E; [|assumption].
    apply Qeq_bool_iff, Qnat_eq in E. congruence.
Qed.

(** X6.  When more than half of the partitions have the same number of
    nodes, [analyze_file] reports that number as the median size, a raw MAD
    of 0 and SMAD = 1, whatever the sizes of the other partitions. *)
Theorem majority_size_gives_full_smad (loaded : result json)
    (sizes : list nat) (s : nat) :
  Smad.sizes_of loaded = Ok (Some sizes) ->
  List.length sizes < 2 * List.length (filter (Nat.eqb s) sizes) ->
  exists r,
    Smad.analyze_file loaded = Ok (Some r) /\
    (Smad.medSize r == Qnat s)%Q /\
    (Smad.MAD_raw r == 0)%Q /\
    (Smad.SMAD r == 1)%Q.
Proof.
  intros Hs Hmaj. unfold Smad.analyze_file. rewrite Hs. cbn [try_except].
  assert (Hq : map Qnat sizes <> []).
  { destruct sizes; [simpl in Hmaj; lia | discriminate]. }
  destruct (SmadFacts.median_ok _ Hq) as [med Hmed].
  destruct (SmadFacts.median_abs_dev_ok _ med Hq) as [mad Hmad].
  rewrite Hmed. cbn [bind]. rewrite Hmad. cbn [bind].
  eexists. split; [reflexivity|].
  cbn [Smad.medSize Smad.MAD_raw Smad.SMAD].
  assert (Hm : List.length (map Qnat sizes) <
               2 * count (fun x => Qeq_bool x (Qnat s)) (map Qnat sizes)).
  { now rewrite length_map, count_Qnat. }
  pose proof (majority_mad _ _ _ _ Hm Hmed Hmad) as H0.
  split; [exact (majority_median _ _ _ Hm Hmed)|]. split; [exact H0|].
  apply mad_score_one; [reflexivity | | exact H0].
  eapply SmadFacts.median_abs_dev_nonneg, Hmad.
Qed.

Lemma majority_size_gives_full_smad_witness :
  exists r,
    Smad.analyze_file (Ok Scenario.json1) = Ok (Some r) /\
    (Smad.SMAD r == 1)%Q.
Proof.
  destruct (majority_size_gives_full_smad (Ok Scenario.json1) [1; 1; 1] 1
              eq_refl) as [r [H1 [_ [_ H2]]]].
  - simpl. lia.
  - exists r. split; assumption.
Defined.

(** X7.  When more than half of the use-case stories have the same depth,
    the raw MAD of the depths is 0 and [main] writes DCCMD = 1, whatever the
    depths of the other stories. *)
Theorem majority_depth_gives_full_dccmd (limit : nat)
    (loaded : result json) (depths : list nat) (svc : option nat) (n : nat) :
  Dccmd.depths_for_file limit loaded = Ok (Some depths, svc) ->
  List.length depths < 2 * List.length (filter (Nat.eqb n) depths) ->
  exists v, Dccmd.main_row limit loaded = Ok (Some v) /\ (v == 1)%Q.
Proof.
  intros Hd Hmaj. unfold Dccmd.main_row. rewrite Hd. cbn [bind fst].
  destruct depths as [|d ds] eqn:E; [simpl in Hmaj; lia|]. rewrite <- E in *.
  assert (Hq : map Qnat depths <> []) by (subst; discriminate).
  destruct (SmadFacts.median_ok _ Hq) as [med Hmed].
  destruct (SmadFacts.median_abs_dev_ok _ med Hq) as [mad Hmad].
  rewrite Hmed. cbn [bind]. rewrite Hmad. cbn [bind].
  eexists. split; [reflexivity|].
  assert (Hm : List.length (map Qnat depths) <
               2 * count (fun x => Qeq_bool x (Qnat n)) (map Qnat depths)).
  { now rewrite length_map, count_Qnat. }
  pose proof (majority_mad _ _ _ _ Hm Hmed Hmad) as H0.
  apply mad_score_one; [reflexivity | | exact H0].
  eapply SmadFacts.median_abs_dev_nonneg, Hmad.
Qed.

Lemma majority_depth_gives_full_dccmd_witness :
  exists v,
    Dccmd.main_row 1000 (Ok Cases.json_three_stories) = Ok (Some v) /\
    (v == 1)%Q.
Proof.
  apply (majority_depth_gives_full_dccmd 1000 (Ok Cases.json_three_stories)
           [1; 1; 0] (Some 3) 1).
  - reflexivity.
  - simpl. lia.
Defined.

End MajorityFacts.

(* ================================================================== *)
(** * What CiD does not look at *)
(* ================================================================== *)

Module SymmetryFacts.
Import Py Doc Edits PyFacts DocFacts CidFacts.
Local Open Scope nat_scope.
Local Open Scope string_scope.
Local Open Scope list_scope.

(** The row [cid_for_file] returns on a well-formed document. *)
Lemma cid_row_repr (j : json) (d : document) :
  represents j d -> wf d = true ->
  let n := List.length (partitions d) in
  Cid.cid_for_file (Ok j) =
  Ok (Some {| Cid.partitions := n;
              Cid.cyclic_pairs := cyclic_count d;
              Cid.total_pairs := n * (n - 1) / 2;
              Cid.CiD :=
                if (n <=? 1)%nat then 1%Q
                else (1 - Qnat (cyclic_count d) /
                          Qnat (n * (n - 1) / 2))%Q |}).
Proof.
  intros Hr Hwf n.
  inversion Hr as [top struct bus dec ls bls d' Hl1 Hl3 Hdec Hparts Hls Hlinks
                   Hbl Hbls]; subst.
  unfold Cid.cid_for_file, Cid.LAYER_KEY. cbn [bind].
  rewrite (subscript_obj _ _ _ Hl1). cbn [try_except].
  rewrite (dot_get_obj _ _ _ _ Hdec), (dot_get_obj _ _ _ _ Hls).
  cbn [bind dot_keys dot_items iterate].
  rewrite (keys_repr _ _ Hparts). fold (partitions d).
  rewrite sorted_length. fold n.
  destruct (n <=? 1)%nat eqn:Hn.
  - apply Nat.leb_le in Hn. unfold cyclic_count.
    now rewrite combinations2_short.
  - apply Nat.leb_gt in Hn.
    rewrite (node_map_repr _ _ Hparts). cbn [bind].
    destruct (cid_loop_repr d ls (links d) Hwf Hlinks
                (map (fun p => (p, @nil string)) (sorted (partitions d))))
      as [dep [Hloop [Hkeys Houts]]].
    { intros p Hp. unfold dict_keys. rewrite map_map. simpl. rewrite map_id.
      now apply sorted_In. }
    rewrite Hloop. cbn [bind].
    assert (Hk : dict_keys dep = sorted (partitions d)).
    { rewrite Hkeys. unfold dict_keys. rewrite map_map. simpl. apply map_id. }
    rewrite (map_each_pure _ _ (Cid.is_cyclic dep) (cyclic_pair d)).
    + cbn [bind].
      assert (Hc : Cid.count_true
                     (map (cyclic_pair d)
                        (combinations2 (sorted (partitions d))))
                   = cyclic_count d).
      { rewrite count_true_map. unfold cyclic_count.
        apply count_pairs_perm; [apply cyclic_pair_sym | apply sorted_perm]. }
      rewrite Hc. pose proof (pairs_positive n Hn) as Hpos.
      apply Nat.ltb_lt in Hpos. now rewrite Hpos.
    + intros [p q] Hpq. apply combinations2_In in Hpq as [Hp Hq].
      rewrite is_cyclic_outs by (rewrite Hk; assumption).
      unfold cyclic_pair, cross. simpl.
      rewrite !Houts, !outs_init. reflexivity.
Qed.

(** The row depends on the edges only through the pairs of partitions they
    join. *)
Lemma cid_row_ext (j j' : json) (d d' : document) :
  represents j d -> represents j' d' -> wf d = true -> wf d' = true ->
  partitions d = partitions d' ->
  (forall p q, cyclic_pair d (p, q) = cyclic_pair d' (p, q)) ->
  Cid.cid_for_file (Ok j') = Cid.cid_for_file (Ok j).
Proof.
  intros Hr Hr' Hwf Hwf' Hp Hc.
  rewrite (cid_row_repr j d Hr Hwf), (cid_row_repr j' d' Hr' Hwf').
  cbv zeta. rewrite <- Hp.
  assert (Hcc : cyclic_count d' = cyclic_count d).
  { unfold cyclic_count. rewrite <- Hp. f_equal. apply filter_ext.
    intros [p q]. symmetry. apply Hc. }
  now rewrite Hcc.
Qed.

Lemma existsb_map_ext (A B : Type) (f : A -> bool) (g : B -> bool)
    (h : A -> B) (l : list A) :
  (forall x, g (h x) = f x) -> existsb g (map h l) = existsb f l.
Proof.
  intros H. induction l as [|x l IH]; simpl; [reflexivity|].
  now rewrite H, IH.
Qed.

Lemma forallb_map_ext (A B : Type) (f : A -> bool) (g : B -> bool)
    (h : A -> B) (l : list A) :
  (forall x, g (h x) = f x) -> forallb g (map h l) = forallb f l.
Proof.
  intros H. induction l as [|x l IH]; simpl; [reflexivity|].
  now rewrite H, IH.
Qed.

Lemma partition_of_reversed (d : document) (x : string) :
  partition_of (reversed d) x = partition_of d x.
Proof. reflexivity. Qed.

Lemma cross_reversed (d : document) (p q : string) :
  cross (reversed d) p q = cross d q p.
Proof.
  unfold cross, cross_in. cbn [links reversed].
  apply existsb_map_ext. intros l. unfold place.
  rewrite !partition_of_reversed. cbn [source target reverse_link].
  destruct (partition_of d (target l)) as [a|],
           (partition_of d (source l)) as [b|]; try reflexivity.
  rewrite (String.eqb_sym b a).
  destruct (a =? b)%string; [reflexivity|]. apply andb_comm.
Qed.

Lemma wf_reversed (d : document) : wf (reversed d) = wf d.
Proof.
  unfold wf. cbn [links reversed]. f_equal.
  now apply forallb_map_ext.
Qed.

(** X8.  CiD does not depend on the direction of the edges: the document
    with every structural edge turned round gets the same row. *)
Theorem cid_ignores_direction (j j' : json) (d : document) :
  represents j d -> represents j' (reversed d) -> wf d = true ->
  Cid.cid_for_file (Ok j') = Cid.cid_for_file (Ok j).
Proof.
  intros Hr Hr' Hwf. apply (cid_row_ext j j' d (reversed d)); try assumption.
  - now rewrite wf_reversed.
  - reflexivity.
  - intros p q. unfold cyclic_pair. cbn [fst snd].
    rewrite !cross_reversed. apply andb_comm.
Qed.

Lemma cid_ignores_direction_witness :
  Cid.cid_for_file (Ok Cases.json5_reversed) =
  Cid.cid_for_file (Ok Scenario.json5).
Proof.
  apply (cid_ignores_direction _ _ Scenario.doc5).
  - exact ScenarioFacts.represents5.
  - ScenarioFacts.represent.
  - reflexivity.
Defined.

Lemma cross_same_ends (d d' : document) (p q : string) :
  decomposition d = decomposition d' ->
  same_ends (links d) (links d') ->
  cross d p q = true -> cross d' p q = true.
Proof.
  intros Hdec Hends H. apply cross_spec in H as [l [Hl [Hs [Ht Hne]]]].
  apply cross_spec.
  destruct (proj1 (Hends (source l) (target l))) as [l' [Hl' [Es Et]]];
    [now exists l|].
  exists l'. unfold partition_of in *. rewrite <- Hdec, Es, Et. auto.
Qed.

(** X9.  CiD looks at the edges only as a set of ordered pairs of nodes:
    two documents with the same decomposition whose edges join the same
    pairs get the same row, whatever the order of the edges, their number
    and their weights. *)
Theorem cid_ignores_order_number_weight (j j' : json) (d d' : document) :
  represents j d -> represents j' d' -> wf d = true -> wf d' = true ->
  decomposition d = decomposition d' ->
  same_ends (links d) (links d') ->
  Cid.cid_for_file (Ok j') = Cid.cid_for_file (Ok j).
Proof.
  intros Hr Hr' Hwf Hwf' Hdec Hends.
  apply (cid_row_ext j j' d d'); try assumption.
  - unfold partitions. now rewrite Hdec.
  - assert (Hc : forall p q, cross d p q = cross d' p q).
    { intros p q. apply eq_true_iff_eq. split.
      - now apply cross_same_ends.
      - apply cross_same_ends; [now symmetry|].
        intros s t. symmetry. apply Hends. }
    intros p q. unfold cyclic_pair. cbn [fst snd]. now rewrite !Hc.
Qed.

Lemma cid_ignores_order_number_weight_witness :
  Cid.cid_for_file (Ok Cases.json1_shuffled) =
  Cid.cid_for_file (Ok Scenario.json1).
Proof.
  apply (cid_ignores_order_number_weight _ _ Scenario.doc1
           Cases.doc1_shuffled).
  - exact ScenarioFacts.represents1.
  - ScenarioFacts.represent.
  - reflexivity.
  - reflexivity.
  - reflexivity.
  - intros s t. split; intros [l [Hl [<- <-]]]; simpl in Hl.
    + destruct Hl as [<-|[<-|[]]].
      * exists (Scenario.lnk "a" "b"). simpl. auto.
      * exists (Scenario.lnk "b" "a"). simpl. auto.
    + destruct Hl as [<-|[<-|[<-|[]]]].
      * exists (Scenario.lnk "b" "a"). simpl. auto.
      * exists (Scenario.lnk "a" "b"). simpl. auto.
      * exists (Scenario.lnk "b" "a"). simpl. auto.
Defined.

End SymmetryFacts.

(* ================================================================== *)
(** * The range of CMod *)
(* ================================================================== *)

Module ModularityFacts.
Import Py Doc PyFacts DocFacts CmodFacts RowFacts.
Local Open Scope nat_scope.
Local Open Scope string_scope.
Local Open Scope list_scope.

Lemma Qnat_S (n : nat) : (Qnat (S n) == Qnat n + 1)%Q.
Proof.
  unfold Qnat. rewrite Nat2Z.inj_succ. unfold Z.succ.
  now rewrite inject_Z_plus.
Qed.

Lemma fold_plus_shift (l : list Q) (a : Q) :
  (fold_left Qplus l a == a + fold_left Qplus l 0)%Q.
Proof.
  revert a. induction l as [|x l IH]; intros a; simpl.
  - ring.
  - rewrite (IH (a + x)%Q), (IH (0 + x)%Q). ring.
Qed.

(** A sum of numbers of the unit interval. *)
Lemma unit_sum (l : list Q) :
  Forall (fun x => 0 <= x /\ x <= 1)%Q l ->
  (0 <= fold_left Qplus l 0)%Q /\
  (fold_left Qplus l 0 <= Qnat (List.length l))%Q /\
  ((fold_left Qplus l 0 == Qnat (List.length l))%Q ->
   Forall (fun x => x == 1)%Q l).
Proof.
  induction 1 as [|x l [Hx0 Hx1] _ [IH0 [IH1 IH2]]].
  - simpl. repeat split; try apply Qle_refl. constructor.
  - cbn [fold_left List.length]. rewrite fold_plus_shift, Qnat_S.
    repeat split; try lra.
    intros Heq. constructor; [lra|]. apply IH2. lra.
Qed.

Lemma ones_sum (l : list Q) :
  Forall (fun x => x == 1)%Q l ->
  (fold_left Qplus l 0 == Qnat (List.length l))%Q.
Proof.
  induction 1 as [|x l Hx _ IH].
  - reflexivity.
  - cbn [fold_left List.length]. rewrite fold_plus_shift, Qnat_S. lra.
Qed.

(** The mean of numbers of the unit interval lies in it, and is 1 only
    when every one of them is 1. *)
Lemma average_unit (l : list Q) (c : Q) :
  Forall (fun x => 0 <= x /\ x <= 1)%Q l -> average l = Some c ->
  (0 <= c)%Q /\ (c <= 1)%Q /\
  ((c == 1)%Q <-> Forall (fun x => x == 1)%Q l).
Proof.
  intros Hl Hc. destruct (unit_sum l Hl) as [H0 [H1 H2]].
  unfold average in Hc. destruct l as [|x rest] eqn:El; [discriminate|].
  rewrite <- El in *.
  assert (Hcc : (fold_left Qplus l 0 / Qnat (List.length l))%Q = c)
    by congruence.
  subst c.
  assert (Hn : (0 < Qnat (List.length l))%Q).
  { apply (Qnat_lt 0). rewrite El. simpl. lia. }
  split; [|split; [|split]].
  - apply Qle_shift_div_l; [assumption|]. lra.
  - apply Qle_shift_div_r; [assumption|]. lra.
  - intros Heq. apply H2.
    rewrite <- (Qmult_div_r (fold_left Qplus l 0%Q) (Qnat (List.length l)))
      by lra.
    rewrite Heq. ring.
  - intros Hall. rewrite (ones_sum l Hall). field. lra.
Qed.

(** A cluster factor lies in the unit interval, and is 1 exactly when the
    partition has no external weight. *)
Lemma cluster_factor_unit (d : document) (p : string) :
  wf d = true ->
  (0 <= cluster_factor d p)%Q /\ (cluster_factor d p <= 1)%Q /\
  ((cluster_factor d p == 1)%Q <-> (external_weight d p == 0)%Q).
Proof.
  intros Hwf. pose proof (external_weight_nonneg d p Hwf) as He.
  unfold cluster_factor, positive.
  set (e := external_weight d p) in *. set (m := internal_count d p).
  assert (Hm : (0 <= Qnat m)%Q) by (apply (Qnat_le 0); lia).
  destruct (Qle_bool e 0) eqn:E; cbn [negb].
  - apply Qle_bool_iff in E. repeat split; intros; lra.
  - assert (Hpos : (0 < e)%Q).
    { apply Qnot_le_lt. intros Hle. apply Qle_bool_iff in Hle. congruence. }
    assert (Hd : (0 < 2 * Qnat m + e)%Q) by lra.
    split; [|split; [|split]].
    + apply Qle_shift_div_l; [assumption|]. lra.
    + apply Qle_shift_div_r; [assumption|]. lra.
    + intros Heq.
      assert (H' : (2 * Qnat m == 1 * (2 * Qnat m + e))%Q).
      { rewrite <- Heq. field. lra. }
      lra.
    + intros Heq. lra.
Qed.

Section WithFloat.

Variable float_of_str : string -> option Q.

(** What [cmod_for_file] does on a well-formed document: the value it
    returns when [float] can convert every weight it reads, and
    [OverflowError] when it cannot. *)
Lemma cmod_value_repr (j : json) (d : document) :
  represents j d -> wf d = true ->
  Cmod.cmod_for_file float_of_str (Ok j) =
  if converts d then Ok (cmod d) else Raise OverflowError.
Proof.
  intros Hr Hwf.
  inversion Hr as [top struct bus dec ls bls d' Hl1 Hl3 Hdec Hparts Hls
                   Hlinks Hbl Hbls]; subst.
  unfold Cmod.cmod_for_file, Cmod.LAYER_KEY. cbn [bind].
  rewrite (subscript_obj _ _ _ Hl1). cbn [try_except].
  rewrite (dot_get_obj _ _ _ _ Hdec), (dot_get_obj _ _ _ _ Hls).
  cbn [bind dot_keys dot_items iterate].
  rewrite (node_map_repr _ _ Hparts). cbn [bind].
  unfold converts. destruct (forallb (weight_read_ok d) (links d)) eqn:Hok.
  - destruct (cmod_loop_repr float_of_str d ls (links d) Hwf Hlinks Hok
                Cmod.no_tallies) as [t [Hloop Ht]].
    rewrite Hloop. cbn [bind]. rewrite (keys_repr _ _ Hparts).
    fold (partitions d). f_equal. rewrite mean_average. unfold cmod. f_equal.
    rewrite <- keep_some_filter. f_equal. apply map_ext. intros p.
    destruct (Ht p) as [Hi [Ho Hn]]. now apply cf_of_repr.
  - now rewrite (cmod_loop_overflow float_of_str d ls (links d) Hwf Hlinks
                   Hok).
Qed.

Lemma cmod_unit (d : document) (c : Q) :
  wf d = true -> cmod d = Some c ->
  (0 <= c)%Q /\ (c <= 1)%Q /\
  ((c == 1)%Q <->
   forall p, In p (partitions d) -> (external_weight d p == 0)%Q).
Proof.
  intros Hwf Hc. unfold cmod in Hc.
  apply average_unit in Hc as [H0 [H1 H2]].
  - split; [assumption|]. split; [assumption|]. rewrite H2.
    rewrite Forall_forall. split.
    + intros H p Hp. pose proof (external_weight_nonneg d p Hwf) as He.
      destruct (weighs_in d p) eqn:Hw.
      * apply (cluster_factor_unit d p Hwf). apply H.
        apply in_map, filter_In. now split.
      * unfold weighs_in in Hw. apply orb_false_iff in Hw as [_ Hw].
        unfold positive in Hw. apply negb_false_iff, Qle_bool_iff in Hw. lra.
    + intros H x Hx. apply in_map_iff in Hx as [p [<- Hp]].
      apply filter_In in Hp as [Hp _].
      apply (cluster_factor_unit d p Hwf). now apply H.
  - apply Forall_forall. intros x Hx. apply in_map_iff in Hx as [p [<- _]].
    destruct (cluster_factor_unit d p Hwf) as [Ha [Hb _]]. now split.
Qed.

(** X10.  On a well-formed document whose weights [float] can convert,
    [cmod_for_file] returns, and CMod, when available, lies between 0 and
    1; it is 1 when no partition has any external weight, outgoing or
    incoming. *)
Theorem cmod_in_unit_interval (j : json) (d : document) :
  represents j d -> wf d = true -> converts d = true ->
  exists o,
    Cmod.cmod_for_file float_of_str (Ok j) = Ok o /\
    forall c, o = Some c ->
      (0 <= c)%Q /\ (c <= 1)%Q /\
      ((forall p, In p (partitions d) -> (external_weight d p == 0)%Q) ->
       (c == 1)%Q).
Proof.
  intros Hr Hwf Hok. exists (cmod d). split.
  - now rewrite (cmod_value_repr j d Hr Hwf), Hok.
  - intros c Hc. destruct (cmod_unit d c Hwf Hc) as [H0 [H1 H2]].
    split; [assumption|]. split; [assumption|]. apply H2.
Qed.

End WithFloat.

Lemma cmod_in_unit_interval_witness :
  exists c,
    Cmod.cmod_for_file Scenario.no_str (Ok Scenario.json2) = Ok (Some c) /\
    (0 <= c)%Q /\ (c <= 1)%Q.
Proof.
  destruct (cmod_in_unit_interval Scenario.no_str Scenario.json2
              Scenario.doc2 ScenarioFacts.represents2 eq_refl eq_refl)
    as [o [H1 H2]].
  destruct o as [c|]; [|discriminate].
  exists c. split; [exact H1|].
  destruct (H2 c eq_refl) as [Ha [Hb _]]. now split.
Defined.

End ModularityFacts.

(* ================================================================== *)
(** * Partitions without a dependency between them *)
(* ================================================================== *)

Module UncoupledFacts.
Import Py Doc PyFacts DocFacts RowFacts.
Local Open Scope nat_scope.
Local Open Scope string_scope.
Local Open Scope list_scope.

Lemma filter_none (A : Type) (f : A -> bool) (l : list A) :
  List.length (filter f l) = 0 -> forall x, In x l -> f x = false.
Proof.
  intros H x Hx. destruct (f x) eqn:E; [|reflexivity].
  assert (Hin : In x (filter f l)) by (apply filter_In; now split).
  destruct (filter f l); [contradiction | discriminate].
Qed.

Lemma filter_all_false (A : Type) (f : A -> bool) (l : list A) :
  (forall x, In x l -> f x = false) -> filter f l = [].
Proof.
  induction l as [|x l IH]; intros H; simpl; [reflexivity|].
  rewrite (H x) by now left. apply IH. intros y Hy. apply H. now right.
Qed.

Section Uncoupled.

Variable d : document.
Hypothesis no_cross : cross_edges d = 0.

Lemma not_between (l : link) : In l (links d) -> is_between d l = false.
Proof. now apply filter_none. Qed.

Lemma no_cross_pair (p q : string) : cross d p q = false.
Proof.
  destruct (cross d p q) eqn:E; [|reflexivity].
  unfold cross, cross_in in E. apply existsb_exists in E as [l [Hl E]].
  pose proof (not_between l Hl) as Hb. unfold is_between in Hb.
  destruct (place d l); discriminate.
Qed.

Lemma no_cyclic_pair : cyclic_count d = 0.
Proof.
  unfold cyclic_count. rewrite filter_all_false; [reflexivity|].
  intros [p q] _. unfold cyclic_pair. cbn [fst snd].
  now rewrite no_cross_pair.
Qed.

Lemma no_external_weight (p : string) : external_weight d p = 0%Q.
Proof.
  unfold external_weight, outgoing_weight, incoming_weight.
  rewrite !filter_all_false; [reflexivity| |].
  - intros l Hl. pose proof (not_between l Hl) as Hb.
    unfold is_between in Hb. unfold enters.
    destruct (place d l); [reflexivity | reflexivity | discriminate].
  - intros l Hl. pose proof (not_between l Hl) as Hb.
    unfold is_between in Hb. unfold leaves.
    destruct (place d l); [reflexivity | reflexivity | discriminate].
Qed.

Lemma no_named_cross : filter (is_between_named d) (links d) = [].
Proof.
  apply filter_all_false. intros l Hl. pose proof (not_between l Hl) as Hb.
  unfold is_between in Hb. unfold is_between_named.
  destruct (place d l); [reflexivity | reflexivity | discriminate].
Qed.

End Uncoupled.

(** X11.  A well-formed document with no edge between two different
    partitions gets the best value of the three coupling metrics: CiD is 1
    with no cyclic pair, SCF is 1 with no external edge (when there is a
    partition at all), and CMod, when available, is 1.  The modularity
    script converts the weight of an edge inside a partition before it
    sets the weight aside, so it returns when [float] can convert these
    weights and raises [OverflowError] when it cannot. *)
Theorem uncoupled_partitions_score_best (float_of_str : string -> option Q)
    (j : json) (d : document) :
  represents j d -> wf d = true -> cross_edges d = 0 ->
  (exists r, Cid.cid_for_file (Ok j) = Ok (Some r) /\
             Cid.cyclic_pairs r = 0 /\ (Cid.CiD r == 1)%Q) /\
  (exists r, Scf.scf_for_file (Ok j) = Ok (Some r) /\
             Scf.external_edges r = 0 /\
             (partitions d <> [] -> Scf.SCF r = 1%R)) /\
  (if converts d
   then exists o, Cmod.cmod_for_file float_of_str (Ok j) = Ok o /\
                  forall c, o = Some c -> (c == 1)%Q
   else Cmod.cmod_for_file float_of_str (Ok j) = Raise OverflowError).
Proof.
  intros Hr Hwf Hno. split; [|split].
  - eexists. split; [apply (SymmetryFacts.cid_row_repr j d Hr Hwf)|].
    cbn [Cid.cyclic_pairs Cid.CiD]. rewrite (no_cyclic_pair d Hno).
    split; [reflexivity|].
    destruct (List.length (partitions d) <=? 1)%nat; [reflexivity|].
    unfold Qnat at 1. simpl. unfold Qdiv. ring.
  - inversion Hr as [top struct bus dec ls bls d' Hl1 Hl3 Hdec Hparts Hls
                     Hlinks Hbl Hbls]; subst.
    unfold Scf.scf_for_file, Scf.LAYER_KEY. cbn [bind].
    rewrite (subscript_obj _ _ _ Hl1). cbn [try_except].
    rewrite (ScfFacts.counts_repr top struct bus d Hr Hwf Hl1).
    cbn [bind]. rewrite (no_named_cross d Hno).
    eexists. split; [reflexivity|].
    cbn [Scf.external_edges Scf.SCF List.length]. split; [reflexivity|].
    intros Hne. apply scf_value_1. split; [reflexivity|].
    destruct (partitions d); [congruence | simpl; lia].
  - rewrite (ModularityFacts.cmod_value_repr float_of_str j d Hr Hwf).
    destruct (converts d); [|reflexivity].
    exists (cmod d). split; [reflexivity|].
    intros c Hc. apply (ModularityFacts.cmod_unit d c Hwf Hc).
    intros p _. now rewrite (no_external_weight d Hno).
Qed.

Lemma uncoupled_partitions_score_best_witness :
  (exists r,
     Cid.cid_for_file (Ok Cases.json_islands) = Ok (Some r) /\
     (Cid.CiD r == 1)%Q) /\
  (exists c,
     Cmod.cmod_for_file Scenario.no_str (Ok Cases.json_islands) =
     Ok (Some c) /\ (c == 1)%Q).
Proof.
  assert (Hr : represents Cases.json_islands Cases.doc_islands)
    by ScenarioFacts.represent.
  destruct (uncoupled_partitions_score_best Scenario.no_str
              Cases.json_islands Cases.doc_islands Hr eq_refl eq_refl)
    as [[r [H1 [_ H2]]] [_ H3]].
  split; [exists r; now split|].
  change (converts Cases.doc_islands) with true in H3. cbv iota in H3.
  destruct H3 as [[c|] [Ho Hc]]; [|discriminate Ho].
  exists c. split; [exact Ho | now apply Hc].
Defined.

End UncoupledFacts.

(* ================================================================== *)
(** * The service graph of dccmd.py, on any input *)
(* ================================================================== *)

Module GraphFacts.
Import Py Graph Invariants PyFacts RowFacts DfsFacts.
Local Open Scope nat_scope.
Local Open Scope string_scope.
Local Open Scope list_scope.

(** A loop keeps what each of its turns keeps. *)
Lemma for_each_inv (A B : Type) (I : A -> Prop) (body : A -> B -> result A)
    (xs : list B) :
  (forall a x a', In x xs -> I a -> body a x = Ok a' -> I a') ->
  forall acc acc', I acc -> for_each body xs acc = Ok acc' -> I acc'.
Proof.
  induction xs as [|x xs IH]; intros Hbody acc acc' Hacc H; simpl in H.
  - now injection H as <-.
  - unbind H as a Ea. apply (IH (fun a x a' Hx => Hbody a x a' (or_intror Hx))
                               a acc'); [|assumption].
    apply (Hbody acc x a); [now left | assumption | assumption].
Qed.

(** ** The values of the node map are partition keys *)

Lemma values_in_set (K : list string) (m : list (hkey * string)) (k : hkey)
    (p : string) :
  values_in K m -> In p K -> values_in K (dict_set hkey_eqb m k p).
Proof.
  unfold values_in. induction 1 as [|[k' v'] m Hkv Hm IH]; intros Hp; simpl.
  - now repeat constructor.
  - destruct (hkey_eqb k' k); constructor; simpl; auto.
Qed.

Lemma values_in_get (K : list string) (m : list (hkey * string)) (k : hkey)
    (p : string) :
  values_in K m -> dict_get hkey_eqb m k = Some p -> In p K.
Proof.
  unfold values_in. induction 1 as [|[k' v'] m Hkv _ IH]; simpl;
    [discriminate|].
  destruct (hkey_eqb k' k); [|assumption]. now intros [= <-].
Qed.

Lemma node2part_values (items : list (string * json))
    (m : list (hkey * string)) :
  node2part items = Ok m -> values_in (dict_keys items) m.
Proof.
  unfold node2part. apply for_each_inv; [|constructor].
  intros acc [p lst] acc' Hin Hacc H.
  unbind H as ns En. revert H. apply for_each_inv; [|assumption].
  intros a n a' _ Ha H. unbind H as id Eid. unbind H as k Ek.
  injection H as <-. apply values_in_set; [assumption|].
  unfold dict_keys. now apply (in_map fst) in Hin.
Qed.

Lemma lookup_values (K : list string) (m : list (hkey * string)) (v : json)
    (p : string) :
  values_in K m -> lookup m v = Ok (Some p) -> In p K.
Proof.
  intros Hm H. unfold lookup in H. unbind H as k Ek. injection H as H.
  now apply (values_in_get K m k).
Qed.

(** ** The adjacency stays closed *)

Lemma targets_in_closed (K : list string) (adj : Dccmd.graph) :
  targets_in K adj -> closed adj.
Proof. intros [Hk He] u v Huv. apply Hk. now apply (He u). Qed.

Lemma targets_in_init (K : list string) :
  targets_in K (map (fun s => (s, @nil string)) K).
Proof.
  split.
  - intros x. unfold dict_keys. rewrite map_map. simpl. now rewrite map_id.
  - intros u v [succs [Hs Hv]]. rewrite sget_init in Hs.
    destruct (mem u K); [|discriminate]. injection Hs as <-. contradiction.
Qed.

Lemma In_keys_sset (V : Type) (m : list (string * V)) (k : string) (v : V)
    (x : string) :
  In x (dict_keys (sset m k v)) <-> x = k \/ In x (dict_keys m).
Proof.
  unfold sset, dict_keys. induction m as [|[k' v'] m IH]; simpl.
  - intuition congruence.
  - destruct (String.eqb_spec k' k) as [->|Hne]; simpl.
    + intuition congruence.
    + rewrite IH. tauto.
Qed.

Lemma step_targets (K : list string) (c2s : list (hkey * string))
    (adj adj' : Dccmd.graph) (e : json) :
  values_in K c2s -> targets_in K adj ->
  Dccmd.step c2s adj e = Ok adj' -> targets_in K adj'.
Proof.
  intros Hv [Hk He] H. unfold Dccmd.step in H. unbind H as c Ec.
  destruct c as [|ss sd]; [injection H as <-; now split|].
  unfold Dccmd.classify in Ec.
  unbind Ec as src Es. unbind Ec as s_src Ess. unbind Ec as dst Ed.
  unbind Ec as s_dst Esd.
  destruct (truthy s_src && truthy s_dst); [|discriminate].
  destruct s_src as [a|]; [|discriminate].
  destruct s_dst as [b|]; [|discriminate].
  destruct (a =? b)%string; [discriminate|]. injection Ec as -> ->.
  pose proof (lookup_values K c2s dst sd Hv Esd) as Hsd.
  unfold Dccmd.add_adj in H.
  destruct (sget adj ss) as [s|] eqn:Hs; [|discriminate]. injection H as <-.
  split.
  - intros x. rewrite In_keys_sset, <- Hk. split; [|tauto].
    intros [->|Hx]; [|assumption]. now apply sget_Some_In in Hs.
  - intros u v [succs [Hu Hin]]. rewrite sget_sset in Hu.
    destruct (String.eqb_spec ss u) as [->|Hne].
    + injection Hu as <-. apply In_set_add in Hin as [->|Hin]; [assumption|].
      apply (He u). now exists s.
    + apply (He u). now exists succs.
Qed.

(** ** The services a story starts from are keys *)

Lemma starts_in_set (K : list string) (s2s : list (string * list string))
    (st : string) (svcs : list string) :
  starts_in K s2s -> svcs <> [] -> (forall s, In s svcs -> In s K) ->
  starts_in K (sset s2s st svcs).
Proof.
  unfold starts_in, sset. intros H Hne Hin.
  induction H as [|[k' v'] m Hkv Hm IH]; simpl.
  - repeat constructor; assumption.
  - destruct (k' =? st)%string; constructor; simpl; auto.
Qed.

Lemma starts_in_get (K : list string) (s2s : list (string * list string))
    (st : string) (svcs : list string) :
  starts_in K s2s -> sget s2s st = Some svcs ->
  forall s, In s svcs -> In s K.
Proof.
  unfold starts_in, sget. induction 1 as [|[k' v'] m [_ Hkv] _ IH]; simpl;
    [discriminate|].
  destruct (k' =? st)%string; [|assumption]. now intros [= <-].
Qed.

Lemma set_add_nonempty (x : string) (s : list string) : set_add x s <> [].
Proof.
  unfold set_add. destruct (mem x s) eqn:E.
  - destruct s; [discriminate | discriminate].
  - destruct s; discriminate.
Qed.

Lemma story_step_starts (K : list string) (c2s : list (hkey * string))
    (s2s s2s' : list (string * list string)) (e : json) :
  values_in K c2s -> starts_in K s2s ->
  Dccmd.story_step c2s s2s e = Ok s2s' -> starts_in K s2s'.
Proof.
  intros Hv Hs H. unfold Dccmd.story_step in H. unbind H as story Est.
  destruct story as [| | |st| |]; try (injection H as <-; assumption).
  destruct (contains "USE CASE" (upper st));
    [|injection H as <-; assumption].
  unbind H as tgt Et. unbind H as svc Esvc.
  destruct svc as [s|]; [|injection H as <-; assumption].
  destruct (truthy (Some s)); [|injection H as <-; assumption].
  injection H as <-.
  pose proof (lookup_values K c2s tgt s Hv Esvc) as HsK.
  apply starts_in_set; [assumption | apply set_add_nonempty|].
  intros x Hx. apply In_set_add in Hx as [->|Hx]; [assumption|].
  destruct (sget s2s st) as [old|] eqn:Eo; [|contradiction].
  now apply (starts_in_get K s2s st old).
Qed.

(** ** Every depth is below the number of services *)

Lemma depth_loop_below (limit : nat) (adj : Dccmd.graph)
    (svcs : list string) :
  closed adj -> (forall s, In s svcs -> In s (dict_keys adj)) ->
  forall best n,
    best <= List.length adj - 1 ->
    for_each (fun best s => d <- Dccmd.longest_path limit s adj ;;
                            Ok (Nat.max best d)) svcs best = Ok n ->
    n <= List.length adj - 1.
Proof.
  intros Hc. induction svcs as [|s svcs IH]; intros Hin best n Hb H;
    simpl in H.
  - now injection H as <-.
  - unbind H as b' Eb. unbind Eb as dd Ed. injection Eb as <-.
    apply longest_path_sound in Ed. destruct Ed as [[p [Hp Hl]] _].
    pose proof (simple_path_short adj s p Hc (Hin s (or_introl eq_refl)) Hp)
      as Hle.
    apply (IH (fun x Hx => Hin x (or_intror Hx)) (Nat.max best dd));
      [lia | assumption].
Qed.

Lemma map_each_Forall (A B : Type) (f : A -> result B) (P : B -> Prop)
    (xs : list A) (ys : list B) :
  (forall x y, In x xs -> f x = Ok y -> P y) ->
  map_each f xs = Ok ys -> Forall P ys.
Proof.
  revert ys. induction xs as [|x xs IH]; intros ys Hf H; simpl in H.
  - injection H as <-. constructor.
  - unbind H as y Ey. unbind H as ys' Eys. injection H as <-.
    constructor.
    + apply (Hf x y); [now left | assumption].
    + apply IH; [|assumption]. intros x' y' Hx'. apply Hf. now right.
Qed.

(** X12.  Whatever the input, when [depths_for_file] returns depths it
    also returns the number of services, there is at least one service,
    and every depth is smaller than that number: the adjacency the function
    builds only ever points at services it has as keys. *)
Theorem depths_are_below_service_count (limit : nat) (loaded : result json)
    (depths : list nat) (svc : option nat) :
  Dccmd.depths_for_file limit loaded = Ok (Some depths, svc) ->
  exists n, svc = Some n /\ 1 <= n /\ Forall (fun d => d < n) depths.
Proof.
  unfold Dccmd.depths_for_file. intros H.
  apply try_except_Ok in H as [[[struct bus] [_ H]]|[e [_ H]]];
    [|discriminate].
  unbind H as decomp Ed. unbind H as items Ei. unbind H as c2s Ec.
  unbind H as decomp' Ed'. unbind H as keys Ek. unbind H as links El.
  unbind H as es Ee. unbind H as adj Ea. unbind H as blinks Eb.
  unbind H as bes Ebe. unbind H as s2s Es.
  rewrite Ed in Ed'. injection Ed' as <-.
  unfold dot_keys in Ek. rewrite Ei in Ek. cbn [bind] in Ek.
  injection Ek as <-.
  set (K := sorted (dict_keys items)) in *.
  assert (Hv : values_in K c2s).
  { apply node2part_values in Ec. unfold values_in in *.
    rewrite Forall_forall in *. intros kv Hkv. apply sorted_In. now apply Ec. }
  assert (Ht : targets_in K adj).
  { revert Ea. apply for_each_inv; [|apply targets_in_init].
    intros a x a' _. now apply step_targets. }
  assert (Hs : starts_in K s2s).
  { revert Es. apply for_each_inv; [|constructor].
    intros a x a' _. now apply story_step_starts. }
  assert (Hlen : List.length adj = List.length K).
  { assert (Hkeys : dict_keys adj = K);
      [|rewrite <- Hkeys; unfold dict_keys; now rewrite length_map].
    revert Ea. apply (for_each_inv _ _ (fun a => dict_keys a = K)).
    - intros a x a' _ Ha Hstep. unfold Dccmd.step in Hstep.
      unbind Hstep as c Ecl. destruct c as [|ss sd];
        [injection Hstep as <-; assumption|].
      unfold Dccmd.add_adj in Hstep.
      destruct (sget a ss) as [s|] eqn:Hss; [|discriminate].
      injection Hstep as <-. rewrite <- Ha.
      apply keys_sset_present. now apply sget_Some_In in Hss.
    - unfold dict_keys. rewrite map_map. simpl. apply map_id. }
  destruct s2s as [|kv rest] eqn:Hs2s; [discriminate|]. rewrite <- Hs2s in *.
  unbind H as ds Eds. injection H as <- <-.
  exists (List.length K). split; [reflexivity|].
  assert (Hpos : 1 <= List.length K).
  { rewrite Hs2s in Hs. inversion Hs as [|? ? [Hne Hin] _]; subst.
    destruct (snd kv) as [|s l]; [congruence|].
    specialize (Hin s (or_introl eq_refl)).
    destruct K; [contradiction | simpl; lia]. }
  split; [assumption|].
  revert Eds. apply map_each_Forall. intros svcs d Hin Hd.
  unfold Dccmd.story_depth in Hd.
  apply depth_loop_below in Hd; [lia | now apply (targets_in_closed K) | | lia].
  intros s Hsv. apply Ht. unfold starts_in in Hs. rewrite Forall_forall in Hs.
  unfold dict_values in Hin. apply in_map_iff in Hin as [[st svcs'] [<- Hin]].
  now apply (Hs (st, svcs')).
Qed.

Lemma depths_are_below_service_count_witness :
  Dccmd.depths_for_file 1000 (Ok Scenario.json5) =
  Ok (Some [2; 0], Some 3) /\
  Forall (fun d => d < 3) [2; 0].
Proof.
  split; [reflexivity|].
  destruct (depths_are_below_service_count 1000 (Ok Scenario.json5) [2; 0]
              (Some 3) eq_refl) as [n [Hn [_ H]]].
  injection Hn as <-. exact H.
Defined.

End GraphFacts.

(* ================================================================== *)
(** * The search, with and without its cache *)
(* ================================================================== *)

Module SearchFacts.
Import Py Graph PyFacts DfsFacts.
Import Dccmd (dfs_uncached).
Local Open Scope nat_scope.
Local Open Scope string_scope.
Local Open Scope list_scope.

(** X13.  The [lru_cache] on [dfs] changes no result.  Given the same
    room for nested calls, [longest_path] ends as the undecorated recursion
    does, on every adjacency and start, closed or not, whether it returns a
    depth or raises [KeyError] or [RecursionError].  The wrapper of the
    cache takes recursion depth of its own, so the undecorated function has
    at least as much room: what [longest_path] returns or raises, short of
    [RecursionError], the function returns or raises with any such room. *)
Theorem memoization_changes_no_result (adj : Dccmd.graph) (start : string)
    (limit room : nat) :
  Dccmd.longest_path limit start adj = dfs_uncached limit adj start [start] /\
  (limit <= room ->
   Dccmd.longest_path limit start adj <> Raise RecursionError ->
   dfs_uncached room adj start [start] = Dccmd.longest_path limit start adj).
Proof.
  split; [apply longest_path_uncached|].
  rewrite longest_path_uncached. intros Hle Hr.
  now apply (uncached_mono limit room).
Qed.

Lemma memoization_changes_no_result_witness :
  Dccmd.longest_path 3 "A" Scenario.adj5 = Ok 2 /\
  dfs_uncached 5 Scenario.adj5 "A" ["A"] = Ok 2.
Proof.
  split; [reflexivity|].
  destruct (memoization_changes_no_result Scenario.adj5 "A" 3 5) as [_ H].
  apply H; [lia | discriminate].
Defined.

(** X14.  Adding edges never shortens a longest path.  When every edge of
    one closed adjacency is an edge of another and the search from a start
    returns on the larger, it returns on the smaller too, with a depth that
    is no greater; the search on the larger returns when the interpreter
    lets as many calls nest as it has services. *)
Theorem more_edges_never_shorten (limit : nat) (adj adj' : Dccmd.graph)
    (start : string) :
  closed adj -> closed adj' ->
  In start (dict_keys adj) -> In start (dict_keys adj') ->
  (forall u v, edge adj u v -> edge adj' u v) ->
  (forall d',
     Dccmd.longest_path limit start adj' = Ok d' ->
     exists d, Dccmd.longest_path limit start adj = Ok d /\ d <= d') /\
  (List.length adj' <= limit ->
   exists d', Dccmd.longest_path limit start adj' = Ok d').
Proof.
  intros Hc Hc' Hs Hs' Hsub. split.
  - intros d' Hd'.
    destruct (longest_exists adj start Hc Hs) as [d [Hd _]].
    pose proof (longest_path_sound _ _ _ _ Hd') as Hl'.
    assert (Hle : d <= d').
    { destruct Hd as [[p [[Hch Hnd] Hl]] _]. destruct Hl' as [_ Hmax].
      rewrite <- Hl. apply Hmax. split; [|assumption].
      revert Hch. apply DccmdFacts.chain_iff. exact Hsub. }
    exists d. split; [|assumption].
    rewrite (longest_path_exact limit adj' start d' Hc' Hs' Hl') in Hd'.
    rewrite (longest_path_exact limit adj start d Hc Hs Hd).
    destruct (Nat.ltb_spec d' limit); [|discriminate].
    destruct (Nat.ltb_spec d limit); [reflexivity | lia].
  - intros Hl.
    destruct (longest_path_closed limit adj' start Hc' Hs' Hl)
      as [d' [Hd' _]].
    now exists d'.
Qed.

Lemma more_edges_never_shorten_witness :
  exists d d',
    Dccmd.longest_path 3 "A" Cases.adj_cut = Ok d /\
    Dccmd.longest_path 3 "A" Scenario.adj5 = Ok d' /\
    d <= d'.
Proof.
  destruct (more_edges_never_shorten 3 Cases.adj_cut Scenario.adj5 "A")
    as [H _].
  - apply closedb_closed. reflexivity.
  - apply closedb_closed. reflexivity.
  - simpl. auto.
  - simpl. auto.
  - intros u v [succs [Hu Hv]]. unfold edge, sget in *.
    cbn [dict_get Scenario.adj5 Cases.adj_cut] in *.
    destruct ("A" =? u)%string; [injection Hu as <-; contradiction|].
    destruct ("B" =? u)%string; [now exists succs|].
    destruct ("C" =? u)%string; [injection Hu as <-; contradiction|].
    discriminate.
  - destruct (H 2 eq_refl) as [d [Hd Hle]].
    exists d, 2. split; [exact Hd|]. split; [reflexivity | exact Hle].
Defined.

End SearchFacts.

(* ================================================================== *)
(** * A node declared more than once *)
(* ================================================================== *)

Module NodeMapFacts.
Import Py Doc Edits PyFacts DocFacts.
Local Open Scope nat_scope.
Local Open Scope string_scope.
Local Open Scope list_scope.

Lemma node_map_snoc (dec : list (string * list string))
    (pn : string * list string) (acc : list (hkey * string)) :
  node_map (dec ++ [pn]) acc = add_nodes (fst pn) (snd pn) (node_map dec acc).
Proof. unfold node_map. now rewrite fold_left_app. Qed.

Lemma node_map_last (dec : list (string * list string)) (x : string) :
  dict_get hkey_eqb (node_map dec []) (KStr x) = last_partition dec x.
Proof.
  unfold last_partition. induction dec as [|pn dec IH] using rev_ind.
  - reflexivity.
  - rewrite node_map_snoc, add_nodes_get, rev_app_distr. simpl.
    destruct (mem x (snd pn)); [now destruct pn|]. exact IH.
Qed.

(** X15.  The node-to-partition map every script builds gives a node that
    is listed under several partitions to the last of them, in the order of
    the document; a node that is listed nowhere has no partition. *)
Theorem node_declared_twice_goes_to_last (dec : list (string * json))
    (parts : list (string * list string)) (x : string) :
  Forall2 repr_part dec parts ->
  exists m,
    node2part dec = Ok m /\
    lookup m (JStr x) = Ok (last_partition parts x) /\
    (last_partition parts x = None <->
     forall p ids, In (p, ids) parts -> ~ In x ids).
Proof.
  intros Hr. exists (node_map parts []).
  split; [now apply node_map_repr|]. split.
  - unfold lookup. cbn [hash bind]. now rewrite node_map_last.
  - unfold last_partition.
    destruct (find (fun pn => mem x (snd pn)) (rev parts)) as [[p ids]|] eqn:E.
    + split; [discriminate|]. intros H. apply find_some in E as [Hin Hm].
      apply in_rev in Hin. apply mem_In in Hm. now elim (H p ids).
    + split; [|reflexivity]. intros _ p ids Hin Hx.
      apply in_rev in Hin. pose proof (find_none _ _ E (p, ids) Hin) as Hf.
      simpl in Hf. apply mem_false in Hf. contradiction.
Qed.

Lemma node_declared_twice_goes_to_last_witness :
  exists m,
    node2part (map Scenario.jpart Cases.dec_twice) = Ok m /\
    lookup m (JStr "x") = Ok (Some "B").
Proof.
  destruct (node_declared_twice_goes_to_last
              (map Scenario.jpart Cases.dec_twice) Cases.dec_twice "x")
    as [m [H1 [H2 _]]].
  - repeat first [ apply Forall2_nil | apply Forall2_cons
                 | apply repr_part_intro | apply repr_node_intro
                 | reflexivity ].
  - exists m. split; assumption.
Defined.

End NodeMapFacts.

(* ================================================================== *)
(** * Strings, split and joined *)
(* ================================================================== *)

Module StringFacts.
Import Py Agg.
Local Open Scope nat_scope.
Local Open Scope list_scope.
Local Open Scope string_scope.

Lemma prefix_empty (s : string) : prefix EmptyString s = true.
Proof. now destruct s. Qed.

(** [c in s] for a one-character [c]. *)
Lemma contains_char (a c : ascii) (s : string) :
  contains (String a EmptyString) (String c s) =
  Ascii.eqb a c || contains (String a EmptyString) s.
Proof.
  cbn [contains prefix]. destruct (ascii_dec a c) as [->|Hne].
  - now rewrite prefix_empty, Ascii.eqb_refl.
  - apply Ascii.eqb_neq in Hne. now rewrite Hne.
Qed.

Lemma contains_char_empty (a : ascii) :
  contains (String a EmptyString) EmptyString = false.
Proof. reflexivity. Qed.

Lemma contains_char_app (a : ascii) (s t : string) :
  contains (String a EmptyString) (s ++ t) =
  contains (String a EmptyString) s || contains (String a EmptyString) t.
Proof.
  induction s as [|c s IH].
  - reflexivity.
  - change (String c s ++ t) with (String c (s ++ t)).
    rewrite !contains_char, IH. apply orb_assoc.
Qed.

Lemma append_assoc (a b c : string) : (a ++ b) ++ c = a ++ (b ++ c).
Proof. induction a as [|x a IH]; simpl; [reflexivity | now rewrite IH]. Qed.

Lemma length_append (a b : string) :
  String.length (a ++ b) = String.length a + String.length b.
Proof. induction a as [|x a IH]; simpl; [reflexivity | now rewrite IH]. Qed.

Lemma substring_all (s : string) : substring 0 (String.length s) s = s.
Proof. induction s as [|c s IH]; simpl; [reflexivity | now rewrite IH]. Qed.

Lemma substring_front (a b : string) :
  substring 0 (String.length a) (a ++ b) = a.
Proof.
  induction a as [|c a IH]; simpl; [now destruct b | now rewrite IH].
Qed.

Lemma substring_back (a b : string) :
  substring (String.length a) (String.length b) (a ++ b) = b.
Proof.
  induction a as [|c a IH]; simpl; [apply substring_all | exact IH].
Qed.

Lemma ends_with_append (a suf : string) : ends_with suf (a ++ suf) = true.
Proof.
  unfold ends_with. rewrite length_append.
  replace (String.length a + String.length suf - String.length suf)
    with (String.length a) by lia.
  rewrite substring_back, String.eqb_refl.
  rewrite andb_true_r. apply Nat.leb_le. lia.
Qed.

Lemma drop_last_append (a suf : string) :
  drop_last (String.length suf) (a ++ suf) = a.
Proof.
  unfold drop_last. rewrite length_append.
  replace (String.length a + String.length suf - String.length suf)
    with (String.length a) by lia.
  apply substring_front.
Qed.

(** ** [split] *)

Lemma split_on_nonempty (sep : ascii) (s : string) : split_on sep s <> [].
Proof.
  induction s as [|c s IH]; simpl; [discriminate|].
  destruct (Ascii.eqb c sep); [discriminate|].
  destruct (split_on sep s); [congruence | discriminate].
Qed.

Lemma split_on_whole (sep : ascii) (s : string) :
  contains (String sep EmptyString) s = false -> split_on sep s = [s].
Proof.
  induction s as [|c s IH]; [reflexivity|].
  rewrite contains_char. intros H. apply orb_false_iff in H as [Hc Hs].
  simpl. rewrite Ascii.eqb_sym, Hc. now rewrite IH.
Qed.

Lemma split_on_append (sep : ascii) (a b : string) :
  split_on sep (a ++ String sep b) =
  (split_on sep a ++ split_on sep b)%list.
Proof.
  induction a as [|c a IH].
  - simpl. now rewrite Ascii.eqb_refl.
  - change (String c a ++ String sep b) with (String c (a ++ String sep b)).
    cbn [split_on]. rewrite IH. destruct (Ascii.eqb c sep); [reflexivity|].
    pose proof (split_on_nonempty sep a) as Hne.
    destruct (split_on sep a); [congruence | reflexivity].
Qed.

(** Splitting once at a separator that occurs gives two parts, the first
    free of it, which joined by it give the string back. *)
Lemma split_once_found (sep : ascii) (s : string) :
  contains (String sep EmptyString) s = true ->
  exists a b,
    split_once sep s = [a; b] /\ s = a ++ String sep b /\
    contains (String sep EmptyString) a = false.
Proof.
  induction s as [|c s IH]; [discriminate|].
  rewrite contains_char. cbn [split_once].
  destruct (Ascii.eqb c sep) eqn:E.
  - intros _. apply Ascii.eqb_eq in E as ->.
    exists EmptyString, s. repeat split.
  - rewrite Ascii.eqb_sym, E. simpl. intros H.
    destruct (IH H) as [a [b [-> [-> Ha]]]].
    exists (String c a), b. repeat split.
    rewrite contains_char, Ascii.eqb_sym, E. exact Ha.
Qed.

Lemma split_once_append (sep : ascii) (a b : string) :
  contains (String sep EmptyString) a = false ->
  split_once sep (a ++ String sep b) = [a; b].
Proof.
  induction a as [|c a IH]; intros H.
  - simpl. now rewrite Ascii.eqb_refl.
  - rewrite contains_char in H. apply orb_false_iff in H as [Hc Ha].
    change (String c a ++ String sep b) with (String c (a ++ String sep b)).
    cbn [split_once]. rewrite Ascii.eqb_sym, Hc. now rewrite (IH Ha).
Qed.

(** ** [Path(...).name] *)

Lemma path_name_bare (name : string) :
  contains "/" name = false -> name <> EmptyString -> name <> "." ->
  path_name name = name.
Proof.
  intros Hs He Hd. unfold path_name. rewrite (split_on_whole "/" name Hs).
  cbn [filter].
  destruct (String.eqb_spec name EmptyString); [contradiction|].
  destruct (String.eqb_spec name "."); [contradiction|]. reflexivity.
Qed.

Lemma path_name_in_folder (dir name : string) :
  contains "/" name = false -> name <> EmptyString -> name <> "." ->
  path_name (dir ++ "/" ++ name) = name.
Proof.
  intros Hs He Hd. unfold path_name.
  change ("/" ++ name) with (String "/" name).
  rewrite split_on_append, (split_on_whole "/" name Hs), filter_app.
  cbn [filter].
  destruct (String.eqb_spec name EmptyString); [contradiction|].
  destruct (String.eqb_spec name "."); [contradiction|].
  cbn [negb andb]. apply last_last.
Qed.

End StringFacts.

(* ================================================================== *)
(** * aggregate_values.py: reading a file name and a header row *)
(* ================================================================== *)

Module NameFacts.
Import Py Agg AggSpec StringFacts.
Local Open Scope nat_scope.
Local Open Scope list_scope.
Local Open Scope string_scope.

Section WithLibrary.

Variable path_stem : string -> string.

(** [parse_name] never raises: the unpacking of the split never fails. *)
Lemma parse_name_total (fname : string) :
  exists r, parse_name path_stem fname = Ok r.
Proof.
  unfold parse_name.
  set (stem := if ends_with ".json" (path_name fname)
               then drop_last 5 (path_name fname)
               else path_stem (path_name fname)).
  destruct (contains "_" stem) eqn:E; cbn [negb]; [|eauto].
  destruct (split_once_found "_" stem E) as [a [b [-> _]]]. eauto.
Qed.

Lemma parse_name_stem (proj cand : string) :
  contains "_" proj = false ->
  (if negb (contains "_" (proj ++ "_" ++ cand)) then Ok None
   else match split_once "_" (proj ++ "_" ++ cand) with
        | [p; c] => Ok (Some (p, c))
        | _ => Raise ValueError
        end) = Ok (Some (proj, cand)).
Proof.
  intros Hp. change ("_" ++ cand) with (String "_" cand).
  rewrite contains_char_app, contains_char, Ascii.eqb_refl, orb_true_r.
  cbn [negb]. now rewrite split_once_append.
Qed.

(** X16.  A file name of the expected form is read back into its two parts:
    for a project without underscore or slash and a candidate without slash
    (underscores allowed), [parse_name] of "project_candidate.json" is
    (project, candidate), and a folder in front of the name changes
    nothing. *)
Theorem parse_name_reads_both_parts (dir proj cand : string) :
  contains "_" proj = false ->
  contains "/" proj = false -> contains "/" cand = false ->
  parse_name path_stem (proj ++ "_" ++ cand ++ ".json") =
  Ok (Some (proj, cand)) /\
  parse_name path_stem (dir ++ "/" ++ proj ++ "_" ++ cand ++ ".json") =
  Ok (Some (proj, cand)).
Proof.
  intros Hu Hp Hc.
  set (name := proj ++ "_" ++ cand ++ ".json").
  assert (Hname : name = (proj ++ "_" ++ cand) ++ ".json").
  { unfold name. now rewrite !append_assoc. }
  assert (Hslash : contains "/" name = false).
  { unfold name. rewrite !contains_char_app, Hp, Hc. reflexivity. }
  assert (Hunder : contains "_" name = true).
  { unfold name. change ("_" ++ cand ++ ".json")
      with (String "_" (cand ++ ".json")).
    now rewrite contains_char_app, contains_char, Ascii.eqb_refl,
      orb_true_r. }
  assert (He : name <> EmptyString).
  { intros E. rewrite E in Hunder. discriminate. }
  assert (Hd : name <> ".").
  { intros E. rewrite E in Hunder. discriminate. }
  assert (Hbase : forall base, base = name ->
            (let stem := if ends_with ".json" base then drop_last 5 base
                         else path_stem base in
             if negb (contains "_" stem) then Ok None
             else match split_once "_" stem with
                  | [p; c] => Ok (Some (p, c))
                  | _ => Raise ValueError
                  end) = Ok (Some (proj, cand))).
  { intros base ->. cbv zeta. rewrite Hname, ends_with_append.
    change 5 with (String.length ".json"). rewrite drop_last_append.
    now apply parse_name_stem. }
  split.
  - unfold parse_name. apply Hbase. now apply path_name_bare.
  - unfold parse_name. apply Hbase. now apply path_name_in_folder.
Qed.

End WithLibrary.

Lemma parse_name_reads_both_parts_witness :
  parse_name Cases.whole_name "shop_by_class.json" =
  Ok (Some ("shop", "by_class")) /\
  parse_name Cases.whole_name "out/shop_by_class.json" =
  Ok (Some ("shop", "by_class")).
Proof.
  apply (parse_name_reads_both_parts Cases.whole_name "out" "shop"
           "by_class"); reflexivity.
Defined.

(** ** [pick_metric] *)

Lemma first_known_sound (table : list (string * list string))
    (headers : list string) (m c : string) :
  first_known table headers = Some (m, c) ->
  In c headers /\ exists cands, In (m, cands) table /\ In c cands.
Proof.
  induction table as [|[metric cands] table IH]; simpl; [discriminate|].
  destruct (find (fun c => mem c headers) cands) as [c'|] eqn:E.
  - intros [= <- <-]. apply find_some in E as [Hin Hm].
    apply PyFacts.mem_In in Hm. split; [assumption|].
    exists cands. split; [now left | assumption].
  - intros H. destruct (IH H) as [Hc [cs [Hcs Hin]]].
    split; [assumption|]. exists cs. split; [now right | assumption].
Qed.

Lemma first_known_none (table : list (string * list string))
    (headers : list string) :
  first_known table headers = None ->
  forall m cands c, In (m, cands) table -> In c cands -> ~ In c headers.
Proof.
  induction table as [|[metric cs] table IH]; simpl; [contradiction|].
  destruct (find (fun c => mem c headers) cs) as [c'|] eqn:E; [discriminate|].
  intros H m cands c [[= <- <-]|Hin] Hc Hh.
  - pose proof (find_none _ _ E c Hc) as Hf. simpl in Hf.
    apply PyFacts.mem_false in Hf. contradiction.
  - now apply (IH H m cands c).
Qed.

(** X17.  The column [pick_metric] returns is a header of the file and a
    column of the metric it returns with it; it returns nothing exactly
    when no header is a column of any metric.  A file with a CiD column is
    read for CiD, whatever other metric columns it has. *)
Theorem pick_metric_picks_a_column (headers : list string) :
  match pick_metric headers with
  | Some (m, c) => In c headers /\ column_of m c
  | None => forall h m, In h headers -> ~ column_of m h
  end /\
  (In "CiD" headers -> pick_metric headers = Some ("CiD", "CiD")).
Proof.
  split.
  - unfold pick_metric.
    destruct (first_known METRIC_HEADERS headers) as [[m c]|] eqn:E1.
    { apply first_known_sound in E1 as [Hc Hm]. split; [assumption|].
      now left. }
    destruct (find (fullmatch_variant "SMAD_c") headers) as [h|] eqn:E2.
    { apply find_some in E2 as [Hin Hv].
      destruct (mem "SMAD_c7" headers) eqn:E7.
      - apply PyFacts.mem_In in E7. split; [assumption|]. right.
        split; [now left | reflexivity].
      - split; [assumption|]. right. split; [now left | assumption]. }
    destruct (find (fullmatch_variant "DCCMD_c") headers) as [h|] eqn:E3.
    { apply find_some in E3 as [Hin Hv].
      destruct (mem "DCCMD_c2.0" headers) eqn:E7.
      - apply PyFacts.mem_In in E7. split; [assumption|]. right.
        split; [now right | reflexivity].
      - split; [assumption|]. right. split; [now right | assumption]. }
    intros h m Hh [[cands [Hm Hc]]|[[->| ->] Hv]].
    + now apply (first_known_none _ _ E1 m cands h).
    + pose proof (find_none _ _ E2 h Hh) as Hf.
      change ("SMAD" ++ "_c") with "SMAD_c" in Hv. congruence.
    + pose proof (find_none _ _ E3 h Hh) as Hf.
      change ("DCCMD" ++ "_c") with "DCCMD_c" in Hv. congruence.
  - intros H. apply PyFacts.mem_In in H. unfold pick_metric.
    cbn [first_known METRIC_HEADERS find]. now rewrite H.
Qed.

End NameFacts.

(* ================================================================== *)
(** * aggregate_values.py: the table written *)
(* ================================================================== *)

Module AggFacts.
Import Py Agg AggSpec PyFacts RowFacts NameFacts.
Local Open Scope nat_scope.
Local Open Scope string_scope.
Local Open Scope list_scope.

(** ** Keys *)

Lemma key_eqb_eq (a b : key) : key_eqb a b = true <-> a = b.
Proof.
  destruct a as [a1 a2], b as [b1 b2]. unfold key_eqb. cbn [fst snd].
  rewrite andb_true_iff, !String.eqb_eq. split.
  - now intros [-> ->].
  - now intros [= -> ->].
Qed.

Lemma key_eqb_refl (a : key) : key_eqb a a = true.
Proof. now apply key_eqb_eq. Qed.

Lemma key_eqb_neq (a b : key) : key_eqb a b = false <-> a <> b.
Proof.
  rewrite <- key_eqb_eq. destruct (key_eqb a b); split; congruence.
Qed.

Lemma key_leb_total (a b : key) : key_leb a b = false -> key_leb b a = true.
Proof.
  unfold key_leb, String.leb.
  rewrite (String.compare_antisym (fst b) (fst a)).
  rewrite (String.compare_antisym (snd b) (snd a)).
  destruct (String.compare (fst a) (fst b)); cbn [CompOpp];
    try discriminate; try reflexivity.
  destruct (String.compare (snd a) (snd b)); cbn [CompOpp];
    try discriminate; reflexivity.
Qed.

(** ** The table as a dictionary *)

Section Table.

Variable V : Type.

Lemma kget_kset (m : list (key * V)) (k : key) (v : V) (k' : key) :
  dict_get key_eqb (dict_set key_eqb m k v) k' =
  if key_eqb k k' then Some v else dict_get key_eqb m k'.
Proof.
  induction m as [|[k0 v0] m IH]; simpl.
  - reflexivity.
  - destruct (key_eqb k0 k) eqn:E; simpl.
    + apply key_eqb_eq in E as ->. now destruct (key_eqb k k').
    + rewrite IH. destruct (key_eqb k0 k') eqn:E'; [|reflexivity].
      apply key_eqb_eq in E' as <-.
      destruct (key_eqb k k0) eqn:E2; [|reflexivity].
      apply key_eqb_eq in E2 as ->. rewrite key_eqb_refl in E. discriminate.
Qed.

Lemma kget_In (m : list (key * V)) (k : key) (v : V) :
  dict_get key_eqb m k = Some v -> In (k, v) m.
Proof.
  induction m as [|[k0 v0] m IH]; simpl; [discriminate|].
  destruct (key_eqb k0 k) eqn:E.
  - apply key_eqb_eq in E as ->. intros [= ->]. now left.
  - intros H. right. now apply IH.
Qed.

Lemma kget_None (m : list (key * V)) (k : key) :
  dict_get key_eqb m k = None <-> ~ In k (dict_keys m).
Proof.
  unfold dict_keys. induction m as [|[k0 v0] m IH]; simpl.
  - tauto.
  - destruct (key_eqb k0 k) eqn:E.
    + apply key_eqb_eq in E. split; [discriminate | tauto].
    + apply key_eqb_neq in E. rewrite IH. tauto.
Qed.

Lemma In_kget (m : list (key * V)) (k : key) (v : V) :
  NoDup (dict_keys m) -> In (k, v) m -> dict_get key_eqb m k = Some v.
Proof.
  unfold dict_keys. induction m as [|[k0 v0] m IH]; simpl; [contradiction|].
  intros Hnd [[= -> ->]|Hin].
  - now rewrite key_eqb_refl.
  - inversion Hnd as [|? ? Hk0 Hnd']; subst.
    destruct (key_eqb k0 k) eqn:E; [|now apply IH].
    apply key_eqb_eq in E as ->. elim Hk0.
    now apply (in_map fst) in Hin.
Qed.

Lemma keys_kset_present (m : list (key * V)) (k : key) (v : V) :
  In k (dict_keys m) -> dict_keys (dict_set key_eqb m k v) = dict_keys m.
Proof.
  unfold dict_keys. induction m as [|[k0 v0] m IH]; simpl; [contradiction|].
  destruct (key_eqb k0 k) eqn:E; [reflexivity|]. apply key_eqb_neq in E.
  intros [H|H]; [congruence|]. simpl. now rewrite IH.
Qed.

Lemma keys_kset_absent (m : list (key * V)) (k : key) (v : V) :
  ~ In k (dict_keys m) ->
  dict_keys (dict_set key_eqb m k v) = dict_keys m ++ [k].
Proof.
  unfold dict_keys. induction m as [|[k0 v0] m IH]; simpl; [reflexivity|].
  intros H. destruct (key_eqb k0 k) eqn:E.
  - apply key_eqb_eq in E. tauto.
  - simpl. rewrite IH; tauto.
Qed.

End Table.

(** ** Sorting the items *)

Lemma insert_item_perm (x : key * list (string * string)) (l : table) :
  Permutation (insert_item x l) (x :: l).
Proof.
  induction l as [|y l IH]; simpl; [reflexivity|].
  destruct (key_leb (fst x) (fst y)); [reflexivity|].
  rewrite IH. apply perm_swap.
Qed.

Lemma sorted_items_perm (agg : table) : Permutation (sorted_items agg) agg.
Proof.
  induction agg as [|x agg IH]; simpl; [reflexivity|].
  rewrite insert_item_perm. now constructor.
Qed.

Lemma insert_item_ordered (x : key * list (string * string)) (l : table) :
  ordered l -> ordered (insert_item x l).
Proof.
  unfold ordered. induction 1 as [|y l Hs IH Hhd]; simpl.
  - repeat constructor.
  - destruct (key_leb (fst x) (fst y)) eqn:E.
    + constructor; [now constructor|]. now constructor.
    + constructor; [assumption|].
      destruct l as [|z l]; simpl.
      * constructor. now apply key_leb_total.
      * destruct (key_leb (fst x) (fst z)); constructor.
        -- now apply key_leb_total.
        -- now inversion Hhd.
Qed.

Lemma sorted_items_ordered (agg : table) : ordered (sorted_items agg).
Proof.
  induction agg as [|x agg IH]; simpl; [constructor|].
  now apply insert_item_ordered.
Qed.

(** With distinct keys the order is strict. *)
Lemma ordered_strict (l : table) :
  ordered l -> NoDup (dict_keys l) -> Sorted key_lt (dict_keys l).
Proof.
  unfold ordered, dict_keys. induction 1 as [|y l Hs IH Hhd]; simpl;
    intros Hnd; [constructor|].
  inversion Hnd as [|? ? Hy Hnd']; subst. constructor; [now apply IH|].
  destruct l as [|z l]; simpl; constructor.
  inversion Hhd; subst. split; [assumption|].
  intros E. apply Hy. rewrite E. now left.
Qed.

Section WithLibrary.

Variable path_stem : string -> string.
Variable float_2f : string -> option string.


(** ** The loops, as one pass over the contributions *)

Lemma row_step_entry (mn mc : string) (agg : table)
    (row : list (string * option string)) :
  row_step path_stem float_2f mn mc agg row =
  Ok (fold_left put (row_entry path_stem float_2f mn mc row) agg).
Proof.
  unfold row_step, AggSpec.row_entry.
  destruct (file_cell row =? EmptyString); [reflexivity|].
  destruct (parse_name_total path_stem (file_cell row)) as [r ->].
  cbn [bind]. destruct r as [[proj cand]|]; [|reflexivity].
  destruct ((proj =? EmptyString) || (cand =? EmptyString)); reflexivity.
Qed.

Lemma rows_entries (mn mc : string)
    (rs : list (list (string * option string))) (agg : table) :
  for_each (row_step path_stem float_2f mn mc) rs agg =
  Ok (fold_left put
        (flat_map (row_entry path_stem float_2f mn mc) rs) agg).
Proof.
  revert agg. induction rs as [|r rs IH]; intros agg; simpl.
  - reflexivity.
  - rewrite row_step_entry. cbn [bind]. rewrite IH.
    now rewrite fold_left_app.
Qed.

Lemma file_step_entries (agg : table) (f : csv_file) :
  file_step path_stem float_2f agg f =
  Ok (fold_left put (file_entries path_stem float_2f f) agg).
Proof.
  unfold file_step, AggSpec.file_entries.
  destruct (is_output f); [reflexivity|].
  destruct (fieldnames f) as [headers|]; [|reflexivity].
  destruct headers as [|h hs] eqn:Eh; [reflexivity|]. rewrite <- Eh.
  cbn [orb]. destruct (mem "file" headers); [|reflexivity]. cbn [negb].
  destruct (pick_metric headers) as [[mn mc]|]; [|reflexivity].
  apply rows_entries.
Qed.

Lemma files_entries (files : list csv_file) (agg : table) :
  for_each (file_step path_stem float_2f) files agg =
  Ok (fold_left put (entries path_stem float_2f files) agg).
Proof.
  revert agg. induction files as [|f files IH]; intros agg; simpl.
  - reflexivity.
  - rewrite file_step_entries. cbn [bind]. rewrite IH.
    unfold AggSpec.entries. cbn [flat_map]. now rewrite fold_left_app.
Qed.

(** ** What the table holds after the pass *)

Lemma cell_snoc (es : list entry) (k : key) (mn v : string) (k' : key)
    (name : string) :
  cell (es ++ [(k, mn, v)]) k' name =
  if key_eqb k k' && (mn =? name) then v else cell es k' name.
Proof.
  unfold cell. rewrite rev_app_distr. cbn [rev app find fst snd].
  now destruct (key_eqb k k' && (mn =? name)).
Qed.

Lemma cell_absent (es : list entry) (k : key) (name : string) :
  (forall m v, ~ In (k, m, v) es) -> cell es k name = "NA".
Proof.
  intros H. unfold cell.
  destruct (find (fun e => key_eqb (fst (fst e)) k && (snd (fst e) =? name))
              (rev es)) as [[[k0 m0] v0]|] eqn:E; [|reflexivity].
  apply find_some in E as [Hin Hk]. cbn [fst snd] in Hk.
  apply andb_true_iff in Hk as [Hk _]. apply key_eqb_eq in Hk as ->.
  apply in_rev in Hin. now elim (H m0 v0).
Qed.

Lemma holds_empty : holds [] [].
Proof.
  split; [constructor|]. split.
  - intros k. split; [contradiction | intros [m [v []]]].
  - intros k ms name [].
Qed.

(** The keys after one contribution: the same, or one more at the end. *)
Lemma keys_put (V : Type) (agg : list (key * V)) (k : key) (v : V) :
  (In k (dict_keys agg) /\
   dict_keys (dict_set key_eqb agg k v) = dict_keys agg) \/
  (~ In k (dict_keys agg) /\
   dict_keys (dict_set key_eqb agg k v) = dict_keys agg ++ [k]).
Proof.
  destruct (dict_get key_eqb agg k) as [v0|] eqn:E.
  - apply kget_In in E. apply (in_map fst) in E. left.
    split; [assumption | now apply keys_kset_present].
  - apply kget_None in E. right.
    split; [assumption | now apply keys_kset_absent].
Qed.

Lemma holds_put (agg : table) (es : list entry) (e : entry) :
  holds agg es -> holds (put agg e) (es ++ [e]).
Proof.
  destruct e as [[k mn] v]. intros [Hnd [Hkeys Hcells]].
  unfold put, record. cbn [fst snd].
  set (ms := match dict_get key_eqb agg k with
             | Some m => m
             | None => NEW_METRICS
             end).
  assert (Hms : forall name, In name FIVE ->
            sget ms name = Some (cell es k name)).
  { intros name Hname. unfold ms.
    destruct (dict_get key_eqb agg k) as [m|] eqn:E.
    - apply kget_In in E. now apply (Hcells k m name).
    - apply kget_None in E. rewrite cell_absent.
      + simpl in Hname.
        destruct Hname as [<-|[<-|[<-|[<-|[<-|[]]]]]]; reflexivity.
      + intros m v' Hin. apply E. apply Hkeys. eauto. }
  set (agg' := dict_set key_eqb agg k (sset ms mn v)).
  assert (Hk' : forall k', In k' (dict_keys agg') <->
                           k' = k \/ In k' (dict_keys agg)).
  { intros k'. unfold agg'.
    destruct (keys_put _ agg k (sset ms mn v)) as [[Hin ->]|[Hout ->]].
    - split; [tauto | intros [->|H]; assumption].
    - rewrite in_app_iff. simpl. intuition congruence. }
  assert (Hnd' : NoDup (dict_keys agg')).
  { unfold agg'.
    destruct (keys_put _ agg k (sset ms mn v)) as [[Hin ->]|[Hout ->]];
      [assumption|].
    apply NoDup_app; [assumption | repeat constructor; intros [] |].
    intros x Hx [<-|[]]. contradiction. }
  split; [assumption|]. split.
  - intros k'. rewrite Hk'. split.
    + intros [->|Hin].
      * exists mn, v. apply in_app_iff. right. now left.
      * apply Hkeys in Hin as [m [v' Hm]]. exists m, v'.
        apply in_app_iff. now left.
    + intros [m [v' Hin]]. apply in_app_iff in Hin as [Hin|[E|[]]].
      * right. apply Hkeys. eauto.
      * left. congruence.
  - intros k' ms' name Hin Hname. rewrite cell_snoc.
    pose proof (In_kget _ _ _ _ Hnd' Hin) as Hget.
    unfold agg' in Hget. rewrite kget_kset in Hget.
    destruct (key_eqb k k') eqn:Ek.
    + injection Hget as <-. apply key_eqb_eq in Ek as <-.
      rewrite sget_sset. cbn [andb].
      destruct (mn =? name)%string; [reflexivity|]. now apply Hms.
    + cbn [andb]. apply kget_In in Hget. now apply (Hcells k' ms' name).
Qed.

Lemma holds_pass (es : list entry) : holds (fold_left put es []) es.
Proof.
  induction es as [|e es IH] using rev_ind.
  - apply holds_empty.
  - rewrite fold_left_app. cbn [fold_left]. now apply holds_put.
Qed.

Lemma out_row_expected (agg : table) (es : list entry) (k : key)
    (ms : list (string * string)) :
  holds agg es -> In (k, ms) agg ->
  out_row (k, ms) = Ok (expected_row es k).
Proof.
  intros [_ [_ Hcells]] Hin. unfold out_row, item.
  rewrite !(Hcells k ms _ Hin) by (simpl; tauto). reflexivity.
Qed.

(** X18.  [main] never raises.  Given at least one CSV file it writes the
    header and then one row per (project, candidate) pair that some row of
    some file contributes, the pairs strictly ascending, by project and
    then by candidate; each metric cell holds the formatted value of the
    last contribution for that pair and metric, in the order the files and
    their rows are read, and "NA" when there is none. *)
Theorem aggregate_writes_last_value_per_pair (files : list csv_file) :
  files <> [] ->
  exists keys,
    main path_stem float_2f files =
    Ok (Some (HEADER ::
              map (expected_row (entries path_stem float_2f files)) keys)) /\
    Sorted key_lt keys /\ NoDup keys /\
    (forall k, In k keys <->
               exists m v, In (k, m, v) (entries path_stem float_2f files)).
Proof.
  intros Hne. unfold main.
  destruct files as [|f fs] eqn:Ef; [congruence|]. rewrite <- Ef in *.
  rewrite files_entries. cbn [bind].
  set (es := entries path_stem float_2f files).
  set (agg := fold_left put es []).
  pose proof (holds_pass es) as Hh. fold agg in Hh.
  pose proof (sorted_items_perm agg) as Hperm.
  exists (dict_keys (sorted_items agg)).
  assert (Hkperm : Permutation (dict_keys (sorted_items agg)) (dict_keys agg)).
  { unfold dict_keys. now apply Permutation_map. }
  pose proof Hh as [Hnd [Hkeys Hcells]].
  assert (Hnd' : NoDup (dict_keys (sorted_items agg))).
  { apply (Permutation_NoDup (l := dict_keys agg)); [|assumption].
    now symmetry. }
  split; [|split; [|split]].
  - rewrite (map_each_pure _ _ out_row
               (fun kv => expected_row es (fst kv))).
    + cbn [bind]. unfold dict_keys. now rewrite map_map.
    + intros [k ms] Hin. cbn [fst].
      apply (out_row_expected agg es); [exact Hh|].
      now apply (Permutation_in _ Hperm).
  - apply ordered_strict; [apply sorted_items_ordered | assumption].
  - assumption.
  - intros k. rewrite <- Hkeys. split; apply Permutation_in;
      [assumption | now symmetry].
Qed.

End WithLibrary.

Lemma aggregate_writes_last_value_per_pair_witness :
  main Cases.whole_name Cases.no_number [Cases.csv_cid; Cases.csv_scf] =
  Ok (Some [HEADER; ["shop"; "by_class"; "0.5"; "NA"; "NA"; "NA"; "NA"]]) /\
  exists keys,
    main Cases.whole_name Cases.no_number [Cases.csv_cid; Cases.csv_scf] =
    Ok (Some (HEADER ::
              map (expected_row
                     (entries Cases.whole_name Cases.no_number
                        [Cases.csv_cid; Cases.csv_scf])) keys)) /\
    NoDup keys.
Proof.
  split; [reflexivity|].
  destruct (aggregate_writes_last_value_per_pair Cases.whole_name
              Cases.no_number [Cases.csv_cid; Cases.csv_scf])
    as [keys [H1 [_ [H2 _]]]].
  - discriminate.
  - exists keys. split; assumption.
Defined.

End AggFacts.

(* ================================================================== *)
(** * One more edge *)
(* ================================================================== *)

Module GrowthFacts.
Import Py Doc Edits PyFacts DocFacts RowFacts.
Local Open Scope nat_scope.
Local Open Scope string_scope.
Local Open Scope list_scope.

Lemma filter_length_mono (A : Type) (f g : A -> bool) (l : list A) :
  (forall x, f x = true -> g x = true) ->
  List.length (filter f l) <= List.length (filter g l).
Proof.
  intros H. induction l as [|x l IH]; simpl; [lia|].
  destruct (f x) eqn:E.
  - rewrite (H x E). simpl. lia.
  - destruct (g x); simpl; lia.
Qed.

Lemma existsb_same (A : Type) (f g : A -> bool) (l : list A) :
  (forall x, f x = g x) -> existsb f l = existsb g l.
Proof.
  intros H. induction l as [|x l IH]; simpl; [reflexivity|].
  now rewrite H, IH.
Qed.

Lemma place_same_decomposition (d d' : document) (l : link) :
  decomposition d' = decomposition d -> place d' l = place d l.
Proof. intros H. unfold place, partition_of. now rewrite H. Qed.

Lemma scf_value_antitone (s e e' : nat) :
  e <= e' -> (Scf.scf_value s e' <= Scf.scf_value s e)%R.
Proof.
  intros He. destruct (Nat.eq_dec e e') as [->|Hne]; [apply Rle_refl|].
  destruct s as [|s].
  - unfold Scf.scf_value. rewrite !Nat.add_0_r.
    destruct e' as [|e']; [lia|]. cbn [Nat.eqb].
    replace (INR 0 / INR (S e'))%R with 0%R
      by (simpl; unfold Rdiv; now rewrite Rmult_0_l).
    rewrite sqrt_0. destruct (e =? 0)%nat; [apply Rle_refl|].
    apply sqrt_pos.
  - apply Rlt_le, scf_value_decreasing; lia.
Qed.

(** The row [scf_for_file] returns on a well-formed document. *)
Lemma scf_row_repr (j : json) (d : document) :
  represents j d -> wf d = true ->
  let s := List.length (partitions d) in
  let e := List.length (filter (is_between_named d) (links d)) in
  Scf.scf_for_file (Ok j) =
  Ok (Some {| Scf.services := s; Scf.external_edges := e;
              Scf.SCF := Scf.scf_value s e |}).
Proof.
  intros Hr Hwf.
  inversion Hr as [top struct bus dec ls bls d' Hl1 Hl3 Hdec Hparts Hls
                   Hlinks Hbl Hbls]; subst.
  unfold Scf.scf_for_file, Scf.LAYER_KEY. cbn [bind].
  rewrite (subscript_obj _ _ _ Hl1). cbn [try_except].
  now rewrite (ScfFacts.counts_repr top struct bus d Hr Hwf Hl1).
Qed.

(** X19.  Adding edges to a document never raises CiD or SCF: with the
    same decomposition and some edges more, both values stay or fall. *)
Theorem more_edges_never_raise_cid_or_scf (j j' : json) (d d' : document)
    (extra : list link) :
  represents j d -> represents j' d' -> wf d = true -> wf d' = true ->
  decomposition d' = decomposition d -> links d' = links d ++ extra ->
  exists r r' s s',
    Cid.cid_for_file (Ok j) = Ok (Some r) /\
    Cid.cid_for_file (Ok j') = Ok (Some r') /\
    (Cid.CiD r' <= Cid.CiD r)%Q /\
    Scf.scf_for_file (Ok j) = Ok (Some s) /\
    Scf.scf_for_file (Ok j') = Ok (Some s') /\
    (Scf.SCF s' <= Scf.SCF s)%R.
Proof.
  intros Hr Hr' Hwf Hwf' Hdec Hlinks.
  assert (Hparts : partitions d' = partitions d).
  { unfold partitions. now rewrite Hdec. }
  assert (Hcross : forall p q, cross d p q = true -> cross d' p q = true).
  { intros p q. unfold cross, cross_in. rewrite Hlinks, existsb_app.
    intros H. apply orb_true_iff. left. rewrite <- H.
    apply existsb_same. intros l.
    now rewrite (place_same_decomposition d d' l Hdec). }
  eexists _, _, _, _.
  split; [apply (SymmetryFacts.cid_row_repr j d Hr Hwf)|].
  split; [apply (SymmetryFacts.cid_row_repr j' d' Hr' Hwf')|].
  split; [|split; [apply (scf_row_repr j d Hr Hwf)|
           split; [apply (scf_row_repr j' d' Hr' Hwf')|]]].
  - cbn [Cid.CiD]. rewrite Hparts.
    set (n := List.length (partitions d)).
    destruct (n <=? 1)%nat eqn:En; [apply Qle_refl|].
    apply Nat.leb_gt in En.
    pose proof (CidFacts.pairs_positive n En) as Hpos.
    assert (Hc : cyclic_count d <= cyclic_count d').
    { unfold cyclic_count. rewrite Hparts. apply filter_length_mono.
      intros [p q]. unfold cyclic_pair. cbn [fst snd].
      rewrite !andb_true_iff. intros [H1 H2]. split; now apply Hcross. }
    set (t := n * (n - 1) / 2) in *.
    assert (Ht : (0 < Qnat t)%Q) by (apply (Qnat_lt 0); assumption).
    apply Qnat_le in Hc.
    assert (Hq : (Qnat (cyclic_count d) / Qnat t <=
                  Qnat (cyclic_count d') / Qnat t)%Q).
    { unfold Qdiv. apply Qmult_le_compat_r; [assumption|].
      apply Qlt_le_weak, Qinv_lt_0_compat, Ht. }
    lra.
  - cbn [Scf.SCF]. rewrite Hparts. apply scf_value_antitone.
    rewrite Hlinks, filter_app, length_app.
    assert (He : filter (is_between_named d') (links d) =
                 filter (is_between_named d) (links d)).
    { apply filter_ext. intros l. unfold is_between_named.
      now rewrite (place_same_decomposition d d' l Hdec). }
    rewrite He. lia.
Qed.

Lemma more_edges_never_raise_cid_or_scf_witness :
  exists r r',
    Cid.cid_for_file (Ok Cases.json_one_way) = Ok (Some r) /\
    Cid.cid_for_file (Ok Scenario.json1) = Ok (Some r') /\
    (Cid.CiD r' <= Cid.CiD r)%Q.
Proof.
  destruct (more_edges_never_raise_cid_or_scf Cases.json_one_way
              Scenario.json1 Cases.doc_one_way Scenario.doc1
              [Scenario.lnk "b" "a"])
    as [r [r' [_ [_ [H1 [H2 [H3 _]]]]]]].
  - ScenarioFacts.represent.
  - exact ScenarioFacts.represents1.
  - reflexivity.
  - reflexivity.
  - reflexivity.
  - reflexivity.
  - exists r, r'. repeat split; assumption.
Defined.

End GrowthFacts.

(* ================================================================== *)
(** * CMod counts the edges inside a partition *)
(* ================================================================== *)

Module InsideFacts.
Import Py Doc Edits PyFacts DocFacts.
Local Open Scope nat_scope.
Local Open Scope string_scope.
Local Open Scope list_scope.

Section Inside.

Variables d d' : document.
Hypothesis same_dec : decomposition d' = decomposition d.

Lemma place_ends (l l' : link) :
  source l = source l' -> target l = target l' -> place d' l' = place d l.
Proof.
  intros Hs Ht. unfold place, partition_of. now rewrite same_dec, Hs, Ht.
Qed.

Lemma inside_count (ls ls' : list link) (p : string) :
  same_but_inside d ls ls' ->
  List.length (filter (is_inside d' p) ls') =
  List.length (filter (is_inside d p) ls).
Proof.
  induction 1 as [|l l' ls ls' [Hs [Ht _]] _ IH]; [reflexivity|].
  assert (E : is_inside d' p l' = is_inside d p l).
  { unfold is_inside. now rewrite (place_ends l l' Hs Ht). }
  cbn [filter]. rewrite E.
  destruct (is_inside d p l); [simpl; now rewrite IH | exact IH].
Qed.

Lemma crossing_weights (f : placement -> bool) (ls ls' : list link) :
  (forall p, f (Inside p) = false) ->
  same_but_inside d ls ls' ->
  map weight_of (filter (fun l => f (place d' l)) ls') =
  map weight_of (filter (fun l => f (place d l)) ls).
Proof.
  intros Hf. induction 1 as [|l l' ls ls' [Hs [Ht Hw]] _ IH]; [reflexivity|].
  cbn [filter]. rewrite (place_ends l l' Hs Ht).
  destruct (f (place d l)) eqn:E; [|exact IH].
  cbn [map]. rewrite IH. f_equal.
  destruct Hw as [Hw|[p Hp]].
  - unfold weight_of. now rewrite Hw.
  - rewrite Hp, Hf in E. discriminate.
Qed.

Lemma cmod_same_but_inside :
  same_but_inside d (links d) (links d') -> cmod d' = cmod d.
Proof.
  intros H.
  assert (Hi : forall p, internal_count d' p = internal_count d p).
  { intros p. now apply inside_count. }
  assert (Ho : forall p, outgoing_weight d' p = outgoing_weight d p).
  { intros p. unfold outgoing_weight, weight_sum. f_equal.
    apply (crossing_weights
             (fun pl => match pl with
                        | Between p' _ => (p' =? p)%string
                        | _ => false
                        end)); [reflexivity | assumption]. }
  assert (Hn : forall p, incoming_weight d' p = incoming_weight d p).
  { intros p. unfold incoming_weight, weight_sum. f_equal.
    apply (crossing_weights
             (fun pl => match pl with
                        | Between _ q' => (q' =? p)%string
                        | _ => false
                        end)); [reflexivity | assumption]. }
  assert (He : forall p, external_weight d' p = external_weight d p).
  { intros p. unfold external_weight. now rewrite Ho, Hn. }
  unfold cmod, partitions. rewrite same_dec. f_equal.
  rewrite (filter_ext (weighs_in d') (weighs_in d)).
  - apply map_ext. intros p. unfold cluster_factor. now rewrite Hi, He.
  - intros p. unfold weighs_in. now rewrite Hi, He.
Qed.

End Inside.

(** X20.  CMod counts the edges inside a partition and does not weigh
    them: changing the weights of edges whose two ends lie in one partition
    changes nothing, provided [float] can convert the weights of both
    documents (or of neither: the script converts the weight of such an
    edge all the same, and raises [OverflowError] when it cannot). *)
Theorem cmod_ignores_weights_inside (float_of_str : string -> option Q)
    (j j' : json) (d d' : document) :
  represents j d -> represents j' d' -> wf d = true -> wf d' = true ->
  decomposition d' = decomposition d ->
  same_but_inside d (links d) (links d') ->
  converts d' = converts d ->
  Cmod.cmod_for_file float_of_str (Ok j') =
  Cmod.cmod_for_file float_of_str (Ok j).
Proof.
  intros Hr Hr' Hwf Hwf' Hdec Hsame Hconv.
  rewrite (ModularityFacts.cmod_value_repr float_of_str j d Hr Hwf).
  rewrite (ModularityFacts.cmod_value_repr float_of_str j' d' Hr' Hwf').
  rewrite Hconv. destruct (converts d); [|reflexivity].
  f_equal. now apply cmod_same_but_inside.
Qed.

Lemma cmod_ignores_weights_inside_witness :
  Cmod.cmod_for_file Scenario.no_str (Ok Cases.json2_heavy) =
  Cmod.cmod_for_file Scenario.no_str (Ok Scenario.json2).
Proof.
  apply (cmod_ignores_weights_inside Scenario.no_str _ _ Scenario.doc2
           Cases.doc2_heavy).
  - exact ScenarioFacts.represents2.
  - ScenarioFacts.represent.
  - reflexivity.
  - reflexivity.
  - reflexivity.
  - unfold same_but_inside. cbn [links Scenario.doc2].
    apply Forall2_cons; [|repeat (apply Forall2_cons || apply Forall2_nil);
                          repeat split; now left].
    repeat split. right. now exists "P".
  - reflexivity.
Defined.

End InsideFacts.

(* ================================================================== *)
(** * From the scripts to the aggregated table *)
(* ================================================================== *)

Module MainsFacts.
Import Py Agg Mains.
Local Open Scope nat_scope.
Local Open Scope string_scope.
Local Open Scope list_scope.

(** X21.  The scripts and the aggregation fit together.  The aggregation
    reads the header row each of the five scripts writes as that script's
    metric, in the column of that name.  For a file a script could not
    analyse, the script writes "NA" in every column but the file name,
    except smad.py, which leaves its SMAD column empty (it stores the "NA"
    under a key that is no column); the aggregation turns both "NA" and the
    empty text into "NA".  No written row makes [csv.DictWriter] raise. *)
Theorem scripts_and_aggregation_fit (float_2f : string -> option string)
    (name : string) :
  (pick_metric cid_fields = Some ("CiD", "CiD") /\
   pick_metric cmod_header = Some ("CMod", "CMod") /\
   pick_metric scf_fieldnames = Some ("SCF", "SCF") /\
   pick_metric smad_wide_fields = Some ("SMAD", "SMAD") /\
   pick_metric dccmd_wide_fields = Some ("DCCMD", "DCCMD")) /\
  (cid_line name None = Ok [Text name; NA; NA; NA; NA] /\
   cmod_line name None = [Text name; NA] /\
   scf_line name None = Ok [Text name; NA; NA; NA] /\
   smad_line name None =
   Ok [Text name; Text EmptyString; NA; NA; NA; NA; NA] /\
   forall svc,
     dccmd_line name (None, svc) =
     Ok [Text name; NA; NA; count_or_NA svc; NA; NA]) /\
  (fmt2 float_2f (Some "NA") = "NA" /\
   fmt2 float_2f (Some EmptyString) = "NA") /\
  (forall r, exists line, cid_line name (Some r) = Ok line /\
                          nth 1 line NA = Fixed 4 (Cid.CiD r)) /\
  (forall c, nth 1 (cmod_line name (Some c)) NA = Fixed 4 c) /\
  (forall r, exists line, scf_line name (Some r) = Ok line /\
                          nth 1 line NA = FixedR 4 (Scf.SCF r)) /\
  (forall r, exists line, smad_line name (Some r) = Ok line /\
                          nth 1 line NA = Num (Smad.SMAD r)).
Proof.
  repeat split; try reflexivity; intros; eexists; split; reflexivity.
Qed.

End MainsFacts.

(* ================================================================== *)
(** * What DCCMD does not look at *)
(* ================================================================== *)

Module DepthFacts.
Import Py Graph Doc Edits PyFacts DocFacts DccmdFacts.
Local Open Scope nat_scope.
Local Open Scope string_scope.
Local Open Scope list_scope.

(** A story has one depth. *)
Lemma story_depth_unique (d : document) (s : string) (n m : nat) :
  story_depth d s n -> story_depth d s m -> n = m.
Proof.
  intros [[p [Hp Hn]] Hmax] [[q [Hq Hm]] Hmax'].
  apply Nat.le_antisymm.
  - apply (Hmax' p n Hp Hn).
  - apply (Hmax q m Hq Hm).
Qed.

Lemma depths_unique (d : document) (ss : list string) (l l' : list nat) :
  Forall2 (story_depth d) ss l -> Forall2 (story_depth d) ss l' -> l = l'.
Proof.
  intros H. revert l'. induction H as [|s n ss l Hs _ IH]; intros l' H'.
  - now inversion H'.
  - inversion H' as [|? m ? l0 Hm Hl0]; subst. f_equal.
    + now apply (story_depth_unique d s).
    + now apply IH.
Qed.

Lemma Forall2_In_l (A B : Type) (P : A -> B -> Prop) (l : list A)
    (l' : list B) (x : A) :
  Forall2 P l l' -> In x l -> exists y, In y l' /\ P x y.
Proof.
  induction 1 as [|a b l l' Hab _ IH]; intros Hin.
  - contradiction.
  - destruct Hin as [<-|Hin].
    + exists b. split; [now left | assumption].
    + destruct (IH Hin) as [y [Hy Hp]]. exists y. split; [now right|].
      assumption.
Qed.

Section SameEnds.

Variables d d' : document.
Hypothesis same_dec : decomposition d' = decomposition d.
Hypothesis same_stories : use_cases d' = use_cases d.
Hypothesis same_links : same_ends (links d) (links d').

Lemma hop_same (p q : string) : hop d' p q <-> hop d p q.
Proof.
  unfold hop. split.
  - apply SymmetryFacts.cross_same_ends; [assumption|].
    intros s t. symmetry. apply same_links.
  - apply SymmetryFacts.cross_same_ends; [now symmetry | assumption].
Qed.

Lemma lands_same (u : use_case) : lands d' u = lands d u.
Proof. unfold lands, partition_of. now rewrite same_dec. Qed.

Lemma touches_same (s p : string) : touches d' s p = touches d s p.
Proof.
  unfold touches, touches_in. rewrite same_stories.
  apply GrowthFacts.existsb_same. intros u. now rewrite lands_same.
Qed.

Lemma stories_same : stories d' = stories d.
Proof.
  unfold stories, landing. rewrite same_stories. do 2 f_equal.
  apply filter_ext. intros u. now rewrite lands_same.
Qed.

Lemma story_depth_same (s : string) (n : nat) :
  story_depth d' s n -> story_depth d s n.
Proof.
  intros [[p [Hp Hn]] Hmax]. split.
  - exists p. rewrite <- touches_same. split; [assumption|].
    revert Hn. apply longest_from_iff. apply hop_same.
  - intros q m Hq Hm. apply (Hmax q m).
    + now rewrite touches_same.
    + revert Hm. apply longest_from_iff. intros x y. symmetry.
      apply hop_same.
Qed.

End SameEnds.

(** X22.  The depths of dccmd.py depend on the structural links only
    through the ordered pairs of nodes they join: two well-formed documents
    with the same decomposition and use cases whose links join the same
    pairs get the same depths and the same DCCMD, whatever the order of the
    links, their number and their weights, and end in [RecursionError]
    together when the interpreter lets too few calls nest. *)
Theorem dccmd_ignores_order_number_weight (limit : nat) (j j' : json)
    (d d' : document) :
  represents j d -> represents j' d' ->
  wf d = true -> wf d' = true -> named d = true ->
  decomposition d' = decomposition d -> use_cases d' = use_cases d ->
  same_ends (links d) (links d') ->
  Dccmd.depths_for_file limit (Ok j') = Dccmd.depths_for_file limit (Ok j) /\
  Dccmd.main_row limit (Ok j') = Dccmd.main_row limit (Ok j).
Proof.
  intros Hr Hr' Hwf Hwf' Hn Hdec Huc Hends.
  assert (Hn' : named d' = true).
  { unfold named, partitions in *. now rewrite Hdec. }
  assert (Hparts : partitions d' = partitions d).
  { unfold partitions. now rewrite Hdec. }
  pose proof (stories_same d d' Hdec Huc) as Hst.
  assert (Hd : Dccmd.depths_for_file limit (Ok j') =
               Dccmd.depths_for_file limit (Ok j)).
  { destruct (depths_for_file_repr limit j d Hr Hwf Hn) as [_ [H0 H1]].
    destruct (depths_for_file_repr limit j' d' Hr' Hwf' Hn') as [_ [H0' H1']].
    cbv zeta in *. rewrite Hparts, Hst in *.
    destruct (stories d) as [|s ss] eqn:Es.
    - now rewrite H0, H0'.
    - destruct H1 as [[l [Hl Hf]]|[Hl [s1 [p1 [m1 [Hp1 [Hm1 Hdeep1]]]]]]];
        [discriminate| |];
        (destruct H1'
           as [[l' [Hl' Hf']]|[Hl' [s2 [p2 [m2 [Hp2 [Hm2 Hdeep2]]]]]]];
         [discriminate| |]).
      + rewrite Hl, Hl'. do 3 f_equal.
        apply (depths_unique d (s :: ss)).
        * revert Hf'. apply Forall2_impl. intros a b [Hab _].
          now apply (story_depth_same d d').
        * revert Hf. apply Forall2_impl. now intros a b [Hab _].
      + exfalso. rewrite (touches_same d d' Hdec Huc) in Hp2.
        assert (Hm : longest_from (hop d) p2 m2).
        { revert Hm2. apply longest_from_iff.
          apply (hop_same d d' Hdec Hends). }
        pose proof (touches_story d s2 p2 Hp2) as Hin. rewrite Es in Hin.
        destruct (Forall2_In_l _ _ _ _ _ _ Hf Hin) as [k [_ [_ Hw]]].
        specialize (Hw p2 m2 Hp2 Hm). lia.
      + exfalso. rewrite <- (touches_same d d' Hdec Huc) in Hp1.
        assert (Hm : longest_from (hop d') p1 m1).
        { revert Hm1. apply longest_from_iff. intros x y. symmetry.
          apply (hop_same d d' Hdec Hends). }
        pose proof (touches_story d' s1 p1 Hp1) as Hin. rewrite Hst in Hin.
        destruct (Forall2_In_l _ _ _ _ _ _ Hf' Hin) as [k [_ [_ Hw]]].
        specialize (Hw p1 m1 Hp1 Hm). lia.
      + now rewrite Hl, Hl'. }
  split; [assumption|]. unfold Dccmd.main_row. now rewrite Hd.
Qed.

Lemma dccmd_ignores_order_number_weight_witness :
  Dccmd.main_row 1000 (Ok Cases.json5_doubled) =
  Dccmd.main_row 1000 (Ok Scenario.json5).
Proof.
  apply (dccmd_ignores_order_number_weight 1000 _ _ Scenario.doc5
           Cases.doc5_doubled).
  - exact ScenarioFacts.represents5.
  - ScenarioFacts.represent.
  - reflexivity.
  - reflexivity.
  - reflexivity.
  - reflexivity.
  - reflexivity.
  - intros s t. split; intros [l [Hl [<- <-]]]; simpl in Hl.
    + destruct Hl as [<-|[<-|[]]].
      * exists (Scenario.lnk "a" "b"). simpl. auto.
      * exists (Scenario.lnk "b" "c"). simpl. auto.
    + destruct Hl as [<-|[<-|[<-|[]]]].
      * exists (Scenario.lnk "b" "c"). simpl. auto.
      * exists (Scenario.lnk "a" "b"). simpl. auto.
      * exists (Scenario.lnk "b" "c"). simpl. auto.
Defined.

End DepthFacts.

(* ================================================================== *)
(** * A structural layer without partitions *)
(* ================================================================== *)

Module EmptyFacts.
Import Py PyFacts.
Local Open Scope nat_scope.
Local Open Scope string_scope.
Local Open Scope list_scope.

(** X23.  A document whose structural layer declares no partition, the
    [decomposition] being absent or an empty object, and has no links: CiD
    is 1 over 0 partitions, CMod and SMAD are not available, SCF is 0 over
    0 services.  dccmd.py alone reads [decomposition] without a default:
    it raises [KeyError] when the key is absent, and returns no depths and
    0 services when the object is empty. *)
Theorem no_partition_at_all (float_of_str : string -> option Q)
    (limit : nat) (top struct bus : list (string * json)) :
  sget top "1_structural_static" = Some (JObj struct) ->
  sget top "3_business_use_cases" = Some (JObj bus) ->
  sget struct "links" = None -> sget bus "links" = None ->
  sget struct "decomposition" = None \/
  sget struct "decomposition" = Some (JObj []) ->
  Cid.cid_for_file (Ok (JObj top)) =
  Ok (Some {| Cid.partitions := 0; Cid.cyclic_pairs := 0;
              Cid.total_pairs := 0; Cid.CiD := 1 |}) /\
  Cmod.cmod_for_file float_of_str (Ok (JObj top)) = Ok None /\
  Scf.scf_for_file (Ok (JObj top)) =
  Ok (Some {| Scf.services := 0; Scf.external_edges := 0;
              Scf.SCF := 0%R |}) /\
  Smad.analyze_file (Ok (JObj top)) = Ok None /\
  (sget struct "decomposition" = None ->
   Dccmd.depths_for_file limit (Ok (JObj top)) = Raise KeyError) /\
  (sget struct "decomposition" = Some (JObj []) ->
   Dccmd.depths_for_file limit (Ok (JObj top)) = Ok (None, Some 0) /\
   Dccmd.main_row limit (Ok (JObj top)) = Ok None).
Proof.
  intros H1 H3 Hl Hbl Hdec.
  assert (Hd : dot_get (JObj struct) "decomposition" (JObj []) =
               Ok (JObj [])).
  { destruct Hdec as [E|E];
      [now apply dot_get_absent | now apply dot_get_obj]. }
  pose proof (dot_get_absent struct "links" (JArr []) Hl) as Hlinks.
  pose proof (dot_get_absent bus "links" (JArr []) Hbl) as Hblinks.
  repeat split.
  - unfold Cid.cid_for_file, Cid.LAYER_KEY. cbn [bind].
    rewrite (subscript_obj _ _ _ H1). cbn [try_except].
    now rewrite Hd, Hlinks.
  - unfold Cmod.cmod_for_file, Cmod.LAYER_KEY. cbn [bind].
    rewrite (subscript_obj _ _ _ H1). cbn [try_except].
    now rewrite Hd, Hlinks.
  - unfold Scf.scf_for_file, Scf.LAYER_KEY, Scf.counts. cbn [bind].
    rewrite (subscript_obj _ _ _ H1). cbn [try_except].
    now rewrite Hd, Hlinks.
  - unfold Smad.analyze_file, Smad.sizes_of, Smad.LAYER_KEY. cbn [bind].
    rewrite (subscript_obj _ _ _ H1). cbn [bind]. now rewrite Hd.
  - intros E. unfold Dccmd.depths_for_file, Dccmd.L1, Dccmd.L3.
    cbn [bind]. rewrite (subscript_obj _ _ _ H1). cbn [bind].
    rewrite (subscript_obj _ _ _ H3). cbn [bind try_except].
    now rewrite (LayerFacts.subscript_absent struct "decomposition" E).
  - unfold Dccmd.depths_for_file, Dccmd.L1, Dccmd.L3.
    cbn [bind]. rewrite (subscript_obj _ _ _ H1). cbn [bind].
    rewrite (subscript_obj _ _ _ H3). cbn [bind try_except].
    rewrite (subscript_obj _ _ _ H).
    cbn [bind dot_items dot_keys node2part for_each].
    now rewrite Hlinks, Hblinks.
  - unfold Dccmd.main_row, Dccmd.depths_for_file, Dccmd.L1, Dccmd.L3.
    cbn [bind]. rewrite (subscript_obj _ _ _ H1). cbn [bind].
    rewrite (subscript_obj _ _ _ H3). cbn [bind try_except].
    rewrite (subscript_obj _ _ _ H).
    cbn [bind dot_items dot_keys node2part for_each].
    now rewrite Hlinks, Hblinks.
Qed.

Lemma no_partition_at_all_witness :
  Cid.cid_for_file (Ok Cases.json_no_partition) =
  Ok (Some {| Cid.partitions := 0; Cid.cyclic_pairs := 0;
              Cid.total_pairs := 0; Cid.CiD := 1 |}) /\
  Dccmd.depths_for_file 1000 (Ok Cases.json_no_partition) = Raise KeyError.
Proof.
  destruct (no_partition_at_all Scenario.no_str 1000
              [("1_structural_static", JObj []);
               ("3_business_use_cases", JObj [])] [] [])
    as [H1 [_ [_ [_ [H2 _]]]]]; try reflexivity.
  - now left.
  - split; [exact H1 | now apply H2].
Defined.

End EmptyFacts.
